(** * NostrX: the sync engine of [nostrx.py], embedded and verified.

    The development follows the source file section by section:
    configuration (module-level globals computed from the process
    environment), state management ([load_state], [save_state]), media
    handling ([extract_media_urls]) and the sync logic ([SyncTool.run]).

    Python values are modelled as follows.
    - [str] is a list of characters; a character is a code point below 256
      (an [ascii]), with Python's [str.isspace] and [str.lower] on that range.
    - [int] is [Z] (Python integers are unbounded).
    - the state dictionary is a record with the two keys the program uses.
    - every call that leaves the process (relay client, HTTP download,
      Twitter client, file system, clock) is answered by an oracle over an
      abstract world, and is logged, with its answer, in the order in which
      the program issues it. *)

From Stdlib Require Import List ZArith Lia Bool Arith Ascii.
From Stdlib Require String.
Import String.StringSyntax.
From Stdlib Require Import Sorting.Sorted Sorting.Permutation.
Import ListNotations.

Set Implicit Arguments.

(* ================================================================== *)
(** * Python strings *)
(* ================================================================== *)

Module PyStr.

Definition str := list ascii.

(** A string literal. *)
Definition py (s : String.string) : str := String.list_ascii_of_string s.
Arguments py s%_string_scope.

Definition code (c : ascii) : N := N_of_ascii c.

(** [str.isspace] on one character (the predicate behind [\s], [\S] and
    [strip]): TAB..CR, FS..US, SPACE, NEL, NBSP. *)
Definition isspace (c : ascii) : bool :=
  let n := code c in
  ((9 <=? n) && (n <=? 13) || (28 <=? n) && (n <=? 31) || (n =? 32)
   || (n =? 133) || (n =? 160))%N.

(** [str.lower] on one character: A..Z and the accented capitals
    U+00C0..U+00DE (the multiplication sign U+00D7 apart). *)
Definition lower_char (c : ascii) : ascii :=
  let n := code c in
  if ((65 <=? n) && (n <=? 90))%N then ascii_of_N (n + 32)
  else if ((192 <=? n) && (n <=? 222) && negb (n =? 215))%N
       then ascii_of_N (n + 32)
       else c.

Definition lower (s : str) : str := map lower_char s.

Fixpoint str_eqb (a b : str) : bool :=
  match a, b with
  | [], [] => true
  | x :: a', y :: b' => Ascii.eqb x y && str_eqb a' b'
  | _, _ => false
  end.

(** [x in l] for a list of strings. *)
Definition mem (x : str) (l : list str) : bool := existsb (str_eqb x) l.

(** [s.startswith(p)]. *)
Fixpoint startswith (s p : str) {struct p} : bool :=
  match p, s with
  | [], _ => true
  | x :: p', y :: s' => Ascii.eqb x y && startswith s' p'
  | _ :: _, [] => false
  end.

(** [s.endswith(p)]. *)
Definition endswith (s p : str) : bool := startswith (rev s) (rev p).

(** [p in s] for strings: [p] occurs in [s] as a contiguous substring. *)
Fixpoint contains (s p : str) : bool :=
  startswith s p ||
  match s with
  | [] => false
  | _ :: s' => contains s' p
  end.

Fixpoint dropwhile (f : ascii -> bool) (s : str) : str :=
  match s with
  | [] => []
  | c :: s' => if f c then dropwhile f s' else s
  end.

Fixpoint takewhile (f : ascii -> bool) (s : str) : str :=
  match s with
  | [] => []
  | c :: s' => if f c then c :: takewhile f s' else []
  end.

(** [s.strip()]: leading and trailing whitespace removed. *)
Definition strip (s : str) : str :=
  rev (dropwhile isspace (rev (dropwhile isspace s))).

(** [s.replace(old, "")]: every occurrence of [old] is deleted, scanning from
    the left and never overlapping; [skip] counts the characters of the
    occurrence under deletion that are still to be passed over. *)
Fixpoint delete_from (old s : str) (skip : nat) : str :=
  match s with
  | [] => []
  | c :: s' =>
    match skip with
    | S k => delete_from old s' k
    | O => if startswith s old
           then delete_from old s' (length old - 1)
           else c :: delete_from old s' 0
    end
  end.

Definition replace_with_empty (s old : str) : str :=
  match old with
  | [] => s
  | _ :: _ => delete_from old s 0
  end.

(** [s.split(",")]. *)
Fixpoint split_comma (s : str) : list str :=
  match s with
  | [] => [[]]
  | c :: s' =>
    if Ascii.eqb c ","%char then [] :: split_comma s'
    else match split_comma s' with
         | [] => [[c]]
         | w :: ws => (c :: w) :: ws
         end
  end.

(** Truthiness of a string. *)
Definition truthy (s : str) : bool :=
  match s with [] => false | _ :: _ => true end.

(** ** The pattern [https?://\S+] and [re.findall] *)

(** [scheme] followed by at least one non-whitespace character, at the head
    of [s]. *)
Definition scheme_here (scheme s : str) : bool :=
  startswith s scheme &&
  match skipn (length scheme) s with
  | c :: _ => negb (isspace c)
  | [] => false
  end.

(** The pattern matches at the head of [s]: the optional [s] is tried first,
    then left out. *)
Definition url_here (s : str) : bool :=
  scheme_here (py "https://") s || scheme_here (py "http://") s.

Definition nonspace (c : ascii) : bool := negb (isspace c).

(** [re.findall(r'https?://\S+', s)], scanning from the left.  [tok] is the
    match in progress (its characters so far, last first): once the pattern
    has matched at a position, [\S+] greedily takes the whole run of
    non-whitespace characters, and the scan resumes after it. *)
Fixpoint findall_scan (s : str) (tok : option str) : list str :=
  match s with
  | [] => match tok with Some t => [rev t] | None => [] end
  | c :: s' =>
    match tok with
    | Some t =>
      if isspace c then rev t :: findall_scan s' None
      else findall_scan s' (Some (c :: t))
    | None =>
      if url_here s then findall_scan s' (Some [c])
      else findall_scan s' None
    end
  end.

Definition findall_urls (s : str) : list str := findall_scan s None.

End PyStr.
Import PyStr.

(* ================================================================== *)
(** * Media handling *)
(* ================================================================== *)

Definition MEDIA_EXTENSIONS : list str :=
  [py ".jpg"; py ".jpeg"; py ".png"; py ".gif"; py ".mp4"; py ".mov"].

(** [any(lower_url.endswith(ext) for ext in MEDIA_EXTENSIONS)] with
    [lower_url = url.lower()]. *)
Definition is_media (url : str) : bool :=
  let lower_url := lower url in
  existsb (fun ext => endswith lower_url ext) MEDIA_EXTENSIONS.

(** One iteration of the loop over [found_urls]; the pair is
    [(clean_content, urls)]. *)
Definition extract_step (acc : str * list str) (url : str) : str * list str :=
  let (clean_content, urls) := acc in
  if is_media url
  then (strip (replace_with_empty clean_content url), urls ++ [url])
  else (clean_content, urls).

Definition extract_media_urls (content : str) : str * list str :=
  fold_left extract_step (findall_urls content) (content, []).

(** The spec's reading of the media test: the part of the URL before any
    query string or fragment is what must end in an extension. *)
Definition url_path (url : str) : str :=
  takewhile (fun c => negb (Ascii.eqb c "?"%char || Ascii.eqb c "#"%char)) url.

Definition spec_is_media (url : str) : bool :=
  existsb (fun ext => endswith (lower (url_path url)) ext) MEDIA_EXTENSIONS.

(** ** A text laid out around its URL tokens *)

(** The tokens of a text, each with what follows it up to the next token. *)
Fixpoint body_text (body : list (str * str)) : str :=
  match body with
  | [] => []
  | (t, h) :: rest => t ++ h ++ body_text rest
  end.

Definition first_token (body : list (str * str)) : str :=
  match body with [] => [] | (t, _) :: _ => t end.

(** The pattern matches nowhere in [g] when [next] follows. *)
Definition clean_gap (g next : str) : Prop :=
  forall a b, g = a ++ b -> b <> [] -> url_here (b ++ next) = false.

(** Empty, or begun by a whitespace character. *)
Definition after_token (h : str) : Prop :=
  match h with [] => True | c :: _ => isspace c = true end.

(** The layout of a text as [re.findall] reads it: each token matches the
    pattern and holds no whitespace, whitespace or the end of the text follows
    it, and the pattern matches nowhere between it and the next token. *)
Fixpoint wf_body (body : list (str * str)) : Prop :=
  match body with
  | [] => True
  | (t, h) :: rest =>
    url_here t = true /\ forallb nonspace t = true
    /\ after_token h /\ (rest <> [] -> h <> [])
    /\ clean_gap h (first_token rest) /\ wf_body rest
  end.

(** No media URL among [tokens] occurs inside another of them. *)
Definition not_nested (tokens : list str) : bool :=
  forallb (fun u =>
             negb (is_media u)
             || forallb (fun v => negb (contains v u) || str_eqb v u) tokens)
          tokens.

(* ================================================================== *)
(** * Configuration *)
(* ================================================================== *)

(** The process environment, as far as the program reads it: each variable is
    unset ([None]) or holds a string. *)
Record Environ := mkEnviron {
  env_NOSTR_NPUBS : option str;
  env_NOSTR_RELAYS : option str;
  env_TWITTER_API_KEY : option str;
  env_TWITTER_API_SECRET : option str;
  env_TWITTER_ACCESS_TOKEN : option str;
  env_TWITTER_ACCESS_SECRET : option str
}.

(** [os.getenv(name, "")]. *)
Definition getenv_or_empty (v : option str) : str :=
  match v with Some s => s | None => [] end.

(** [[x.strip() for x in s.split(",") if x.strip()]]. *)
Definition comma_separated (s : str) : list str :=
  map strip (filter (fun x => truthy (strip x)) (split_comma s)).

Definition DEFAULT_RELAYS : list str :=
  [py "wss://relay.damus.io"; py "wss://nos.lol";
   py "wss://relay.nostr.band"; py "wss://relay.primal.net"].

(** The module-level globals. *)
Record Config := mkConfig {
  MONITORED_NPUBS : list str;
  NOSTR_RELAYS : list str;
  TWITTER_API_KEY : option str;
  TWITTER_API_SECRET : option str;
  TWITTER_ACCESS_TOKEN : option str;
  TWITTER_ACCESS_SECRET : option str
}.

Definition configuration (env : Environ) : Config :=
  let npubs_env := getenv_or_empty (env_NOSTR_NPUBS env) in
  let relays_env := getenv_or_empty (env_NOSTR_RELAYS env) in
  {| MONITORED_NPUBS := comma_separated npubs_env;
     NOSTR_RELAYS := if truthy relays_env then comma_separated relays_env
                     else DEFAULT_RELAYS;
     TWITTER_API_KEY := env_TWITTER_API_KEY env;
     TWITTER_API_SECRET := env_TWITTER_API_SECRET env;
     TWITTER_ACCESS_TOKEN := env_TWITTER_ACCESS_TOKEN env;
     TWITTER_ACCESS_SECRET := env_TWITTER_ACCESS_SECRET env |}.

(** Truthiness of a credential: [None] and the empty string are false. *)
Definition cred_set (c : option str) : bool :=
  match c with Some s => truthy s | None => false end.

(* ================================================================== *)
(** * State management *)
(* ================================================================== *)

Record State := mkState {
  last_synced_timestamp : Z;
  synced_event_ids : list str
}.

(** [load_state]: [file] is what [json.load] returns when the state file
    exists and parses, [now] is [int(time.time())]. *)
Definition load_state (file : option State) (now : Z) : State :=
  match file with
  | Some st => st
  | None => {| last_synced_timestamp := now - 86400; synced_event_ids := [] |}
  end.

(** [l[-n:]] for [n > 0]. *)
Definition last_n (n : nat) (l : list str) : list str :=
  skipn (length l - n) l.

(** [save_state]: the id list is cut to its last 1000 entries in the state
    object itself, which is then dumped to the state file; the result is the
    state object after the call. *)
Definition save_state (state : State) : State :=
  {| last_synced_timestamp := last_synced_timestamp state;
     synced_event_ids := last_n 1000 (synced_event_ids state) |}.

(* ================================================================== *)
(** * Events, calls and the outside world *)
(* ================================================================== *)

Record Event := mkEvent {
  event_id : str;              (* event.id().to_hex() *)
  created_at : Z;              (* event.created_at().as_secs() *)
  event_tags : list (list str);(* tag.as_vec() of each tag *)
  content : str                (* event.content() *)
}.

(** The [since] field of a filter as the relays read it: an event passes
    when it is not older than [since]. *)
Definition since_admits (since t : Z) : bool := (since <=? t)%Z.

(** A call that leaves the process, with the answer it got.  An answer
    [false] or [None] of a call that can raise stands for the exception. *)
Inductive Call : Type :=
| add_relay (relay : str) (ok : bool)
| connect (ok : bool)
| fetch_events (authors : list str) (since : Z) (res : option (list Event))
| download_media (url : str) (path : option str)
| media_upload (path : str) (media_id : option Z)
| create_tweet (text : str) (media_ids : list Z) (ok : bool)
    (* an empty [media_ids] is the call without that keyword *)
| dump_state (state : State)
| os_remove (path : str)
| sleep.

(** The outside world: how it answers each call and how the call changes it.
    [download_media] never raises (it returns [None] instead); whether the
    write of the state file succeeds is the world's own business: the
    program's control flow does not depend on it. *)
Record Oracle (W : Type) := mkOracle {
  on_add_relay : W -> str -> W * bool;
  on_connect : W -> W * bool;
  on_fetch_events : W -> list str -> Z -> W * option (list Event);
  on_download_media : W -> str -> W * option str;
  on_media_upload : W -> str -> W * option Z;
  on_create_tweet : W -> str -> list Z -> W * bool;
  on_dump_state : W -> State -> W;
  on_os_remove : W -> str -> W;
  on_sleep : W -> W
}.

(** The pure library functions that can raise: where they do. *)
Record Lib := mkLib {
  PublicKey_parse_ok : str -> bool;      (* PublicKey.parse *)
  Timestamp_from_secs_ok : Z -> bool;    (* Timestamp.from_secs *)
  fromtimestamp_ok : Z -> bool           (* datetime.fromtimestamp *)
}.

(* ================================================================== *)
(** * Sync logic *)
(* ================================================================== *)

(** [self.twitter_client] and [self.twitter_v2]: set ([true]) or [None]. *)
Record Clients := mkClients {
  twitter_client : bool;
  twitter_v2 : bool
}.

Definition setup_twitter (cfg : Config) : Clients :=
  if cred_set (TWITTER_API_KEY cfg) && cred_set (TWITTER_API_SECRET cfg)
     && cred_set (TWITTER_ACCESS_TOKEN cfg)
     && cred_set (TWITTER_ACCESS_SECRET cfg)
  then {| twitter_client := true; twitter_v2 := true |}
  else {| twitter_client := false; twitter_v2 := false |}.

(** [event_list.sort(key=lambda x: x.created_at().as_secs())]: the stable
    ascending sort, as insertion from the right. *)
Fixpoint insert_by_created_at (e : Event) (l : list Event) : list Event :=
  match l with
  | [] => [e]
  | x :: l' =>
    if (created_at e <=? created_at x)%Z then e :: x :: l'
    else x :: insert_by_created_at e l'
  end.

Fixpoint sort_by_created_at (l : list Event) : list Event :=
  match l with
  | [] => []
  | e :: l' => insert_by_created_at e (sort_by_created_at l')
  end.

(** Not newer than: the order of the sort. *)
Definition by_created_at (a b : Event) : Prop :=
  (created_at a <= created_at b)%Z.

(** The reply test of one event. *)
Definition is_reply (e : Event) : bool :=
  existsb (fun t => match t with
                    | [] => false
                    | t0 :: _ => mem t0 [py "e"; py "reply"]
                    end) (event_tags e).

(** Truncation to the length limit. *)
Definition truncate_text (clean_text : str) : str :=
  if (280 <? length clean_text)%nat
  then firstn 277 clean_text ++ py "..."
  else clean_text.

Section Sync.

Variable W : Type.
Variable O : Oracle W.
Variable L : Lib.

(** ** [setup_nostr] *)

Record Progress := mkProgress {
  pg_world : W;
  pg_calls : list Call;
  pg_ok : bool                 (* [false]: an exception left the block *)
}.

Fixpoint add_relays (w : W) (relays : list str) : Progress :=
  match relays with
  | [] => mkProgress w [] true
  | relay :: rest =>
    let a := on_add_relay O w relay in
    if snd a
    then let p := add_relays (fst a) rest in
         mkProgress (pg_world p) (add_relay relay true :: pg_calls p) (pg_ok p)
    else mkProgress (fst a) [add_relay relay false] false
  end.

Definition setup_nostr (w : W) (relays : list str) : Progress :=
  let p := add_relays w relays in
  if pg_ok p
  then let c := on_connect O (pg_world p) in
       mkProgress (fst c) (pg_calls p ++ [connect (snd c)]) (snd c)
  else p.

(** ** The media of one post: download, and upload when the client is set *)

Record Media := mkMedia {
  md_world : W;
  md_calls : list Call;
  md_temp_files : list str;
  md_media_ids : list Z
}.

Fixpoint fetch_media (client : bool) (w : W) (media_urls : list str) : Media :=
  match media_urls with
  | [] => mkMedia w [] [] []
  | url :: rest =>
    let d := on_download_media O w url in
    match snd d with
    | None =>
      let m := fetch_media client (fst d) rest in
      mkMedia (md_world m) (download_media url None :: md_calls m)
              (md_temp_files m) (md_media_ids m)
    | Some path =>
      if client
      then let u := on_media_upload O (fst d) path in
           let m := fetch_media client (fst u) rest in
           mkMedia (md_world m)
                   (download_media url (Some path)
                      :: media_upload path (snd u) :: md_calls m)
                   (path :: md_temp_files m)
                   (match snd u with
                    | Some media_id => media_id :: md_media_ids m
                    | None => md_media_ids m
                    end)
      else let m := fetch_media client (fst d) rest in
           mkMedia (md_world m) (download_media url (Some path) :: md_calls m)
                   (path :: md_temp_files m) (md_media_ids m)
    end
  end.

(** ** One iteration of the loop over [event_list] *)

(** The variables the loop carries and what the iteration did. *)
Record Step := mkStep {
  sp_state : State;            (* self.state *)
  sp_new_last_ts : Z;          (* new_last_ts *)
  sp_world : W;
  sp_calls : list Call;
  sp_raised : bool             (* an exception left the loop body *)
}.

(** The state update after a successful post: the id is appended, the
    timestamp raised when the post is newer, the state saved. *)
Definition record_published (state : State) (new_last_ts : Z) (e : Event)
  : State * Z :=
  let ids := synced_event_ids state ++ [event_id e] in
  if (created_at e >? new_last_ts)%Z
  then (save_state {| last_synced_timestamp := created_at e;
                      synced_event_ids := ids |}, created_at e)
  else (save_state {| last_synced_timestamp := last_synced_timestamp state;
                      synced_event_ids := ids |}, new_last_ts).

(** The posts [evs] recorded one after the other, [new_last_ts] starting at
    the state's timestamp as it does in [run]. *)
Definition record_all (state : State) (evs : list Event) : State * Z :=
  fold_left (fun acc e => record_published (fst acc) (snd acc) e) evs
            (state, last_synced_timestamp state).

(** The [Post to Twitter] block. *)
Definition post_to_twitter (cl : Clients) (state : State) (new_last_ts : Z)
    (w : W) (e : Event) (clean_text : str) (media_ids : list Z) : Step :=
  if twitter_v2 cl
  then
    let text := truncate_text clean_text in
    let t := on_create_tweet O w text media_ids in
    if snd t
    then
      let r := record_published state new_last_ts e in
      mkStep (fst r) (snd r) (on_dump_state O (fst t) (fst r))
             [create_tweet text media_ids true; dump_state (fst r)] false
    else mkStep state new_last_ts (fst t)
                [create_tweet text media_ids false] false
  else mkStep state new_last_ts w [] false.

Definition cleanup (w : W) (temp_files : list str) : W :=
  fold_left (on_os_remove O) temp_files w.

Definition process_event (cl : Clients) (state : State) (new_last_ts : Z)
    (w : W) (e : Event) : Step :=
  if mem (event_id e) (synced_event_ids state)
  then mkStep state new_last_ts w [] false
  else if is_reply e
  then mkStep state new_last_ts w [] false
  else
    let cm := extract_media_urls (content e) in
    if negb (fromtimestamp_ok L (created_at e))
    then mkStep state new_last_ts w [] true
    else
      let m := fetch_media (twitter_client cl) w (snd cm) in
      let p := post_to_twitter cl state new_last_ts (md_world m) e
                               (fst cm) (md_media_ids m) in
      mkStep (sp_state p) (sp_new_last_ts p)
             (on_sleep O (cleanup (sp_world p) (md_temp_files m)))
             (md_calls m ++ sp_calls p
                ++ map os_remove (md_temp_files m) ++ [sleep])
             false.

(** ** The loop *)

(** What the loop did for one event: the state it found, the calls it made,
    the state it left. *)
Record Item := mkItem {
  it_event : Event;
  it_before : State;
  it_calls : list Call;
  it_after : State
}.

Record Loop := mkLoop {
  lp_state : State;
  lp_world : W;
  lp_items : list Item;
  lp_raised : bool
}.

Fixpoint process_events (cl : Clients) (state : State) (new_last_ts : Z)
    (w : W) (event_list : list Event) : Loop :=
  match event_list with
  | [] => mkLoop state w [] false
  | e :: rest =>
    let s := process_event cl state new_last_ts w e in
    let item := mkItem e state (sp_calls s) (sp_state s) in
    if sp_raised s
    then mkLoop (sp_state s) (sp_world s) [item] true
    else
      let l := process_events cl (sp_state s) (sp_new_last_ts s)
                              (sp_world s) rest in
      mkLoop (lp_state l) (lp_world l) (item :: lp_items l) (lp_raised l)
  end.

(** ** [run] *)

(** From [setup_nostr] to [fetch_events]: the events fetched, or [None] when
    an exception ended the run on the way. *)
Record Fetched := mkFetched {
  fe_world : W;
  fe_calls : list Call;
  fe_events : option (list Event)
}.

Definition connect_and_fetch (cfg : Config) (state : State) (w : W)
  : Fetched :=
  let n := setup_nostr w (NOSTR_RELAYS cfg) in
  if negb (pg_ok n) then mkFetched (pg_world n) (pg_calls n) None
  else
    let last_ts := last_synced_timestamp state in
    if negb (Timestamp_from_secs_ok L (last_ts + 1))
    then mkFetched (pg_world n) (pg_calls n) None
    else if negb (forallb (PublicKey_parse_ok L) (MONITORED_NPUBS cfg))
    then mkFetched (pg_world n) (pg_calls n) None
    else if negb (fromtimestamp_ok L last_ts)
    then mkFetched (pg_world n) (pg_calls n) None
    else
      let f := on_fetch_events O (pg_world n) (MONITORED_NPUBS cfg)
                               (last_ts + 1) in
      mkFetched (fst f)
                (pg_calls n
                   ++ [fetch_events (MONITORED_NPUBS cfg) (last_ts + 1)
                                    (snd f)])
                (snd f).

Record Run := mkRun {
  run_state : State;           (* self.state when the run ends *)
  run_world : W;
  run_calls : list Call;       (* the calls before the loop *)
  run_items : list Item;       (* the loop, event by event *)
  run_raised : bool            (* the run ended with an exception *)
}.

Definition run (cfg : Config) (state : State) (w : W) : Run :=
  let cl := setup_twitter cfg in
  match MONITORED_NPUBS cfg with
  | [] => mkRun state w [] [] false
  | _ :: _ =>
    let f := connect_and_fetch cfg state w in
    match fe_events f with
    | None => mkRun state (fe_world f) (fe_calls f) [] true
    | Some events =>
      let event_list := sort_by_created_at events in
      match event_list with
      | [] => mkRun state (fe_world f) (fe_calls f) [] false
      | _ :: _ =>
        let last_ts := last_synced_timestamp state in
        let l := process_events cl state last_ts (fe_world f) event_list in
        mkRun (lp_state l) (lp_world l) (fe_calls f) (lp_items l)
              (lp_raised l)
      end
    end
  end.

(** Every call of a run, in the order of issue. *)
Definition trace (r : Run) : list Call :=
  run_calls r ++ concat (map it_calls (run_items r)).

(** ** Reading a log *)

Definition is_media_upload (c : Call) : bool :=
  match c with media_upload _ _ => true | _ => false end.

Definition is_create_tweet (c : Call) : bool :=
  match c with create_tweet _ _ _ => true | _ => false end.

(** A publish call: a media upload or a tweet creation. *)
Definition is_publish (c : Call) : bool :=
  is_media_upload c || is_create_tweet c.

Definition tweet_ok (c : Call) : bool :=
  match c with create_tweet _ _ ok => ok | _ => false end.

Definition tweet_failed (c : Call) : bool :=
  match c with create_tweet _ _ ok => negb ok | _ => false end.

Definition is_dump_state (c : Call) : bool :=
  match c with dump_state _ => true | _ => false end.

(** A call made before the loop. *)
Definition before_loop (c : Call) : bool :=
  match c with
  | add_relay _ _ | connect _ | fetch_events _ _ _ => true
  | _ => false
  end.

(** A call on the network: everything but the file system and the clock. *)
Definition is_network (c : Call) : bool :=
  match c with
  | dump_state _ | os_remove _ | sleep => false
  | _ => true
  end.

(** The event was published and recorded in this iteration. *)
Definition recorded (it : Item) : bool := existsb tweet_ok (it_calls it).

(** The events for which a publish call was made, in the order of the
    calls. *)
Definition publish_attempts (items : list Item) : list Event :=
  map it_event (filter (fun it => existsb is_publish (it_calls it)) items).

(** The state most recently handed to the state file, if any. *)
Definition last_dumped (calls : list Call) : option State :=
  fold_left (fun acc c => match c with
                          | dump_state st => Some st
                          | _ => acc
                          end) calls None.

(** The state after a list of iterations that started in [state]. *)
Definition state_after (state : State) (items : list Item) : State :=
  fold_left (fun _ it => it_after it) items state.

(** The log of a loop that starts in [state] with [new_last_ts] equal to the
    state's timestamp: every entry is an iteration of the loop body on the
    state the previous entry left. *)
Inductive iterations (cl : Clients) : State -> list Item -> Prop :=
| iterations_nil : forall state, iterations cl state []
| iterations_cons : forall state w e items,
    let s := process_event cl state (last_synced_timestamp state) w e in
    iterations cl (sp_state s) items ->
    iterations cl state (mkItem e state (sp_calls s) (sp_state s) :: items).

End Sync.

(* ================================================================== *)
(** * The program, and more readers of a log *)
(* ================================================================== *)

(** [SyncTool()] followed by [run]: the state is loaded from the state file,
    and the run starts from it. *)
Definition main (W : Type) (O : Oracle W) (L : Lib) (env : Environ)
    (file : option State) (now : Z) (w : W) : Run W :=
  run O L (configuration env) (load_state file now) w.

(** The URLs handed to [download_media]. *)
Definition download_urls (calls : list Call) : list str :=
  flat_map (fun c => match c with
                     | download_media url _ => [url]
                     | _ => []
                     end) calls.

(** The temporary files [download_media] returned. *)
Definition downloaded (calls : list Call) : list str :=
  flat_map (fun c => match c with
                     | download_media _ (Some path) => [path]
                     | _ => []
                     end) calls.

(** The files handed to [os.remove]. *)
Definition removed (calls : list Call) : list str :=
  flat_map (fun c => match c with os_remove path => [path] | _ => [] end)
           calls.

(** The files handed to [media_upload]. *)
Definition upload_paths (calls : list Call) : list str :=
  flat_map (fun c => match c with media_upload path _ => [path] | _ => [] end)
           calls.

(** The media ids the uploads returned. *)
Definition obtained_media_ids (calls : list Call) : list Z :=
  flat_map (fun c => match c with
                     | media_upload _ (Some media_id) => [media_id]
                     | _ => []
                     end) calls.

(** A call of the end of an iteration: a removal or the sleep. *)
Definition is_cleanup (c : Call) : bool :=
  match c with os_remove _ | sleep => true | _ => false end.


(** The ids of the events a log recorded, in the order of recording. *)
Definition recorded_ids (items : list Item) : list str :=
  map (fun it => event_id (it_event it)) (filter recorded items).

(** The largest of [t] and the timestamps of the events a log recorded. *)
Definition newest (t : Z) (items : list Item) : Z :=
  fold_left (fun acc it => Z.max acc (created_at (it_event it)))
            (filter recorded items) t.

(* ================================================================== *)
(** * Sample worlds *)
(* ================================================================== *)

(** A library that never raises. *)
Definition lib_ok : Lib :=
  {| PublicKey_parse_ok := fun _ => true;
     Timestamp_from_secs_ok := fun _ => true;
     fromtimestamp_ok := fun _ => true |}.

(** A world without memory: the relays answer the fetch with [events], every
    download and upload succeeds, and a tweet is accepted when [accept] says
    so of its text. *)
Definition scripted (events : list Event) (accept : str -> bool)
  : Oracle unit :=
  {| on_add_relay := fun w _ => (w, true);
     on_connect := fun w => (w, true);
     on_fetch_events := fun w _ _ => (w, Some events);
     on_download_media := fun w _ => (w, Some (py "/tmp/media"));
     on_media_upload := fun w _ => (w, Some 1%Z);
     on_create_tweet := fun w text _ => (w, accept text);
     on_dump_state := fun w _ => w;
     on_os_remove := fun w _ => w;
     on_sleep := fun w => w |}.

(** A plain post. *)
Definition post (id : String.string) (t : Z) (text : String.string) : Event :=
  {| event_id := py id; created_at := t; event_tags := []; content := py text |}.
Arguments post id%_string_scope t%_Z_scope text%_string_scope.

Definition with_credentials (npubs relays : list str) : Config :=
  {| MONITORED_NPUBS := npubs; NOSTR_RELAYS := relays;
     TWITTER_API_KEY := Some (py "k"); TWITTER_API_SECRET := Some (py "s");
     TWITTER_ACCESS_TOKEN := Some (py "t");
     TWITTER_ACCESS_SECRET := Some (py "a") |}.

Definition without_credentials (npubs relays : list str) : Config :=
  {| MONITORED_NPUBS := npubs; NOSTR_RELAYS := relays;
     TWITTER_API_KEY := None; TWITTER_API_SECRET := None;
     TWITTER_ACCESS_TOKEN := None; TWITTER_ACCESS_SECRET := None |}.

(** An environment whose relay variable is set to a lone comma. *)
Definition env_comma_relays : Environ :=
  {| env_NOSTR_NPUBS := Some (py "npub1alice");
     env_NOSTR_RELAYS := Some (py ",");
     env_TWITTER_API_KEY := None; env_TWITTER_API_SECRET := None;
     env_TWITTER_ACCESS_TOKEN := None; env_TWITTER_ACCESS_SECRET := None |}.

(** Event ids: [n] as four hexadecimal digits, padded with zeros to the 64
    characters of an id. *)
Definition hex_digit (n : nat) : ascii :=
  nth (n mod 16) (py "0123456789abcdef") "0"%char.

Definition hex_id (n : nat) : str :=
  [hex_digit (n / 4096); hex_digit (n / 256); hex_digit (n / 16); hex_digit n]
    ++ repeat "0"%char 60.

Definition note (n : nat) (t : Z) : Event :=
  {| event_id := hex_id n; created_at := t; event_tags := [];
     content := py "gm" |}.

(** A batch of 1002 events of one and the same second: event 0, a thousand
    others, event 0 again. *)
Definition flood : list Event :=
  note 0 2000 :: map (fun n => note n 2000) (seq 1 1000) ++ [note 0 2000].

Definition state0 : State :=
  {| last_synced_timestamp := 1000; synced_event_ids := [] |}.

(** Pairwise distinct strings. *)
Fixpoint distinct (l : list str) : bool :=
  match l with
  | [] => true
  | x :: l' => negb (mem x l') && distinct l'
  end.

Definition alice : list str := [py "npub1alice"].

(** A world that refuses the tweet [bad] and accepts every other. *)
Definition picky (events : list Event) : Oracle unit :=
  scripted events (fun text => negb (str_eqb text (py "bad"))).

(** Two posts, the earlier of which is refused. *)
Definition refused_then_accepted : Run unit :=
  run (picky [post "a1" 2000 "bad"; post "b2" 3000 "good"]) lib_ok
      (with_credentials alice []) state0 tt.

(** A post whose id the state already holds. *)
Definition known_post : Run unit :=
  run (picky [post "a1" 2000 "good"]) lib_ok (with_credentials alice [])
      {| last_synced_timestamp := 1000; synced_event_ids := [py "a1"] |} tt.

(** Three posts that arrive newest first. *)
Definition out_of_order : Run unit :=
  run (picky [post "c3" 4000 "three"; post "a1" 2000 "one";
              post "b2" 3000 "two"]) lib_ok
      (with_credentials alice []) state0 tt.

(** The same post fetched twice: accepted, and refused. *)
Definition twice_accepted : Run unit :=
  run (picky [post "a1" 2000 "good"; post "a1" 2000 "good"]) lib_ok
      (with_credentials alice []) state0 tt.

Definition twice_refused : Run unit :=
  run (picky [post "a1" 2000 "bad"; post "a1" 2000 "bad"]) lib_ok
      (with_credentials alice []) state0 tt.

(** A post with a picture, no credentials. *)
Definition dry : Run unit :=
  run (picky [post "a1" 2000 "look http://a.b/pic.jpg"]) lib_ok
      (without_credentials alice []) state0 tt.

(** A world with its own answers for relays, downloads and uploads. *)
Definition staged (events : list Event) (accept : str -> bool)
    (relay_ok : str -> bool) (download : str -> option str)
    (upload : str -> option Z) : Oracle unit :=
  {| on_add_relay := fun w relay => (w, relay_ok relay);
     on_connect := fun w => (w, true);
     on_fetch_events := fun w _ _ => (w, Some events);
     on_download_media := fun w url => (w, download url);
     on_media_upload := fun w path => (w, upload path);
     on_create_tweet := fun w text _ => (w, accept text);
     on_dump_state := fun w _ => w;
     on_os_remove := fun w _ => w;
     on_sleep := fun w => w |}.


(** A library that parses the identities that begin with [npub1], takes the
    timestamps of 64 bits and converts those before the year 10000. *)
Definition lib_strict : Lib :=
  {| PublicKey_parse_ok := fun s => startswith s (py "npub1");
     Timestamp_from_secs_ok := fun t => ((0 <=? t) && (t <? 2 ^ 64))%Z;
     fromtimestamp_ok := fun t => (t <? 253402300800)%Z |}.

(** A post of 300 characters followed by two pictures. *)
Definition long_post : Event :=
  {| event_id := py "d4"; created_at := 2000;
     event_tags := [[py "t"; py "photo"]];
     content := repeat "x"%char 300
                  ++ py " http://a.b/one.jpg http://a.b/two.png" |}.

(** Every download succeeds; the upload of a [.png] file fails. *)
Definition media_world : Oracle unit :=
  staged [long_post] (fun _ => true) (fun _ => true)
         (fun url => Some (py "/tmp/" ++ skipn (length url - 7) url))
         (fun path => if endswith path (py ".png") then None else Some 7%Z).

Definition media_run : Run unit :=
  run media_world lib_ok (with_credentials alice []) state0 tt.

(** A reply: a post with an [e] tag. *)
Definition reply_post : Event :=
  {| event_id := py "e5"; created_at := 2000;
     event_tags := [[py "p"; py "bob"]; [py "e"; py "a1"; py "wss://r"]];
     content := py "me too" |}.

Definition reply_run : Run unit :=
  run (picky [reply_post]) lib_ok (with_credentials alice []) state0 tt.

(** A post of the year 11476 behind an ordinary one. *)
Definition far_future : Run unit :=
  run (picky [post "z9" 300000000000 "late"; post "a1" 2000 "good";
              post "zz" 300000000001 "later"])
      lib_strict (with_credentials [py "npub1alice"] []) state0 tt.

(** The run after [refused_then_accepted], on the same two posts. *)
Definition second_run : Run unit :=
  run (picky [post "a1" 2000 "bad"; post "b2" 3000 "good"]) lib_ok
      (with_credentials alice []) (run_state refused_then_accepted) tt.

(** Credentials of which the first is the empty string. *)
Definition empty_key (npubs relays : list str) : Config :=
  {| MONITORED_NPUBS := npubs; NOSTR_RELAYS := relays;
     TWITTER_API_KEY := Some []; TWITTER_API_SECRET := Some (py "s");
     TWITTER_ACCESS_TOKEN := Some (py "t");
     TWITTER_ACCESS_SECRET := Some (py "a") |}.

(** An environment with two identities and no relay variable. *)
Definition env_two_npubs : Environ :=
  {| env_NOSTR_NPUBS := Some (py " npub1alice , npub1bob,");
     env_NOSTR_RELAYS := None;
     env_TWITTER_API_KEY := None; env_TWITTER_API_SECRET := None;
     env_TWITTER_ACCESS_TOKEN := None; env_TWITTER_ACCESS_SECRET := None |}.

(** An environment with nothing set. *)
Definition env_unset : Environ :=
  {| env_NOSTR_NPUBS := None; env_NOSTR_RELAYS := None;
     env_TWITTER_API_KEY := None; env_TWITTER_API_SECRET := None;
     env_TWITTER_ACCESS_TOKEN := None; env_TWITTER_ACCESS_SECRET := None |}.

(** The run on [flood], with credentials, every tweet accepted. *)
Definition flood_run : Run unit :=
  run (scripted flood (fun _ => true)) lib_ok
      (with_credentials [py "npub1alice"] DEFAULT_RELAYS)
      {| last_synced_timestamp := 1000; synced_event_ids := [] |} tt.

Definition no_item : Item :=
  {| it_event := note 0 0; it_before := {| last_synced_timestamp := 0;
                                           synced_event_ids := [] |};
     it_calls := []; it_after := {| last_synced_timestamp := 0;
                                    synced_event_ids := [] |} |}.


(* ================================================================== *)
(** * Strings: basic facts *)
(* ================================================================== *)

Unset Implicit Arguments.

Lemma str_eqb_eq (a b : str) : str_eqb a b = true <-> a = b.
Proof.
  revert b; induction a as [|x a IH]; intros [|y b]; simpl;
    try (split; [discriminate | congruence]); try tauto.
  rewrite andb_true_iff, Ascii.eqb_eq, IH.
  split; [intros [-> ->]; reflexivity | intros H; inversion H; auto].
Qed.

Lemma mem_In (x : str) (l : list str) : mem x l = true <-> In x l.
Proof.
  unfold mem. rewrite existsb_exists. split.
  - intros [y [Hy E]]. apply str_eqb_eq in E. subst. exact Hy.
  - intros H. exists x. split; [exact H | apply str_eqb_eq; reflexivity].
Qed.

Lemma mem_false_In (x : str) (l : list str) : mem x l = false <-> ~ In x l.
Proof.
  rewrite <- mem_In. destruct (mem x l); split; congruence.
Qed.

Lemma startswith_spec (p : str) : forall s,
  startswith s p = true <-> exists r, s = p ++ r.
Proof.
  induction p as [|x p IH]; intros s; simpl.
  - split; [exists s; reflexivity | reflexivity].
  - destruct s as [|y s].
    + split; [discriminate | intros [r H]; discriminate H].
    + rewrite andb_true_iff, Ascii.eqb_eq, IH. split.
      * intros [-> [r ->]]. exists r. reflexivity.
      * intros [r H]. inversion H; subst. eauto.
Qed.

Lemma endswith_spec (s p : str) :
  endswith s p = true <-> exists stem, s = stem ++ p.
Proof.
  unfold endswith. rewrite startswith_spec. split.
  - intros [r H]. exists (rev r).
    rewrite <- (rev_involutive s), H, rev_app_distr, rev_involutive.
    reflexivity.
  - intros [stem ->]. exists (rev stem). apply rev_app_distr.
Qed.

Lemma contains_spec (p : str) : forall s,
  contains s p = true <-> exists a b, s = a ++ p ++ b.
Proof.
  induction s as [|c s IH]; simpl.
  - rewrite orb_false_r, startswith_spec. split.
    + intros [r H]. exists [], r. exact H.
    + intros (a & b & H). destruct a; [exists b; exact H | discriminate].
  - rewrite orb_true_iff, IH, startswith_spec. split.
    + intros [[r H]|(a & b & H)].
      * exists [], r. exact H.
      * exists (c :: a), b. simpl. f_equal. exact H.
    + intros (a & b & H). destruct a as [|x a].
      * left. exists b. exact H.
      * right. inversion H; subst. exists a, b. reflexivity.
Qed.

Lemma takewhile_dropwhile f (s : str) : takewhile f s ++ dropwhile f s = s.
Proof.
  induction s as [|c s IH]; simpl; [reflexivity|].
  destruct (f c); simpl; [f_equal; exact IH | reflexivity].
Qed.

Lemma takewhile_all f (s : str) : forallb f (takewhile f s) = true.
Proof.
  induction s as [|c s IH]; simpl; [reflexivity|].
  destruct (f c) eqn:E; simpl; [rewrite E; exact IH | reflexivity].
Qed.

Lemma takewhile_app f (a b : str) :
  forallb f a = true -> takewhile f (a ++ b) = a ++ takewhile f b.
Proof.
  induction a as [|c a IH]; simpl; [reflexivity|].
  intros H. apply andb_true_iff in H. destruct H as [-> H].
  f_equal. exact (IH H).
Qed.

Lemma dropwhile_head f (s : str) :
  match dropwhile f s with [] => True | c :: _ => f c = false end.
Proof.
  induction s as [|c s IH]; simpl; [exact I|].
  destruct (f c) eqn:E; [exact IH | exact E].
Qed.

Lemma dropwhile_suffix f (s : str) : exists a, s = a ++ dropwhile f s.
Proof.
  exists (takewhile f s). symmetry. apply takewhile_dropwhile.
Qed.

(** What [strip] returns lies inside its argument. *)
Lemma strip_inside (s : str) : exists a b, s = a ++ strip s ++ b.
Proof.
  unfold strip.
  destruct (dropwhile_suffix isspace s) as [a Ha].
  destruct (dropwhile_suffix isspace (rev (dropwhile isspace s))) as [b Hb].
  exists a, (rev b). rewrite <- rev_app_distr, <- Hb, rev_involutive.
  exact Ha.
Qed.

Lemma startswith_long (p : str) : forall s t,
  (length p <= length s)%nat -> startswith (s ++ t) p = startswith s p.
Proof.
  induction p as [|x p IH]; intros s t H; simpl; [reflexivity|].
  destruct s as [|y s]; simpl in *; [lia|].
  rewrite (IH s t) by lia. reflexivity.
Qed.

Lemma endswith_long_suffix (a b p : str) :
  (length p <= length b)%nat -> endswith (a ++ b) p = endswith b p.
Proof.
  intros H. unfold endswith. rewrite rev_app_distr.
  apply startswith_long. rewrite !length_rev. exact H.
Qed.

Lemma existsb_ext_in (A : Type) (f g : A -> bool) (l : list A) :
  (forall x, In x l -> f x = g x) -> existsb f l = existsb g l.
Proof.
  induction l as [|x l IH]; intros H; simpl; [reflexivity|].
  rewrite (H x (or_introl eq_refl)), IH; [reflexivity|].
  intros y Hy. apply H. right. exact Hy.
Qed.

Lemma distinct_NoDup (l : list str) : distinct l = true -> NoDup l.
Proof.
  induction l as [|x l IH]; simpl; intros H; [constructor|].
  apply andb_true_iff in H. destruct H as [Hx Hl].
  constructor; [|exact (IH Hl)].
  apply mem_false_In. apply negb_true_iff. exact Hx.
Qed.

(** ** The URL pattern *)

Lemma scheme_here_spec (scheme s : str) :
  scheme_here scheme s = true
  <-> exists c r, s = scheme ++ c :: r /\ isspace c = false.
Proof.
  unfold scheme_here. rewrite andb_true_iff, startswith_spec. split.
  - intros [[r ->] H].
    rewrite skipn_app, skipn_all, Nat.sub_diag in H. simpl in H.
    destruct r as [|c r]; [discriminate|].
    exists c, r. split; [reflexivity | apply negb_true_iff; exact H].
  - intros (c & r & -> & Hc). split; [eauto|].
    rewrite skipn_app, skipn_all, Nat.sub_diag. simpl. rewrite Hc.
    reflexivity.
Qed.

Lemma url_here_spec (s : str) :
  url_here s = true
  <-> exists scheme c r,
      (scheme = py "https://" \/ scheme = py "http://")
      /\ s = scheme ++ c :: r /\ isspace c = false.
Proof.
  unfold url_here. rewrite orb_true_iff, !scheme_here_spec. split.
  - intros [(c & r & H)|(c & r & H)]; eauto 7.
  - intros (scheme & c & r & [->| ->] & H); eauto.
Qed.

Lemma url_here_app (s x : str) :
  url_here s = true -> url_here (s ++ x) = true.
Proof.
  rewrite !url_here_spec. intros (scheme & c & r & Hs & -> & Hc).
  exists scheme, c, (r ++ x). rewrite <- app_assoc. auto.
Qed.

Lemma url_here_head (c : ascii) (s : str) :
  url_here (c :: s) = true -> isspace c = false.
Proof.
  rewrite url_here_spec. intros (scheme & c' & r & [->| ->] & H & _);
    inversion H; reflexivity.
Qed.

Lemma url_here_takewhile (s : str) :
  url_here s = true -> url_here (takewhile nonspace s) = true.
Proof.
  rewrite !url_here_spec. intros (scheme & c & r & Hs & -> & Hc).
  exists scheme, c, (takewhile nonspace r). split; [exact Hs|].
  split; [|exact Hc].
  rewrite takewhile_app by (destruct Hs as [->| ->]; reflexivity).
  simpl. unfold nonspace at 1. rewrite Hc. reflexivity.
Qed.

(** A match in progress runs to the next whitespace character. *)
Lemma findall_scan_token (s : str) : forall t,
  findall_scan s (Some t)
  = (rev t ++ takewhile nonspace s)
      :: findall_scan (dropwhile nonspace s) None.
Proof.
  induction s as [|c s IH]; intros t; simpl.
  - rewrite app_nil_r. reflexivity.
  - unfold nonspace at 1 3. destruct (isspace c) eqn:E; simpl.
    + rewrite app_nil_r.
      destruct (url_here (c :: s)) eqn:U; [|reflexivity].
      apply url_here_head in U. congruence.
    + rewrite IH. simpl. rewrite <- app_assoc. reflexivity.
Qed.

(** The scan at a position: a match takes the run of non-whitespace
    characters that starts there. *)
Lemma findall_urls_cons (c : ascii) (s : str) :
  findall_urls (c :: s)
  = if url_here (c :: s)
    then takewhile nonspace (c :: s)
           :: findall_urls (dropwhile nonspace (c :: s))
    else findall_urls s.
Proof.
  unfold findall_urls. simpl.
  destruct (url_here (c :: s)) eqn:U; [|reflexivity].
  rewrite findall_scan_token. apply url_here_head in U.
  assert (N : nonspace c = true) by (unfold nonspace; rewrite U; reflexivity).
  simpl. rewrite N. reflexivity.
Qed.

Lemma findall_urls_nil (s : str) :
  findall_urls s = [] -> forall a b, s = a ++ b -> url_here b = false.
Proof.
  induction s as [|c s IH]; intros H a b E.
  - destruct a, b; try discriminate. reflexivity.
  - rewrite findall_urls_cons in H.
    destruct (url_here (c :: s)) eqn:U; [discriminate|].
    destruct a as [|x a]; simpl in E; [subst b; exact U|].
    inversion E; subst. apply (IH H a b). reflexivity.
Qed.

(** A text with a single URL token: the token, what precedes it and what
    follows it. *)
Lemma findall_urls_single (s u : str) :
  findall_urls s = [u] ->
  exists pre post,
    s = pre ++ u ++ post
    /\ (forall a b, pre = a ++ b -> b <> [] ->
                    url_here (b ++ u ++ post) = false)
    /\ url_here u = true
    /\ forallb nonspace u = true
    /\ match post with [] => True | c :: _ => isspace c = true end
    /\ findall_urls post = [].
Proof.
  induction s as [|c s IH]; intros H; [discriminate|].
  rewrite findall_urls_cons in H.
  destruct (url_here (c :: s)) eqn:U.
  - pose proof (takewhile_dropwhile nonspace (c :: s)) as Htd.
    pose proof (url_here_takewhile (c :: s) U) as Hut.
    pose proof (takewhile_all nonspace (c :: s)) as Hall.
    pose proof (dropwhile_head nonspace (c :: s)) as Hd.
    remember (takewhile nonspace (c :: s)) as tk eqn:Etk.
    remember (dropwhile nonspace (c :: s)) as dp eqn:Edp.
    clear Etk Edp. inversion H as [[Hu Hpost]]. clear H. subst tk.
    exists [], dp. simpl app.
    split; [symmetry; exact Htd|].
    split; [intros a b E; destruct a, b; try discriminate; congruence|].
    split; [exact Hut|]. split; [exact Hall|].
    split; [|first [exact Hpost | reflexivity]].
    destruct dp; [exact I|]. apply negb_false_iff. exact Hd.
  - destruct (IH H) as (pre & post & -> & Hpre & Hu & Hn & Hp & Hf).
    exists (c :: pre), post.
    split; [reflexivity|]. split; [|auto].
    intros a b E Hb. destruct a as [|x a]; simpl in E.
    + subst b. exact U.
    + inversion E; subst. apply (Hpre a b); auto.
Qed.

(** ** Deleting the occurrences of a string *)

Lemma delete_from_skip (old x rest : str) :
  delete_from old (x ++ rest) (length x) = delete_from old rest 0.
Proof.
  induction x as [|c x IH]; simpl; [destruct rest; reflexivity | exact IH].
Qed.

Lemma delete_from_keep (old rest : str) : forall s,
  (forall a b, s = a ++ b -> b <> [] -> startswith (b ++ rest) old = false) ->
  delete_from old (s ++ rest) 0 = s ++ delete_from old rest 0.
Proof.
  induction s as [|c s IH]; intros H; [reflexivity|].
  simpl.
  change (c :: s ++ rest) with ((c :: s) ++ rest).
  rewrite (H [] (c :: s) eq_refl) by discriminate.
  f_equal. apply IH. intros a b E Hb. apply (H (c :: a) b); [|exact Hb].
  simpl. f_equal. exact E.
Qed.

Lemma delete_from_match (old rest : str) :
  old <> [] -> delete_from old (old ++ rest) 0 = delete_from old rest 0.
Proof.
  destruct old as [|c old]; [congruence|]. intros _.
  assert (Hs : startswith ((c :: old) ++ rest) (c :: old) = true)
    by (apply startswith_spec; eauto).
  simpl app. cbn [delete_from].
  change (c :: old ++ rest) with ((c :: old) ++ rest). rewrite Hs.
  replace (length (c :: old) - 1)%nat with (length old) by (simpl; lia).
  apply delete_from_skip.
Qed.

(** ** The media test *)

Lemma is_media_spec (url : str) :
  is_media url = true
  <-> exists ext stem, In ext MEDIA_EXTENSIONS /\ lower url = stem ++ ext.
Proof.
  unfold is_media. rewrite existsb_exists. split.
  - intros [ext [Hin He]]. apply endswith_spec in He.
    destruct He as [stem He]. exists ext, stem. auto.
  - intros (ext & stem & Hin & He). exists ext. split; [exact Hin|].
    apply endswith_spec. exists stem. exact He.
Qed.

(** The media list is the list of the URL tokens that pass the media test,
    in the order of the text. *)
Lemma extract_media_urls_list (content : str) :
  snd (extract_media_urls content) = filter is_media (findall_urls content).
Proof.
  unfold extract_media_urls.
  assert (H : forall tokens clean urls,
             snd (fold_left extract_step tokens (clean, urls))
             = urls ++ filter is_media tokens).
  { induction tokens as [|url tokens IH]; intros clean urls; simpl.
    - rewrite app_nil_r. reflexivity.
    - destruct (is_media url); rewrite IH; [|reflexivity].
      rewrite <- app_assoc. reflexivity. }
  rewrite H. reflexivity.
Qed.

(** C9, as amended.  A URL token is classified as media exactly when the whole
    token, lower-cased, ends in one of the six extensions; the media list of
    a text is the list of its tokens so classified.  For a token without
    query string or fragment this is the test on the path; a query string or
    fragment is part of the token, and one of five characters or more decides
    the test by itself. *)
Theorem media_test_is_on_whole_token (url : str) :
  (is_media url = true
   <-> exists ext stem, In ext MEDIA_EXTENSIONS /\ lower url = stem ++ ext)
  /\ (url_path url = url -> is_media url = spec_is_media url)
  /\ (forall query,
         (5 <= length query)%nat ->
         is_media (url ++ query) = is_media query)
  /\ (forall content,
         snd (extract_media_urls content)
         = filter is_media (findall_urls content)).
Proof.
  split; [apply is_media_spec|]. split; [|split].
  - intros H. unfold spec_is_media. rewrite H. reflexivity.
  - intros query H. unfold is_media, lower. rewrite map_app.
    apply existsb_ext_in. intros ext Hin. apply endswith_long_suffix.
    rewrite length_map.
    simpl in Hin.
    repeat (destruct Hin as [<-|Hin]; [simpl; lia|]). destruct Hin.
  - apply extract_media_urls_list.
Qed.

(** ** What [extract_media_urls] removes and what it keeps *)

Lemma jpg_is_media (u : str) :
  endswith u (py ".jpg") = true -> is_media u = true.
Proof.
  intros H. apply endswith_spec in H. destruct H as [stem ->].
  apply is_media_spec. exists (py ".jpg"), (lower stem).
  split; [left; reflexivity|]. unfold lower. rewrite map_app. reflexivity.
Qed.

Lemma html_is_not_media (u : str) :
  endswith u (py ".html") = true -> is_media u = false.
Proof.
  intros H. apply endswith_spec in H. destruct H as [stem ->].
  unfold is_media, lower. rewrite map_app. simpl existsb.
  rewrite !endswith_long_suffix by (simpl; lia). reflexivity.
Qed.

Lemma extract_without_media (tokens : list str) : forall clean urls,
  Forall (fun u => is_media u = false) tokens ->
  fold_left extract_step tokens (clean, urls) = (clean, urls).
Proof.
  induction tokens as [|u tokens IH]; intros clean urls H; [reflexivity|].
  inversion H as [|? ? Hu Ht]; subst. simpl. rewrite Hu. apply IH, Ht.
Qed.

(** Deleting the single URL token of a text leaves what precedes it followed
    by what follows it. *)
Lemma replace_single_token (pre u post : str) :
  (forall a b, pre = a ++ b -> b <> [] -> url_here (b ++ u ++ post) = false) ->
  url_here u = true ->
  findall_urls post = [] ->
  replace_with_empty (pre ++ u ++ post) u = pre ++ post.
Proof.
  intros Hpre Hu Hpost.
  assert (Hne : u <> []) by (intros ->; discriminate Hu).
  unfold replace_with_empty. destruct u as [|c u]; [congruence|].
  rewrite delete_from_keep.
  - rewrite delete_from_match by exact Hne.
    rewrite <- (app_nil_r post) at 1. rewrite delete_from_keep.
    + simpl. rewrite app_nil_r. reflexivity.
    + intros a b E Hb.
      destruct (startswith (b ++ []) (c :: u)) eqn:S; [|reflexivity].
      apply startswith_spec in S. destruct S as [r S].
      rewrite app_nil_r in S.
      rewrite <- (findall_urls_nil post Hpost a b E), S.
      symmetry. apply url_here_app, Hu.
  - intros a b E Hb.
    destruct (startswith (b ++ (c :: u) ++ post) (c :: u)) eqn:S;
      [|reflexivity].
    apply startswith_spec in S. destruct S as [r S].
    rewrite <- (Hpre a b E Hb), S. symmetry. apply url_here_app, Hu.
Qed.

Lemma forallb_app_inv (f : ascii -> bool) (a b : str) :
  forallb f (a ++ b) = true -> forallb f a = true /\ forallb f b = true.
Proof. rewrite forallb_app. apply andb_true_iff. Qed.

(** Once the single URL token of a text is deleted, the token occurs nowhere
    in what is left. *)
Lemma single_token_gone (pre u post : str) :
  (forall a b, pre = a ++ b -> b <> [] -> url_here (b ++ u ++ post) = false) ->
  url_here u = true ->
  forallb nonspace u = true ->
  match post with [] => True | c :: _ => isspace c = true end ->
  findall_urls post = [] ->
  forall a b, pre ++ post <> a ++ u ++ b.
Proof.
  intros Hpre Hu Hns Hsp Hpost a b E.
  assert (Hne : u <> []) by (intros ->; discriminate Hu).
  apply app_eq_app in E. destruct E as [l [[E1 E2]|[E1 E2]]].
  - (* the occurrence starts in [pre] *)
    symmetry in E2. apply app_eq_app in E2.
    destruct E2 as [l' [[E3 E4]|[E3 E4]]].
    + (* it ends in [pre] as well *)
      assert (F : url_here ((u ++ l') ++ u ++ post) = false).
      { apply (Hpre a (u ++ l')); [congruence|].
        destruct u; [congruence | discriminate]. }
      rewrite <- app_assoc in F.
      rewrite (url_here_app u _ Hu) in F. discriminate.
    + (* it runs into [post] *)
      destruct l' as [|c l'].
      * rewrite app_nil_r in E3. subst l.
        assert (F : url_here (u ++ u ++ post) = false).
        { apply (Hpre a u); [exact E1 | exact Hne]. }
        rewrite (url_here_app u _ Hu) in F. discriminate.
      * subst u post. apply forallb_app_inv in Hns.
        destruct Hns as [_ Hns]. simpl in Hns, Hsp.
        unfold nonspace in Hns. rewrite Hsp in Hns. discriminate.
  - (* the occurrence lies in [post] *)
    pose proof (findall_urls_nil post Hpost l (u ++ b) E2) as F.
    rewrite (url_here_app u b Hu) in F. discriminate.
Qed.

(** ** Texts laid out around their URL tokens *)

Lemma after_token_takewhile (x y : str) :
  after_token y -> takewhile nonspace (x ++ y) = takewhile nonspace x.
Proof.
  intros Hy. induction x as [|c x IH]; simpl.
  - destruct y as [|d y]; [reflexivity|]. simpl in *.
    unfold nonspace. rewrite Hy. reflexivity.
  - destruct (nonspace c); [f_equal; exact IH | reflexivity].
Qed.

(** Whether the pattern matches at a position is settled before the next
    whitespace character. *)
Lemma url_here_cut (x y : str) :
  after_token y -> url_here (x ++ y) = url_here x.
Proof.
  intros Hy. destruct (url_here x) eqn:U.
  - apply url_here_app, U.
  - destruct (url_here (x ++ y)) eqn:V; [|reflexivity].
    apply url_here_takewhile in V.
    rewrite after_token_takewhile in V by exact Hy.
    rewrite <- (takewhile_dropwhile nonspace x) in U.
    rewrite (url_here_app _ _ V) in U. discriminate.
Qed.

Lemma url_here_shorter (x y : str) :
  url_here (x ++ y) = false -> url_here x = false.
Proof.
  intros H. destruct (url_here x) eqn:U; [|reflexivity].
  rewrite (url_here_app x y U) in H. discriminate.
Qed.

Lemma dropwhile_app_all f (a b : str) :
  forallb f a = true -> dropwhile f (a ++ b) = dropwhile f b.
Proof.
  induction a as [|c a IH]; simpl; [reflexivity|].
  intros H. apply andb_true_iff in H. destruct H as [-> H]. exact (IH H).
Qed.

Lemma dropwhile_le f (s : str) : (length (dropwhile f s) <= length s)%nat.
Proof.
  induction s as [|c s IH]; simpl; [lia|]. destruct (f c); simpl; lia.
Qed.

Lemma body_after_token (h : str) (rest : list (str * str)) :
  after_token h -> (rest <> [] -> h <> []) ->
  after_token (h ++ body_text rest).
Proof.
  intros Hh Hne. destruct h as [|c h]; [|exact Hh].
  destruct rest as [|p rest]; [exact I|].
  exfalso. apply Hne; [discriminate | reflexivity].
Qed.

(** In a well-formed text the pattern matches nowhere in a gap. *)
Lemma clean_gap_in_text (g : str) (body : list (str * str)) :
  wf_body body -> clean_gap g (first_token body) ->
  forall a b, g = a ++ b -> b <> [] -> url_here (b ++ body_text body) = false.
Proof.
  intros Hwf Hg a b E Hb. destruct body as [|[t h] rest].
  - exact (Hg a b E Hb).
  - destruct Hwf as (Ht & Hn & Hh & Hne & Hc & Hr).
    cbn [body_text]. rewrite app_assoc, url_here_cut.
    + exact (Hg a b E Hb).
    + apply body_after_token; assumption.
Qed.

Lemma findall_urls_gap (g rest : str) :
  (forall a b, g = a ++ b -> b <> [] -> url_here (b ++ rest) = false) ->
  findall_urls (g ++ rest) = findall_urls rest.
Proof.
  induction g as [|c g IH]; intros H; [reflexivity|].
  simpl app. rewrite findall_urls_cons.
  change (c :: g ++ rest) with ((c :: g) ++ rest).
  rewrite (H [] (c :: g) eq_refl) by discriminate.
  apply IH. intros a b E Hb. apply (H (c :: a) b); [|exact Hb].
  simpl. f_equal. exact E.
Qed.

Lemma findall_urls_token (t rest : str) :
  url_here t = true -> forallb nonspace t = true -> after_token rest ->
  findall_urls (t ++ rest) = t :: findall_urls rest.
Proof.
  intros Ht Hn Hr. destruct t as [|c t]; [discriminate|].
  simpl app. rewrite findall_urls_cons.
  change (c :: t ++ rest) with ((c :: t) ++ rest).
  rewrite (url_here_app _ rest Ht).
  rewrite takewhile_app by exact Hn.
  rewrite dropwhile_app_all by exact Hn.
  assert (H : takewhile nonspace rest = [] /\ dropwhile nonspace rest = rest).
  { destruct rest as [|d rest]; simpl in *; [auto|].
    unfold nonspace. rewrite Hr. auto. }
  destruct H as [H1 H2]. rewrite H1, H2, app_nil_r. reflexivity.
Qed.

(** The URL tokens of a well-formed text are the tokens of its layout. *)
Lemma findall_urls_body (body : list (str * str)) :
  wf_body body -> findall_urls (body_text body) = map fst body.
Proof.
  induction body as [|[t h] rest IH]; intros Hwf; [reflexivity|].
  destruct Hwf as (Ht & Hn & Hh & Hne & Hc & Hr).
  cbn [body_text map fst].
  rewrite findall_urls_token;
    [| exact Ht | exact Hn | apply body_after_token; assumption].
  f_equal. rewrite findall_urls_gap; [apply IH, Hr|].
  apply clean_gap_in_text; assumption.
Qed.

(** Every text is laid out around the tokens that [re.findall] returns. *)
Lemma findall_urls_layout (s : str) :
  exists g body,
    s = g ++ body_text body
    /\ clean_gap g (first_token body)
    /\ wf_body body
    /\ findall_urls s = map fst body.
Proof.
  remember (length s) as n eqn:En.
  assert (Hn : (length s <= n)%nat) by lia. clear En.
  revert s Hn. induction n as [|n IH]; intros s Hn.
  - destruct s; [|simpl in Hn; lia].
    exists [], []. repeat split.
    intros a b E Hb. destruct a, b; try discriminate. congruence.
  - destruct s as [|c s].
    + exists [], []. repeat split.
      intros a b E Hb. destruct a, b; try discriminate. congruence.
    + rewrite findall_urls_cons. destruct (url_here (c :: s)) eqn:U.
      * pose proof (takewhile_dropwhile nonspace (c :: s)) as Htd.
        pose proof (url_here_takewhile (c :: s) U) as Hut.
        pose proof (takewhile_all nonspace (c :: s)) as Hall.
        pose proof (dropwhile_head nonspace (c :: s)) as Hd.
        assert (Hlen : (length (dropwhile nonspace (c :: s)) <= n)%nat).
        { apply url_here_head in U. simpl. unfold nonspace. rewrite U. simpl.
          pose proof (dropwhile_le (fun c => negb (isspace c)) s).
          simpl in Hn. lia. }
        remember (takewhile nonspace (c :: s)) as tk eqn:Etk.
        remember (dropwhile nonspace (c :: s)) as dp eqn:Edp.
        clear Etk Edp.
        destruct (IH dp Hlen) as (g & body & E & Hg & Hwf & Hf).
        exists [], ((tk, g) :: body). cbn [body_text first_token map fst].
        split; [rewrite <- E; symmetry; exact Htd|].
        split; [intros a b Eab Hb; destruct a, b; try discriminate;
                congruence|].
        split; [|rewrite Hf; reflexivity].
        cbn [wf_body]. split; [exact Hut|]. split; [exact Hall|].
        split; [|split; [|split; assumption]].
        -- destruct g as [|d g]; [exact I|]. subst dp. simpl in Hd.
           simpl. apply negb_false_iff. exact Hd.
        -- intros Hb ->. destruct body as [|[t h] rest]; [congruence|].
           destruct Hwf as (Ht & _). destruct t as [|d t]; [discriminate|].
           apply url_here_head in Ht. subst dp. simpl in Hd.
           unfold nonspace in Hd. rewrite Ht in Hd. discriminate.
      * assert (Hlen : (length s <= n)%nat) by (simpl in Hn; lia).
        destruct (IH s Hlen) as (g & body & E & Hg & Hwf & Hf).
        exists (c :: g), body. split; [simpl; f_equal; exact E|].
        split; [|split; assumption].
        intros a b Eab Hb. destruct a as [|x a]; simpl in Eab.
        -- subst b.
           assert (Hm : exists more, body_text body = first_token body ++ more).
           { destruct body as [|[t h] rest]; simpl; eauto. }
           destruct Hm as [more Hm]. rewrite E, Hm in U.
           apply (url_here_shorter _ more).
           simpl. rewrite <- app_assoc. exact U.
        -- inversion Eab; subst. apply (Hg a b); auto.
Qed.

Lemma wf_body_tokens (body : list (str * str)) (t : str) :
  wf_body body -> In t (map fst body) ->
  url_here t = true /\ forallb nonspace t = true.
Proof.
  induction body as [|[t' h] rest IH]; intros Hwf Hin; [destruct Hin|].
  destruct Hwf as (Ht & Hn & _ & _ & _ & Hr).
  destruct Hin as [<-|Hin]; [auto | exact (IH Hr Hin)].
Qed.

Lemma findall_urls_shape (s t : str) :
  In t (findall_urls s) -> url_here t = true /\ forallb nonspace t = true.
Proof.
  destruct (findall_urls_layout s) as (g & body & _ & _ & Hwf & ->).
  apply wf_body_tokens, Hwf.
Qed.

Lemma body_text_token (body : list (str * str)) (t : str) :
  In t (map fst body) -> exists a b, body_text body = a ++ t ++ b.
Proof.
  induction body as [|[t' h] rest IH]; intros Hin; [destruct Hin|].
  destruct Hin as [<-|Hin].
  - exists [], (h ++ body_text rest). reflexivity.
  - destruct (IH Hin) as (a & b & E). exists (t' ++ h ++ a), b.
    cbn [body_text]. rewrite E, <- !app_assoc. reflexivity.
Qed.

(** A token of a text occurs in it. *)
Lemma findall_urls_occurs (s t : str) :
  In t (findall_urls s) -> contains s t = true.
Proof.
  destruct (findall_urls_layout s) as (g & body & -> & _ & _ & ->).
  intros Hin. destruct (body_text_token body t Hin) as (a & b & E).
  apply contains_spec. exists (g ++ a), b.
  rewrite E, <- app_assoc. reflexivity.
Qed.

(** A string without whitespace that starts before a whitespace character
    ends before it. *)
Lemma prefix_before_space (m y u r : str) :
  forallb nonspace u = true -> after_token y ->
  m ++ y = u ++ r -> exists k, m = u ++ k.
Proof.
  intros Hu Hy E. apply app_eq_app in E.
  destruct E as [l [[E1 E2]|[E1 E2]]].
  - exists l. exact E1.
  - destruct l as [|c l].
    + exists []. rewrite app_nil_r in E1. rewrite E1, app_nil_r. reflexivity.
    + exfalso. subst u y. apply forallb_app_inv in Hu. destruct Hu as [_ Hu].
      simpl in Hu, Hy. unfold nonspace in Hu. rewrite Hy in Hu. discriminate.
Qed.

Lemma no_match_in_gap (g rest u : str) :
  url_here u = true ->
  (forall a b, g = a ++ b -> b <> [] -> url_here (b ++ rest) = false) ->
  forall a b, g = a ++ b -> b <> [] -> startswith (b ++ rest) u = false.
Proof.
  intros Hu H a b E Hb.
  destruct (startswith (b ++ rest) u) eqn:S; [|reflexivity].
  apply startswith_spec in S. destruct S as [r S].
  rewrite <- (H a b E Hb), S. symmetry. apply url_here_app, Hu.
Qed.

Lemma delete_from_after_token (u y : str) :
  url_here u = true -> after_token y -> after_token (delete_from u y 0).
Proof.
  intros Hu Hy. destruct y as [|d y]; [exact I|].
  destruct u as [|c u]; [discriminate|].
  apply url_here_head in Hu. simpl in Hy. cbn [delete_from startswith].
  destruct (Ascii.eqb c d) eqn:E.
  - apply Ascii.eqb_eq in E. congruence.
  - simpl. exact Hy.
Qed.

(** Two neighbouring gaps, once the token between them is deleted, make one
    gap. *)
Lemma clean_gap_merge (g t h : str) (rest : list (str * str)) :
  clean_gap g t -> after_token h -> (rest <> [] -> h <> []) ->
  clean_gap h (first_token rest) ->
  clean_gap (g ++ h) (first_token rest).
Proof.
  intros Hg Hh Hne Hc a b E Hb. symmetry in E. apply app_eq_app in E.
  destruct E as [l [[E1 E2]|[E1 E2]]].
  - apply (Hc l b E2 Hb).
  - destruct l as [|c l].
    + rewrite app_nil_r in E1. simpl in E2. subst b.
      apply (Hc [] h eq_refl). intros ->. apply Hb. reflexivity.
    + assert (Hl : url_here (c :: l) = false).
      { apply (url_here_shorter _ t). apply (Hg a (c :: l) E1). discriminate. }
      subst b. destruct h as [|d h].
      * destruct rest as [|p rest]; [|exfalso; apply Hne; congruence].
        simpl. rewrite !app_nil_r. exact Hl.
      * rewrite <- app_assoc, url_here_cut; [exact Hl | exact Hh].
Qed.

(** Deleting a URL that is nested in no token deletes the tokens equal to it
    and nothing else. *)
Lemma findall_urls_delete_body (u : str) (body : list (str * str)) :
  url_here u = true -> forallb nonspace u = true ->
  forall g,
    wf_body body -> clean_gap g (first_token body) ->
    (forall t, In t (map fst body) -> contains t u = true -> t = u) ->
    findall_urls (delete_from u (g ++ body_text body) 0)
    = filter (fun t => negb (str_eqb t u)) (map fst body).
Proof.
  intros Hu Hns.
  assert (Hne : u <> []) by (intros ->; discriminate Hu).
  induction body as [|[t h] rest IH]; intros g Hwf Hg Hnest.
  - rewrite delete_from_keep.
    + simpl. apply findall_urls_gap.
      apply (clean_gap_in_text g []); [exact I | exact Hg].
    + apply no_match_in_gap; [exact Hu|].
      apply (clean_gap_in_text g []); [exact I | exact Hg].
  - pose proof (clean_gap_in_text g _ Hwf Hg) as Hctx.
    destruct Hwf as (Ht & Hn & Hh & Hnh & Hc & Hr).
    assert (Hrest : forall t', In t' (map fst rest) ->
                               contains t' u = true -> t' = u).
    { intros t' Hin. apply Hnest. right. exact Hin. }
    rewrite delete_from_keep by (apply no_match_in_gap; assumption).
    cbn [body_text map fst filter].
    destruct (str_eqb t u) eqn:Etu; cbn [negb].
    + apply str_eqb_eq in Etu. subst t.
      rewrite delete_from_match by exact Hne.
      rewrite <- (IH (g ++ h) Hr
                     (clean_gap_merge g u h rest Hg Hh Hnh Hc) Hrest).
      f_equal. rewrite <- app_assoc. symmetry. apply delete_from_keep.
      apply no_match_in_gap; [exact Hu|].
      intros a b E Hb. rewrite app_assoc.
      apply (clean_gap_in_text (g ++ h) rest Hr
               (clean_gap_merge g u h rest Hg Hh Hnh Hc) a (b ++ h)).
      * rewrite E, <- app_assoc. reflexivity.
      * destruct b; [congruence | discriminate].
    + assert (Hy : after_token (h ++ body_text rest))
        by (apply body_after_token; assumption).
      rewrite delete_from_keep.
      * pose proof (delete_from_after_token u _ Hu Hy) as Hx.
        rewrite findall_urls_gap.
        -- rewrite findall_urls_token by assumption.
           f_equal. apply (IH h Hr Hc Hrest).
        -- intros a b E Hb. rewrite app_assoc, url_here_cut by exact Hx.
           apply (Hg a b E Hb).
      * intros a b E Hb.
        destruct (startswith (b ++ h ++ body_text rest) u) eqn:S;
          [|reflexivity].
        apply startswith_spec in S. destruct S as [r S].
        destruct (prefix_before_space b _ u r Hns Hy S) as [k Hk].
        assert (Hcon : contains t u = true).
        { apply contains_spec. exists a, k. rewrite E, Hk. reflexivity. }
        apply Hnest in Hcon; [|left; reflexivity].
        apply str_eqb_eq in Hcon. congruence.
Qed.

Lemma findall_urls_replace (s u : str) :
  url_here u = true -> forallb nonspace u = true ->
  (forall t, In t (findall_urls s) -> contains t u = true -> t = u) ->
  findall_urls (replace_with_empty s u)
  = filter (fun t => negb (str_eqb t u)) (findall_urls s).
Proof.
  intros Hu Hns Hnest.
  destruct (findall_urls_layout s) as (g & body & -> & Hg & Hwf & E).
  rewrite E in *. unfold replace_with_empty.
  destruct u as [|c u]; [discriminate|].
  apply findall_urls_delete_body; assumption.
Qed.

(** An occurrence of a URL in a text lies inside one of the text's tokens. *)
Lemma occurrence_in_body (u : str) (body : list (str * str)) :
  url_here u = true -> forallb nonspace u = true ->
  forall g a b,
    wf_body body -> clean_gap g (first_token body) ->
    g ++ body_text body = a ++ u ++ b ->
    exists t, In t (map fst body) /\ contains t u = true.
Proof.
  intros Hu Hns.
  assert (Hne : u <> []) by (intros ->; discriminate Hu).
  induction body as [|[t h] rest IH]; intros g a b Hwf Hg E.
  - exfalso. simpl in E. rewrite app_nil_r in E.
    assert (F : url_here (u ++ b) = false).
    { rewrite <- (app_nil_r (u ++ b)).
      apply (Hg a (u ++ b) E). destruct u; [congruence | discriminate]. }
    rewrite (url_here_app u b Hu) in F. discriminate.
  - pose proof (clean_gap_in_text g _ Hwf Hg) as Hctx.
    destruct Hwf as (Ht & Hn & Hh & Hnh & Hc & Hr).
    assert (Hy : after_token (h ++ body_text rest))
      by (apply body_after_token; assumption).
    assert (Hin : exists l, t ++ h ++ body_text rest = l ++ u ++ b).
    { apply app_eq_app in E. destruct E as [l [[E1 E2]|[E1 E2]]].
      - destruct l as [|c l].
        + exists []. simpl in E2. symmetry. exact E2.
        + exfalso.
          assert (F : url_here ((c :: l) ++ body_text ((t, h) :: rest))
                      = false)
            by (apply (Hctx a (c :: l) E1); discriminate).
          rewrite <- E2 in F.
          rewrite (url_here_app u b Hu) in F. discriminate.
      - exists l. exact E2. }
    destruct Hin as [l El]. apply app_eq_app in El.
    destruct El as [m [[E1 E2]|[E1 E2]]].
    + symmetry in E2.
      destruct (prefix_before_space m _ u b Hns Hy E2) as [k Hk].
      exists t. split; [left; reflexivity|].
      apply contains_spec. exists l, k. rewrite E1, Hk. reflexivity.
    + destruct (IH h m b Hr Hc E2) as (t' & Hin & Hcon).
      exists t'. split; [right; exact Hin | exact Hcon].
Qed.

Lemma occurrence_in_token (s u : str) :
  url_here u = true -> forallb nonspace u = true ->
  contains s u = true ->
  exists t, In t (findall_urls s) /\ contains t u = true.
Proof.
  intros Hu Hns C. apply contains_spec in C. destruct C as (a & b & C).
  destruct (findall_urls_layout s) as (g & body & E & Hg & Hwf & ->).
  apply (occurrence_in_body u body Hu Hns g a b Hwf Hg). congruence.
Qed.

(** ** [strip] and the URL tokens *)

Lemma findall_urls_lstrip (s : str) :
  findall_urls (dropwhile isspace s) = findall_urls s.
Proof.
  induction s as [|c s IH]; [reflexivity|]. simpl dropwhile.
  destruct (isspace c) eqn:E; [|reflexivity].
  rewrite IH, (findall_urls_cons c s).
  destruct (url_here (c :: s)) eqn:U; [|reflexivity].
  apply url_here_head in U. congruence.
Qed.

Lemma blank_after_token (ws : str) :
  forallb isspace ws = true -> after_token ws.
Proof.
  destruct ws as [|c ws]; simpl; [trivial|].
  intros H. apply andb_true_iff in H. tauto.
Qed.

Lemma findall_scan_blank (ws : str) :
  forallb isspace ws = true -> findall_scan ws None = [].
Proof.
  induction ws as [|c ws IH]; intros H; [reflexivity|].
  simpl in H. apply andb_true_iff in H. destruct H as [Hc H].
  cbn [findall_scan]. destruct (url_here (c :: ws)) eqn:U.
  - apply url_here_head in U. congruence.
  - exact (IH H).
Qed.

Lemma findall_scan_trailing (ws : str) :
  forallb isspace ws = true ->
  forall s tok, findall_scan (s ++ ws) tok = findall_scan s tok.
Proof.
  intros Hws. induction s as [|c s IH]; intros tok.
  - simpl. destruct ws as [|d ws]; [reflexivity|].
    pose proof Hws as H. simpl in H. apply andb_true_iff in H.
    destruct H as [Hd H]. cbn [findall_scan]. destruct tok as [t|].
    + rewrite Hd, (findall_scan_blank ws H). reflexivity.
    + destruct (url_here (d :: ws)) eqn:U.
      * apply url_here_head in U. congruence.
      * apply findall_scan_blank, H.
  - simpl app. cbn [findall_scan]. destruct tok as [t|].
    + destruct (isspace c); rewrite IH; reflexivity.
    + change (c :: s ++ ws) with ((c :: s) ++ ws).
      rewrite (url_here_cut (c :: s) ws (blank_after_token ws Hws)).
      destruct (url_here (c :: s)); apply IH.
Qed.

Lemma findall_urls_strip (s : str) : findall_urls (strip s) = findall_urls s.
Proof.
  unfold strip. rewrite <- (findall_urls_lstrip s).
  set (s1 := dropwhile isspace s).
  pose proof (takewhile_dropwhile isspace (rev s1)) as E.
  apply (f_equal (@rev ascii)) in E.
  rewrite rev_app_distr, rev_involutive in E.
  rewrite <- E at 2. unfold findall_urls. symmetry.
  apply findall_scan_trailing.
  apply forallb_forall. intros c Hc. apply in_rev in Hc.
  pose proof (takewhile_all isspace (rev s1)) as Hall.
  rewrite forallb_forall in Hall. apply Hall, Hc.
Qed.

(** ** Texts whose media URLs are nested in no other URL *)

Lemma not_nested_spec (tokens : list str) :
  not_nested tokens = true ->
  forall u v, In u tokens -> In v tokens ->
              is_media u = true -> contains v u = true -> v = u.
Proof.
  unfold not_nested. rewrite forallb_forall. intros H u v Hu Hv Hm Hc.
  specialize (H u Hu). rewrite Hm in H. simpl in H.
  rewrite forallb_forall in H. specialize (H v Hv).
  rewrite Hc in H. simpl in H. apply str_eqb_eq. exact H.
Qed.

Lemma filter_filter_and (A : Type) (f g : A -> bool) (l : list A) :
  filter f (filter g l) = filter (fun x => g x && f x) l.
Proof.
  induction l as [|x l IH]; simpl; [reflexivity|].
  destruct (g x); simpl; [destruct (f x)|]; rewrite IH; reflexivity.
Qed.

Lemma filter_all (A : Type) (f : A -> bool) (l : list A) :
  (forall x, In x l -> f x = true) -> filter f l = l.
Proof.
  induction l as [|x l IH]; intros H; simpl; [reflexivity|].
  rewrite (H x (or_introl eq_refl)). f_equal. apply IH.
  intros y Hy. apply H. right. exact Hy.
Qed.

(** The loop of [extract_media_urls] over a text without nesting: the URL
    tokens left in the text are those that were there, the media URLs gone
    through apart. *)
Lemma extract_tokens (tokens todo : list str) :
  (forall t, In t tokens -> url_here t = true /\ forallb nonspace t = true) ->
  (forall u v, In u tokens -> In v tokens ->
               is_media u = true -> contains v u = true -> v = u) ->
  incl todo tokens ->
  forall clean urls,
    incl (findall_urls clean) tokens ->
    findall_urls (fst (fold_left extract_step todo (clean, urls)))
    = filter (fun t => negb (is_media t && mem t todo)) (findall_urls clean).
Proof.
  intros Hshape Hnest.
  induction todo as [|u todo IH]; intros Hin clean urls Hcl.
  - simpl. symmetry. apply filter_all. intros x _.
    rewrite andb_false_r. reflexivity.
  - assert (Hu : In u tokens) by (apply Hin; left; reflexivity).
    assert (Htodo : incl todo tokens)
      by (intros x Hx; apply Hin; right; exact Hx).
    cbn [fold_left extract_step]. destruct (is_media u) eqn:Em.
    + assert (E : findall_urls (strip (replace_with_empty clean u))
                  = filter (fun t => negb (str_eqb t u))
                           (findall_urls clean)).
      { rewrite findall_urls_strip. destruct (Hshape u Hu) as [H1 H2].
        apply findall_urls_replace; [exact H1 | exact H2|].
        intros t Ht. apply (Hnest u t Hu (Hcl t Ht) Em). }
      rewrite IH; [|exact Htodo|].
      * rewrite E, filter_filter_and. apply filter_ext. intros t.
        cbn [mem existsb]. destruct (str_eqb t u) eqn:Etu; [|reflexivity].
        apply str_eqb_eq in Etu. subst t. rewrite Em. reflexivity.
      * rewrite E. intros t Ht. apply filter_In in Ht. apply Hcl, Ht.
    + rewrite (IH Htodo clean urls Hcl). apply filter_ext. intros t.
      cbn [mem existsb]. destruct (str_eqb t u) eqn:Etu; [|reflexivity].
      apply str_eqb_eq in Etu. subst t. rewrite Em. reflexivity.
Qed.

(** Without nesting, the URL tokens of the text returned are the tokens of
    the text given that fail the media test, in their order. *)
Lemma extract_clean_tokens (content : str) :
  not_nested (findall_urls content) = true ->
  findall_urls (fst (extract_media_urls content))
  = filter (fun u => negb (is_media u)) (findall_urls content).
Proof.
  intros Hnn. unfold extract_media_urls.
  rewrite (extract_tokens (findall_urls content) (findall_urls content)).
  - apply filter_ext_in. intros t Ht.
    apply mem_In in Ht. rewrite Ht, andb_true_r. reflexivity.
  - intros t. apply findall_urls_shape.
  - apply not_nested_spec, Hnn.
  - apply incl_refl.
  - apply incl_refl.
Qed.

(** C8, as amended.  The media list holds every URL token that ends in
    [.jpg], and no string that ends in [.html].  When no token passes the
    media test the text comes back unchanged, with an empty media list, so
    every URL it holds remains.  When the text holds a single URL token and
    that token passes the media test, the media list is exactly that token,
    the text returned is the text around the token, stripped, and the token
    occurs nowhere in it.  When no media URL of the text occurs inside
    another of its URL tokens, however many tokens there are: the URL tokens
    of the text returned are the tokens that fail the media test, in their
    order; no URL of the media list occurs anywhere in the text returned, a
    token that ends in [.jpg] in particular; and every token that fails the
    media test occurs in it, a token that ends in [.html] in particular. *)
Theorem media_extraction (content : str) :
  (forall u, In u (findall_urls content) ->
             endswith u (py ".jpg") = true ->
             In u (snd (extract_media_urls content)))
  /\ (forall u, endswith u (py ".html") = true ->
                ~ In u (snd (extract_media_urls content)))
  /\ (Forall (fun u => is_media u = false) (findall_urls content) ->
      extract_media_urls content = (content, []))
  /\ (forall u, findall_urls content = [u] -> is_media u = true ->
                snd (extract_media_urls content) = [u]
                /\ contains (fst (extract_media_urls content)) u = false
                /\ exists pre post,
                     content = pre ++ u ++ post
                     /\ fst (extract_media_urls content)
                        = strip (pre ++ post))
  /\ (not_nested (findall_urls content) = true ->
      findall_urls (fst (extract_media_urls content))
      = filter (fun u => negb (is_media u)) (findall_urls content)
      /\ (forall u, In u (snd (extract_media_urls content)) ->
                    contains (fst (extract_media_urls content)) u = false)
      /\ (forall u, In u (findall_urls content) -> is_media u = false ->
                    contains (fst (extract_media_urls content)) u = true)
      /\ (forall u, In u (findall_urls content) ->
                    endswith u (py ".jpg") = true ->
                    contains (fst (extract_media_urls content)) u = false)
      /\ (forall u, In u (findall_urls content) ->
                    endswith u (py ".html") = true ->
                    contains (fst (extract_media_urls content)) u = true)).
Proof.
  split; [|split; [|split; [|split]]].
  - intros u Hin Hj. rewrite extract_media_urls_list.
    apply filter_In. split; [exact Hin | apply jpg_is_media, Hj].
  - intros u Hh Hin. rewrite extract_media_urls_list in Hin.
    apply filter_In in Hin. destruct Hin as [_ Hm].
    rewrite (html_is_not_media u Hh) in Hm. discriminate.
  - intros H. apply extract_without_media, H.
  - intros u Hf Hm.
    destruct (findall_urls_single content u Hf)
      as (pre & post & -> & Hpre & Hu & Hns & Hsp & Hpost).
    unfold extract_media_urls. rewrite Hf. simpl. rewrite Hm. simpl.
    rewrite (replace_single_token pre u post Hpre Hu Hpost).
    split; [reflexivity|]. split; [|exists pre, post; auto].
    destruct (contains (strip (pre ++ post)) u) eqn:C; [|reflexivity].
    apply contains_spec in C. destruct C as (a & b & C).
    destruct (strip_inside (pre ++ post)) as (x & y & E).
    rewrite C in E.
    exfalso.
    apply (single_token_gone pre u post Hpre Hu Hns Hsp Hpost
                             (x ++ a) (b ++ y)).
    rewrite E, <- !app_assoc. reflexivity.
  - intros Hnn. pose proof (extract_clean_tokens content Hnn) as Hleft.
    assert (Hgone : forall u, In u (findall_urls content) ->
                              is_media u = true ->
                              contains (fst (extract_media_urls content)) u
                              = false).
    { intros u Hin Hm.
      destruct (contains (fst (extract_media_urls content)) u) eqn:C;
        [|reflexivity].
      destruct (findall_urls_shape content u Hin) as [H1 H2].
      destruct (occurrence_in_token _ u H1 H2 C) as (t & Ht & Hc).
      rewrite Hleft in Ht. apply filter_In in Ht. destruct Ht as [Ht Hmt].
      rewrite (not_nested_spec _ Hnn u t Hin Ht Hm Hc), Hm in Hmt.
      discriminate. }
    assert (Hkept : forall u, In u (findall_urls content) ->
                              is_media u = false ->
                              contains (fst (extract_media_urls content)) u
                              = true).
    { intros u Hin Hm. apply findall_urls_occurs. rewrite Hleft.
      apply filter_In. rewrite Hm. auto. }
    split; [exact Hleft|]. split; [|split; [exact Hkept|split]].
    + intros u Hin. rewrite extract_media_urls_list in Hin.
      apply filter_In in Hin. destruct Hin as [Hin Hm].
      exact (Hgone u Hin Hm).
    + intros u Hin Hj. exact (Hgone u Hin (jpg_is_media u Hj)).
    + intros u Hin Hh. exact (Hkept u Hin (html_is_not_media u Hh)).
Qed.

(* ================================================================== *)
(** * The loop body *)
(* ================================================================== *)

Section SyncFacts.

Variable W : Type.
Variable O : Oracle W.
Variable L : Lib.

(** The media block never creates a tweet and never saves the state; without
    a client it uploads nothing. *)
Lemma fetch_media_calls (client : bool) (urls : list str) (w : W) :
  Forall (fun c => is_create_tweet c = false /\ is_dump_state c = false
                   /\ (client = false -> is_media_upload c = false))
         (md_calls (fetch_media O client w urls)).
Proof.
  revert w; induction urls as [|url rest IH]; intros w; simpl.
  - constructor.
  - destruct (snd (on_download_media O w url)) as [path|].
    + destruct client; simpl.
      * constructor; [simpl; intuition discriminate|].
        constructor; [simpl; intuition discriminate | apply IH].
      * constructor; [simpl; intuition discriminate | apply IH].
    + simpl. constructor; [simpl; intuition discriminate | apply IH].
Qed.

Lemma cleanup_calls (paths : list str) :
  Forall (fun c => is_create_tweet c = false /\ is_dump_state c = false
                   /\ is_media_upload c = false)
         (map os_remove paths ++ [sleep]).
Proof.
  apply Forall_app; split.
  - apply Forall_forall. intros c Hc. apply in_map_iff in Hc.
    destruct Hc as [p [<- _]]. simpl. auto.
  - constructor; [simpl; auto | constructor].
Qed.

(** What an iteration that does not skip its event logs. *)
Lemma process_event_processed cl state nlt w e :
  mem (event_id e) (synced_event_ids state) = false ->
  is_reply e = false ->
  fromtimestamp_ok L (created_at e) = true ->
  let cm := extract_media_urls (content e) in
  let m := fetch_media O (twitter_client cl) w (snd cm) in
  let p := post_to_twitter O cl state nlt (md_world m) e (fst cm)
                           (md_media_ids m) in
  process_event O L cl state nlt w e
  = mkStep (sp_state p) (sp_new_last_ts p)
           (on_sleep O (cleanup O (sp_world p) (md_temp_files m)))
           (md_calls m ++ sp_calls p
              ++ map os_remove (md_temp_files m) ++ [sleep])
           false.
Proof.
  intros Hd Hr Hf. unfold process_event. rewrite Hd, Hr, Hf. reflexivity.
Qed.

(** An iteration that logs nothing leaves the loop variables alone. *)
Lemma process_event_skipped cl state nlt w e :
  mem (event_id e) (synced_event_ids state) = true \/ is_reply e = true
  \/ fromtimestamp_ok L (created_at e) = false ->
  let s := process_event O L cl state nlt w e in
  sp_calls s = [] /\ sp_state s = state /\ sp_new_last_ts s = nlt
  /\ sp_world s = w.
Proof.
  intros H. unfold process_event.
  destruct (mem (event_id e) (synced_event_ids state)); [simpl; auto|].
  destruct (is_reply e); [simpl; auto|].
  destruct (fromtimestamp_ok L (created_at e)); simpl; auto.
  destruct H as [H|[H|H]]; discriminate.
Qed.

(** The three ways the posting block can go. *)
Lemma post_to_twitter_cases cl state nlt w e text mids :
  let p := post_to_twitter O cl state nlt w e text mids in
  (twitter_v2 cl = false /\ p = mkStep state nlt w [] false)
  \/ (twitter_v2 cl = true /\
      snd (on_create_tweet O w (truncate_text text) mids) = false /\
      sp_state p = state /\ sp_new_last_ts p = nlt /\
      sp_calls p = [create_tweet (truncate_text text) mids false])
  \/ (twitter_v2 cl = true /\
      snd (on_create_tweet O w (truncate_text text) mids) = true /\
      sp_state p = fst (record_published state nlt e) /\
      sp_new_last_ts p = snd (record_published state nlt e) /\
      sp_calls p = [create_tweet (truncate_text text) mids true;
                    dump_state (fst (record_published state nlt e))]).
Proof.
  unfold post_to_twitter. destruct (twitter_v2 cl); [|left; auto].
  destruct (snd (on_create_tweet O w (truncate_text text) mids)).
  - right; right. simpl. auto.
  - right; left. simpl. auto.
Qed.

(** [record_published] when [new_last_ts] is the state's timestamp. *)
Lemma record_published_max state e :
  record_published state (last_synced_timestamp state) e
  = (save_state
       {| last_synced_timestamp :=
            Z.max (last_synced_timestamp state) (created_at e);
          synced_event_ids := synced_event_ids state ++ [event_id e] |},
     Z.max (last_synced_timestamp state) (created_at e)).
Proof.
  unfold record_published.
  destruct (Z.gtb_spec (created_at e) (last_synced_timestamp state)).
  - rewrite Z.max_r by lia. reflexivity.
  - rewrite Z.max_l by lia. reflexivity.
Qed.

(** [new_last_ts] stays equal to the state's timestamp. *)
Lemma process_event_new_last_ts cl state w e :
  let s := process_event O L cl state (last_synced_timestamp state) w e in
  sp_new_last_ts s = last_synced_timestamp (sp_state s).
Proof.
  unfold process_event.
  destruct (mem (event_id e) (synced_event_ids state)); [reflexivity|].
  destruct (is_reply e); [reflexivity|].
  destruct (fromtimestamp_ok L (created_at e)); [|reflexivity].
  cbn [negb sp_new_last_ts sp_state].
  match goal with
  | |- context [post_to_twitter O cl state ?n ?w' e ?t ?m] =>
    destruct (post_to_twitter_cases cl state n w' e t m)
      as [[_ ->]|[(_ & _ & -> & -> & _)|(_ & _ & -> & -> & _)]]
  end; try reflexivity.
  rewrite record_published_max. reflexivity.
Qed.

(** The log of the loop is a chain of iterations, and the loop ends in the
    state the last of them left. *)
Lemma process_events_iterations cl evs : forall state w,
  let l := process_events O L cl state (last_synced_timestamp state) w evs in
  iterations O L cl state (lp_items l)
  /\ lp_state l = state_after state (lp_items l).
Proof.
  induction evs as [|e rest IH]; intros state w; simpl.
  - split; [constructor | reflexivity].
  - pose proof (process_event_new_last_ts cl state w e) as Hn. simpl in Hn.
    destruct (sp_raised (process_event O L cl state
                           (last_synced_timestamp state) w e)); simpl.
    + split; [|reflexivity].
      apply (@iterations_cons _ O L cl state w e). constructor.
    + rewrite Hn. destruct (IH (sp_state
        (process_event O L cl state (last_synced_timestamp state) w e))
        (sp_world
        (process_event O L cl state (last_synced_timestamp state) w e)))
        as [Hi Hs].
      split; [|exact Hs].
      apply (@iterations_cons _ O L cl state w e). exact Hi.
Qed.

Lemma run_iterations cfg state w :
  let r := run O L cfg state w in
  iterations O L (setup_twitter cfg) state (run_items r)
  /\ run_state r = state_after state (run_items r).
Proof.
  unfold run. destruct (MONITORED_NPUBS cfg); simpl.
  - split; [constructor | reflexivity].
  - destruct (fe_events (connect_and_fetch O L cfg state w)) as [events|];
      simpl; [|split; [constructor | reflexivity]].
    destruct (sort_by_created_at events) as [|e rest] eqn:E; simpl;
      [split; [constructor | reflexivity]|].
    apply (process_events_iterations (setup_twitter cfg) (e :: rest)).
Qed.

(** Every entry of a chain is an iteration of the body on the state the entry
    records. *)
Lemma iterations_In cl state items it :
  iterations O L cl state items -> In it items ->
  exists w,
    let s := process_event O L cl (it_before it)
               (last_synced_timestamp (it_before it)) w (it_event it) in
    it_calls it = sp_calls s /\ it_after it = sp_state s.
Proof.
  induction 1 as [|state w e items s Hi IH]; intros Hin; [destruct Hin|].
  destruct Hin as [<-|Hin]; [|exact (IH Hin)].
  exists w. simpl. auto.
Qed.

(** The three outcomes of an iteration: nothing logged (duplicate, reply or
    exception); processed but not recorded (dry run or failed tweet); posted
    and recorded. *)
Lemma process_event_outcome cl state nlt w e :
  let s := process_event O L cl state nlt w e in
  (sp_calls s = [] /\ sp_state s = state /\ sp_new_last_ts s = nlt
   /\ sp_world s = w)
  \/ (mem (event_id e) (synced_event_ids state) = false /\
      sp_raised s = false /\ sp_state s = state /\ sp_new_last_ts s = nlt /\
      Forall (fun c => tweet_ok c = false /\ is_dump_state c = false)
             (sp_calls s) /\
      (twitter_v2 cl = true -> existsb tweet_failed (sp_calls s) = true) /\
      In sleep (sp_calls s))
  \/ (mem (event_id e) (synced_event_ids state) = false /\
      sp_raised s = false /\ twitter_v2 cl = true /\
      sp_state s = fst (record_published state nlt e) /\
      sp_new_last_ts s = snd (record_published state nlt e) /\
      existsb tweet_ok (sp_calls s) = true /\
      Forall (fun c => tweet_failed c = false) (sp_calls s) /\
      In (dump_state (sp_state s)) (sp_calls s)).
Proof.
  destruct (mem (event_id e) (synced_event_ids state)) eqn:Hd;
    [left; apply process_event_skipped; auto|].
  destruct (is_reply e) eqn:Hr;
    [left; apply process_event_skipped; auto|].
  destruct (fromtimestamp_ok L (created_at e)) eqn:Hf;
    [|left; apply process_event_skipped; auto].
  right. cbv zeta. rewrite (process_event_processed cl state nlt w e Hd Hr Hf).
  cbn [sp_calls sp_state sp_new_last_ts sp_raised].
  set (cm := extract_media_urls (content e)).
  set (m := fetch_media O (twitter_client cl) w (snd cm)).
  pose proof (fetch_media_calls (twitter_client cl) (snd cm) w) as Hm.
  fold m in Hm.
  pose proof (cleanup_calls (md_temp_files m)) as Hc.
  assert (Hs : In sleep (map os_remove (md_temp_files m) ++ [sleep]))
    by (apply in_or_app; right; left; reflexivity).
  destruct (post_to_twitter_cases cl state nlt (md_world m) e (fst cm)
              (md_media_ids m))
    as [[Hv ->]|[(Hv & _ & -> & -> & ->)|(Hv & _ & -> & -> & ->)]].
  - left. simpl. repeat split; auto.
    + apply Forall_app; split.
      * eapply Forall_impl; [|exact Hm]. intros [] ?; simpl in *; intuition congruence.
      * eapply Forall_impl; [|exact Hc]. intros [] ?; simpl in *; intuition congruence.
    + congruence.
    + apply in_or_app; right. exact Hs.
  - left. repeat split; auto.
    + apply Forall_app; split;
        [eapply Forall_impl; [|exact Hm]; intros [] ?; simpl in *; intuition congruence|].
      constructor; [simpl; auto|].
      eapply Forall_impl; [|exact Hc]. intros [] ?; simpl in *; intuition congruence.
    + intros _. rewrite existsb_app. apply orb_true_iff; right.
      reflexivity.
    + apply in_or_app; right. right. exact Hs.
  - right. repeat split; auto.
    + rewrite existsb_app. apply orb_true_iff; right. reflexivity.
    + apply Forall_app; split;
        [eapply Forall_impl; [|exact Hm]; intros [] ?; simpl in *; intuition congruence|].
      constructor; [reflexivity|]. constructor; [reflexivity|].
      eapply Forall_impl; [|exact Hc]. intros [] ?; simpl in *; intuition congruence.
    + apply in_or_app; right. right. left. reflexivity.
Qed.

Lemma existsb_false_Forall (A : Type) (f : A -> bool) (l : list A) :
  existsb f l = false <-> Forall (fun x => f x = false) l.
Proof.
  induction l as [|x l IH]; simpl.
  - split; [constructor | reflexivity].
  - rewrite orb_false_iff, IH. split.
    + intros [? ?]. constructor; assumption.
    + intros H. inversion H; auto.
Qed.

(** An iteration whose tweet failed changes nothing and saves nothing. *)
Lemma process_event_failed cl state nlt w e :
  let s := process_event O L cl state nlt w e in
  existsb tweet_failed (sp_calls s) = true ->
  sp_raised s = false /\ sp_state s = state /\ sp_new_last_ts s = nlt /\
  Forall (fun c => is_dump_state c = false) (sp_calls s).
Proof.
  intros s Hf. unfold s in *. clear s.
  destruct (process_event_outcome cl state nlt w e)
    as [(Hc & _)|[(_ & Hr & Hs & Hn & Ha & _)|(_ & _ & _ & _ & _ & _ & Ha & _)]].
  - rewrite Hc in Hf. discriminate.
  - repeat split; auto. eapply Forall_impl; [|exact Ha]. intros ? [? ?]; assumption.
  - apply existsb_false_Forall in Ha. congruence.
Qed.

(** An iteration that records nothing leaves the state as it was. *)
Lemma process_event_unrecorded cl state nlt w e :
  let s := process_event O L cl state nlt w e in
  existsb tweet_ok (sp_calls s) = false ->
  sp_state s = state /\ sp_new_last_ts s = nlt /\
  Forall (fun c => is_dump_state c = false) (sp_calls s).
Proof.
  intros s Hf. unfold s in *. clear s.
  destruct (process_event_outcome cl state nlt w e)
    as [(Hc & Hs & Hn & _)|[(_ & Hr & Hs & Hn & Ha & _)
                           |(_ & _ & _ & _ & _ & Ha & _)]].
  - rewrite Hc. repeat split; auto.
  - repeat split; auto. eapply Forall_impl; [|exact Ha]. intros ? [? ?]; assumption.
  - congruence.
Qed.

(** ** Before the loop *)

Lemma add_relays_calls relays : forall w,
  Forall (fun c => is_publish c = false /\ is_dump_state c = false)
         (pg_calls (add_relays O w relays)).
Proof.
  induction relays as [|relay rest IH]; intros w; simpl; [constructor|].
  destruct (snd (on_add_relay O w relay)); simpl.
  - constructor; [auto | apply IH].
  - constructor; [auto | constructor].
Qed.

Lemma connect_and_fetch_calls cfg state w :
  Forall (fun c => is_publish c = false /\ is_dump_state c = false)
         (fe_calls (connect_and_fetch O L cfg state w)).
Proof.
  assert (Hn : Forall (fun c => is_publish c = false /\ is_dump_state c = false)
                      (pg_calls (setup_nostr O w (NOSTR_RELAYS cfg)))).
  { unfold setup_nostr.
    destruct (pg_ok (add_relays O w (NOSTR_RELAYS cfg))); simpl;
      [|apply add_relays_calls].
    apply Forall_app; split; [apply add_relays_calls|].
    constructor; [auto | constructor]. }
  unfold connect_and_fetch.
  repeat match goal with
         | |- context [if negb ?b then _ else _] => destruct b; simpl
         end; try exact Hn.
  apply Forall_app; split; [exact Hn|]. constructor; [auto | constructor].
Qed.

(** ** Dry run *)

Lemma setup_twitter_absent cfg :
  TWITTER_API_KEY cfg = None \/ TWITTER_API_SECRET cfg = None \/
  TWITTER_ACCESS_TOKEN cfg = None \/ TWITTER_ACCESS_SECRET cfg = None ->
  setup_twitter cfg = mkClients false false.
Proof.
  unfold setup_twitter. intros [H|[H|[H|H]]]; rewrite H; simpl;
    rewrite ?andb_false_r; reflexivity.
Qed.

Lemma process_event_dry_run state nlt w e :
  let s := process_event O L (mkClients false false) state nlt w e in
  sp_state s = state /\ sp_new_last_ts s = nlt /\
  Forall (fun c => is_publish c = false /\ is_dump_state c = false)
         (sp_calls s).
Proof.
  destruct (mem (event_id e) (synced_event_ids state)) eqn:Hd;
    [unfold process_event; rewrite Hd; simpl; auto|].
  destruct (is_reply e) eqn:Hr;
    [unfold process_event; rewrite Hd, Hr; simpl; auto|].
  destruct (fromtimestamp_ok L (created_at e)) eqn:Hf;
    [|unfold process_event; rewrite Hd, Hr, Hf; simpl; auto].
  cbv zeta. rewrite (process_event_processed _ state nlt w e Hd Hr Hf).
  simpl. repeat split; auto. apply Forall_app; split.
  - eapply Forall_impl;
      [|apply (fetch_media_calls false
                 (snd (extract_media_urls (content e))) w)].
    intros c (H1 & H2 & H3). unfold is_publish. rewrite H1, (H3 eq_refl).
    auto.
  - eapply Forall_impl; [|apply cleanup_calls].
    intros c (H1 & H2 & H3). unfold is_publish. rewrite H1, H3. auto.
Qed.

Lemma iterations_dry_run state items :
  iterations O L (mkClients false false) state items ->
  Forall (fun it => it_before it = state /\ it_after it = state /\
                    Forall (fun c => is_publish c = false
                                     /\ is_dump_state c = false)
                           (it_calls it)) items.
Proof.
  induction 1 as [|state w e items s Hi IH]; [constructor|].
  destruct (process_event_dry_run state (last_synced_timestamp state) w e)
    as (Hs & _ & Hc). fold s in Hs, Hc.
  constructor; [simpl; auto|]. rewrite Hs in IH. exact IH.
Qed.

(** C7.  When one of the four destination credentials is absent the run is a
    dry run: its trace holds no media upload and no tweet creation, the state
    is never saved, every iteration leaves the state as the run found it, and
    the run ends in the very state it started from. *)
Theorem dry_run_checkpoint_untouched cfg state w :
  TWITTER_API_KEY cfg = None \/ TWITTER_API_SECRET cfg = None \/
  TWITTER_ACCESS_TOKEN cfg = None \/ TWITTER_ACCESS_SECRET cfg = None ->
  let r := run O L cfg state w in
  Forall (fun c => is_publish c = false /\ is_dump_state c = false) (trace r)
  /\ Forall (fun it => it_before it = state /\ it_after it = state)
            (run_items r)
  /\ synced_event_ids (run_state r) = synced_event_ids state
  /\ last_synced_timestamp (run_state r) = last_synced_timestamp state.
Proof.
  intros Habs r.
  destruct (run_iterations cfg state w) as [Hi Hs]. fold r in Hi, Hs.
  rewrite (setup_twitter_absent cfg Habs) in Hi.
  apply iterations_dry_run in Hi.
  assert (Hst : run_state r = state).
  { rewrite Hs. clear - Hi. induction (run_items r) as [|it items IH] using rev_ind;
      [reflexivity|].
    unfold state_after. rewrite fold_left_app. simpl.
    apply Forall_app in Hi. destruct Hi as [_ Hi]. inversion Hi; subst.
    tauto. }
  split; [|split; [|rewrite Hst; auto]].
  - unfold trace. apply Forall_app; split.
    + unfold r, run. destruct (MONITORED_NPUBS cfg); simpl; [constructor|].
      pose proof (connect_and_fetch_calls cfg state w) as Hc.
      destruct (fe_events (connect_and_fetch O L cfg state w)) as [events|];
        simpl; [|exact Hc].
      destruct (sort_by_created_at events); exact Hc.
    + apply Forall_concat. apply Forall_map.
      eapply Forall_impl; [|exact Hi]. intros it (_ & _ & H). exact H.
  - eapply Forall_impl; [|exact Hi]. intros it (? & ? & _). auto.
Qed.

(** ** Duplicates *)

(** C2.  In every run, an event whose id is in [synced_event_ids] when the
    loop comes to it is skipped: the iteration makes no call at all, so no
    media upload and no tweet creation, and leaves the state alone. *)
Theorem duplicate_never_published cfg state w it :
  In it (run_items (run O L cfg state w)) ->
  mem (event_id (it_event it)) (synced_event_ids (it_before it)) = true ->
  it_calls it = []
  /\ existsb is_publish (it_calls it) = false
  /\ it_after it = it_before it.
Proof.
  intros Hin Hdup.
  destruct (run_iterations cfg state w) as [Hi _].
  destruct (iterations_In _ _ _ _ Hi Hin) as [w' [Hc Ha]].
  destruct (process_event_skipped (setup_twitter cfg) (it_before it)
              (last_synced_timestamp (it_before it)) w' (it_event it)
              (or_introl Hdup)) as (Hc' & Hs' & _).
  rewrite Hc, Ha, Hc', Hs'. auto.
Qed.

(** ** Failed posts *)

(** C1.  In every run, an iteration whose [create_tweet] call raised leaves
    the state as it found it (no id appended, timestamp unchanged) and saves
    nothing; and the loop goes on: the log of the loop on [e :: rest] is the
    entry of [e] followed by the log of the loop on [rest], started from the
    same state and the same [new_last_ts]. *)
Theorem failed_post_not_recorded :
  (forall cfg state w it,
      In it (run_items (run O L cfg state w)) ->
      existsb tweet_failed (it_calls it) = true ->
      synced_event_ids (it_after it) = synced_event_ids (it_before it)
      /\ last_synced_timestamp (it_after it)
         = last_synced_timestamp (it_before it)
      /\ existsb is_dump_state (it_calls it) = false)
  /\ (forall cl state nlt w e rest,
         let s := process_event O L cl state nlt w e in
         existsb tweet_failed (sp_calls s) = true ->
         let l := process_events O L cl state nlt (sp_world s) rest in
         process_events O L cl state nlt w (e :: rest)
         = mkLoop (lp_state l) (lp_world l)
                  (mkItem e state (sp_calls s) state :: lp_items l)
                  (lp_raised l)).
Proof.
  split.
  - intros cfg state w it Hin Hfail.
    destruct (run_iterations cfg state w) as [Hi _].
    destruct (iterations_In _ _ _ _ Hi Hin) as [w' [Hc Ha]].
    rewrite Hc in Hfail. rewrite Hc, Ha.
    destruct (process_event_failed _ _ _ _ _ Hfail) as (_ & -> & _ & Hd).
    repeat split. apply existsb_false_Forall. exact Hd.
  - intros cl state nlt w e rest s Hfail l.
    destruct (process_event_failed _ _ _ _ _ Hfail) as (Hr & Hs & Hn & _).
    fold s in Hr, Hs, Hn. simpl. fold s. rewrite Hr. unfold l.
    rewrite Hs, Hn. reflexivity.
Qed.

(** ** Recording *)

Lemma last_n_length n l : length (last_n n l) = Nat.min n (length l).
Proof. unfold last_n. rewrite length_skipn. lia. Qed.

Lemma last_n_app_last_n n l m :
  last_n n (last_n n l ++ m) = last_n n (l ++ m).
Proof.
  unfold last_n at 1 3.
  assert (Hk : last_n n l ++ m = skipn (length l - n) (l ++ m)).
  { unfold last_n. rewrite skipn_app.
    replace (length l - n - length l)%nat with 0%nat by lia. reflexivity. }
  rewrite Hk, skipn_skipn. f_equal.
  rewrite length_skipn, !length_app. lia.
Qed.

Lemma last_n_drops_oldest n (l : list str) x r :
  length r = n -> last_n n (l ++ x :: r) = r.
Proof.
  intros Hr. unfold last_n.
  change (x :: r) with ([x] ++ r). rewrite app_assoc, skipn_app.
  rewrite skipn_all2 by (rewrite !length_app; simpl; lia).
  replace (length ((l ++ [x]) ++ r) - n - length (l ++ [x]))%nat with 0%nat
    by (rewrite !length_app; simpl; lia).
  reflexivity.
Qed.

(** The id list after a first post and then the posts [evs] are recorded. *)
Lemma record_all_ids evs : forall state nlt e,
  synced_event_ids
    (fst (fold_left (fun acc e' => record_published (fst acc) (snd acc) e')
                    evs (record_published state nlt e)))
  = last_n 1000 (synced_event_ids state ++ event_id e :: map event_id evs).
Proof.
  induction evs as [|e' evs IH]; intros state nlt e.
  - simpl. unfold record_published.
    destruct (created_at e >? nlt)%Z; reflexivity.
  - simpl. rewrite IH.
    assert (Hs : synced_event_ids (fst (record_published state nlt e))
                 = last_n 1000 (synced_event_ids state ++ [event_id e])).
    { unfold record_published. destruct (created_at e >? nlt)%Z; reflexivity. }
    rewrite Hs, last_n_app_last_n, <- app_assoc. reflexivity.
Qed.

Lemma record_published_ge state nlt e :
  (last_synced_timestamp state
   <= last_synced_timestamp (fst (record_published state nlt e)))%Z
  \/ last_synced_timestamp (fst (record_published state nlt e))
     = created_at e.
Proof.
  unfold record_published. destruct (created_at e >? nlt)%Z; simpl.
  - right; reflexivity.
  - left; lia.
Qed.

(** The timestamp never goes down in an iteration, and a recorded event is
    not newer than the state it leaves. *)
Lemma process_event_timestamp cl state w e :
  let s := process_event O L cl state (last_synced_timestamp state) w e in
  (last_synced_timestamp state <= last_synced_timestamp (sp_state s))%Z
  /\ (existsb tweet_ok (sp_calls s) = true ->
      (created_at e <= last_synced_timestamp (sp_state s))%Z
      /\ sp_state s
         = fst (record_published state (last_synced_timestamp state) e)
      /\ In (dump_state (sp_state s)) (sp_calls s)).
Proof.
  cbv zeta.
  destruct (process_event_outcome cl state (last_synced_timestamp state) w e)
    as [(Hc & Hs & _)|[(_ & _ & Hs & _ & Ha & _)
                      |(_ & _ & _ & Hs & _ & _ & _ & Hd)]].
  - rewrite Hs, Hc. split; [lia | discriminate].
  - rewrite Hs. split; [lia|]. intros Hok.
    apply existsb_exists in Hok. destruct Hok as [c [Hin Hok]].
    rewrite Forall_forall in Ha. destruct (Ha c Hin). congruence.
  - rewrite Hs in *. rewrite record_published_max in *. simpl.
    split; [lia|]. intros _. split; [lia|]. split; [reflexivity | exact Hd].
Qed.

Lemma iterations_app cl state items1 items2 :
  iterations O L cl state (items1 ++ items2) ->
  iterations O L cl state items1
  /\ iterations O L cl (state_after state items1) items2.
Proof.
  revert state. induction items1 as [|it items1 IH]; intros state H.
  - split; [constructor | exact H].
  - simpl in H. inversion H as [|state' w e items s Hi]; subst.
    destruct (IH _ Hi) as [H1 H2].
    split; [|exact H2].
    apply (@iterations_cons _ O L cl state w e). exact H1.
Qed.

Lemma iterations_head cl state it items :
  iterations O L cl state (it :: items) ->
  it_before it = state
  /\ iterations O L cl (it_after it) items.
Proof.
  intros H. inversion H; subst. simpl. auto.
Qed.

Lemma iterations_monotone cl state items :
  iterations O L cl state items ->
  (last_synced_timestamp state
   <= last_synced_timestamp (state_after state items))%Z.
Proof.
  induction 1 as [|state w e items s Hi IH]; simpl; [lia|].
  pose proof (proj1 (process_event_timestamp cl state w e)) as H.
  change (last_synced_timestamp state
          <= last_synced_timestamp (sp_state s))%Z in H.
  exact (Z.le_trans _ _ _ H IH).
Qed.

(** C4.  Recording a published event appends its id to the id list, cut to
    its last 1000 entries, and sets the timestamp to the larger of the old
    value and the event's; the list never holds more than 1000 ids.  After
    1001 events with distinct ids are recorded the list is the ids of the
    last 1000 of them: its length is 1000 and the first id is gone.  In a run
    every recorded event is recorded this way, the state so obtained is what
    is handed to the state file, and the timestamp of the state never goes
    down. *)
Theorem recording_keeps_last_1000 :
  (forall state e,
      let state' :=
          fst (record_published state (last_synced_timestamp state) e) in
      synced_event_ids state'
      = last_n 1000 (synced_event_ids state ++ [event_id e])
      /\ last_synced_timestamp state'
         = Z.max (last_synced_timestamp state) (created_at e)
      /\ (length (synced_event_ids state') <= 1000)%nat)
  /\ (forall state first rest,
         length (first :: rest) = 1001%nat ->
         NoDup (map event_id (first :: rest)) ->
         let state' := fst (record_all state (first :: rest)) in
         synced_event_ids state' = map event_id rest
         /\ length (synced_event_ids state') = 1000%nat
         /\ ~ In (event_id first) (synced_event_ids state'))
  /\ (forall cfg state w it,
         In it (run_items (run O L cfg state w)) ->
         recorded it = true ->
         it_after it
         = fst (record_published (it_before it)
                  (last_synced_timestamp (it_before it)) (it_event it))
         /\ In (dump_state (it_after it)) (it_calls it))
  /\ (forall cfg state w,
         (last_synced_timestamp state
          <= last_synced_timestamp (run_state (run O L cfg state w)))%Z
         /\ Forall (fun it => (last_synced_timestamp (it_before it)
                               <= last_synced_timestamp (it_after it))%Z)
                   (run_items (run O L cfg state w))).
Proof.
  repeat split.
  - rewrite record_published_max. reflexivity.
  - rewrite record_published_max. reflexivity.
  - rewrite record_published_max. simpl. rewrite last_n_length. lia.
  - unfold record_all. simpl. rewrite record_all_ids.
    apply last_n_drops_oldest. simpl in H. rewrite length_map. lia.
  - unfold record_all. simpl. rewrite record_all_ids.
    rewrite last_n_drops_oldest by (simpl in H; rewrite length_map; lia).
    simpl in H. rewrite length_map. lia.
  - unfold record_all. simpl. rewrite record_all_ids.
    rewrite last_n_drops_oldest by (simpl in H; rewrite length_map; lia).
    simpl in H0. inversion H0; subst. assumption.
  - destruct (run_iterations cfg state w) as [Hi _].
    destruct (iterations_In _ _ _ _ Hi H) as [w' [Hc Ha]].
    unfold recorded in H0. rewrite Hc in H0. rewrite Ha.
    apply (process_event_timestamp _ _ _ _), proj2 in H0. tauto.
  - destruct (run_iterations cfg state w) as [Hi _].
    destruct (iterations_In _ _ _ _ Hi H) as [w' [Hc Ha]].
    unfold recorded in H0. rewrite Hc in H0. rewrite Hc, Ha.
    apply (process_event_timestamp _ _ _ _), proj2 in H0. tauto.
  - destruct (run_iterations cfg state w) as [Hi ->].
    apply iterations_monotone with (1 := Hi).
  - destruct (run_iterations cfg state w) as [Hi _].
    apply Forall_forall. intros it Hin.
    destruct (iterations_In _ _ _ _ Hi Hin) as [w' [_ ->]].
    apply process_event_timestamp.
Qed.

(** ** What is saved, and the next fetch *)

Lemma fetch_media_in_loop client urls : forall w,
  Forall (fun c => before_loop c = false /\ is_dump_state c = false)
         (md_calls (fetch_media O client w urls)).
Proof.
  induction urls as [|url rest IH]; intros w; simpl; [constructor|].
  destruct (snd (on_download_media O w url)) as [path|]; [destruct client|];
    simpl; repeat (constructor; [simpl; auto|]); apply IH.
Qed.

(** The calls of an iteration are calls of the loop, and the only state an
    iteration hands to the state file is the state it leaves. *)
Lemma process_event_in_loop cl state nlt w e :
  let s := process_event O L cl state nlt w e in
  Forall (fun c => before_loop c = false
                   /\ (is_dump_state c = true -> c = dump_state (sp_state s)))
         (sp_calls s).
Proof.
  destruct (mem (event_id e) (synced_event_ids state)) eqn:Hd;
    [unfold process_event; rewrite Hd; constructor|].
  destruct (is_reply e) eqn:Hr;
    [unfold process_event; rewrite Hd, Hr; constructor|].
  destruct (fromtimestamp_ok L (created_at e)) eqn:Hf;
    [|unfold process_event; rewrite Hd, Hr, Hf; constructor].
  cbv zeta. rewrite (process_event_processed cl state nlt w e Hd Hr Hf).
  cbn [sp_calls sp_state].
  set (cm := extract_media_urls (content e)).
  set (m := fetch_media O (twitter_client cl) w (snd cm)).
  pose proof (fetch_media_in_loop (twitter_client cl) (snd cm) w) as Hm.
  fold m in Hm.
  apply Forall_app; split; [|apply Forall_app; split].
  - eapply Forall_impl; [|exact Hm]. intros c [H1 H2]. split; congruence.
  - destruct (post_to_twitter_cases cl state nlt (md_world m) e (fst cm)
                (md_media_ids m))
      as [[Hv ->]|[(Hv & _ & -> & _ & ->)|(Hv & _ & -> & _ & ->)]].
    + constructor.
    + constructor; [simpl; split; [auto | discriminate] | constructor].
    + constructor; [simpl; split; [auto | discriminate]|].
      constructor; [simpl; auto | constructor].
  - apply Forall_app; split.
    + apply Forall_forall. intros c Hc. apply in_map_iff in Hc.
      destruct Hc as [path [<- _]]. simpl. split; [auto | discriminate].
    + constructor; [simpl; split; [auto | discriminate] | constructor].
Qed.

Lemma iterations_in_loop cl state items :
  iterations O L cl state items ->
  Forall (fun c => before_loop c = false) (concat (map it_calls items)).
Proof.
  induction 1 as [|state w e items s Hi IH]; simpl; [constructor|].
  apply Forall_app; split; [|exact IH].
  eapply Forall_impl;
    [|apply (process_event_in_loop cl state (last_synced_timestamp state) w e)].
  intros c [H _]. exact H.
Qed.

(** The one fetch before the loop: what it asks for and what the run makes
    of its answer. *)
Lemma connect_and_fetch_fetch cfg state w authors since res :
  In (fetch_events authors since res)
     (fe_calls (connect_and_fetch O L cfg state w)) ->
  since = (last_synced_timestamp state + 1)%Z
  /\ authors = MONITORED_NPUBS cfg
  /\ res = fe_events (connect_and_fetch O L cfg state w).
Proof.
  unfold connect_and_fetch.
  assert (Hn : ~ In (fetch_events authors since res)
                    (pg_calls (setup_nostr O w (NOSTR_RELAYS cfg)))).
  { unfold setup_nostr.
    assert (Ha : forall relays w0,
               ~ In (fetch_events authors since res)
                    (pg_calls (add_relays O w0 relays))).
    { induction relays as [|relay rest IH]; intros w0; simpl; [tauto|].
      destruct (snd (on_add_relay O w0 relay)); simpl.
      - intros [H|H]; [discriminate | exact (IH _ H)].
      - intros [H|H]; [discriminate | exact H]. }
    destruct (pg_ok (add_relays O w (NOSTR_RELAYS cfg))); simpl;
      [|apply Ha].
    intros H. apply in_app_or in H. destruct H as [H|[H|[]]];
      [exact (Ha _ _ H) | discriminate]. }
  repeat match goal with
         | |- context [if negb ?b then _ else _] => destruct b; simpl
         end; try tauto.
  intros H. apply in_app_or in H. destruct H as [H|[H|[]]]; [tauto|].
  inversion H; subst. auto.
Qed.

Lemma run_calls_cases cfg state w :
  run_calls (run O L cfg state w) = []
  \/ (MONITORED_NPUBS cfg <> [] /\
      run_calls (run O L cfg state w)
      = fe_calls (connect_and_fetch O L cfg state w)).
Proof.
  unfold run. destruct (MONITORED_NPUBS cfg); simpl; [auto|].
  right. split; [discriminate|].
  destruct (fe_events (connect_and_fetch O L cfg state w)) as [events|];
    simpl; [|reflexivity].
  destruct (sort_by_created_at events); reflexivity.
Qed.

Lemma run_calls_fetching cfg state w :
  MONITORED_NPUBS cfg <> [] ->
  run_calls (run O L cfg state w)
  = fe_calls (connect_and_fetch O L cfg state w).
Proof.
  intros Hn. destruct (run_calls_cases cfg state w) as [E|[_ E]]; [|exact E].
  revert E. unfold run. destruct (MONITORED_NPUBS cfg); [congruence|].
  destruct (fe_events (connect_and_fetch O L cfg state w)) as [events|];
    simpl; [destruct (sort_by_created_at events); simpl|]; congruence.
Qed.

(** A run that fetches asks for the events not older than the second after
    the timestamp of the state it started from. *)
Lemma run_fetch_since cfg state w authors since res :
  In (fetch_events authors since res) (trace (run O L cfg state w)) ->
  since = (last_synced_timestamp state + 1)%Z.
Proof.
  unfold trace. intros Hin. apply in_app_or in Hin. destruct Hin as [Hin|Hin].
  - destruct (run_calls_cases cfg state w) as [E|[_ E]]; rewrite E in Hin;
      [destruct Hin|].
    apply connect_and_fetch_fetch in Hin. tauto.
  - destruct (run_iterations cfg state w) as [Hi _].
    apply iterations_in_loop in Hi. rewrite Forall_forall in Hi.
    specialize (Hi _ Hin). discriminate.
Qed.

Lemma last_dumped_app calls1 calls2 :
  last_dumped (calls1 ++ calls2)
  = match last_dumped calls2 with
    | Some st => Some st
    | None => last_dumped calls1
    end.
Proof.
  unfold last_dumped. rewrite fold_left_app.
  generalize (fold_left
                (fun acc c => match c with dump_state st => Some st | _ => acc end)
                calls1 None).
  induction calls2 as [|c calls2 IH] using rev_ind; intros acc.
  - reflexivity.
  - rewrite !fold_left_app. simpl. destruct c; auto.
Qed.

Lemma last_dumped_none calls :
  Forall (fun c => is_dump_state c = false) calls -> last_dumped calls = None.
Proof.
  induction calls as [|c calls IH] using rev_ind; intros H; [reflexivity|].
  apply Forall_app in H. destruct H as [H1 H2]. inversion H2; subst.
  rewrite last_dumped_app. destruct c; try discriminate; simpl; auto.
Qed.

Lemma last_dumped_only st calls :
  In (dump_state st) calls ->
  Forall (fun c => is_dump_state c = true -> c = dump_state st) calls ->
  last_dumped calls = Some st.
Proof.
  induction calls as [|c calls IH] using rev_ind; intros Hin H; [destruct Hin|].
  apply Forall_app in H. destruct H as [H1 H2]. inversion H2; subst.
  rewrite last_dumped_app.
  destruct c; try (simpl; apply IH; auto; apply in_app_or in Hin;
                   destruct Hin as [|[|[]]]; [assumption | discriminate]).
  simpl. pose proof (H3 eq_refl) as E. inversion E. reflexivity.
Qed.

(** Iterations that record nothing save nothing and leave the state alone. *)
Lemma iterations_unrecorded cl state items :
  iterations O L cl state items ->
  existsb recorded items = false ->
  last_dumped (concat (map it_calls items)) = None
  /\ state_after state items = state.
Proof.
  induction 1 as [|state w e items s Hi IH]; simpl; [auto|].
  unfold recorded at 1. simpl. intros E.
  apply orb_false_iff in E. destruct E as [E1 E2].
  destruct (process_event_unrecorded cl state
              (last_synced_timestamp state) w e E1) as (Hs & _ & Hd).
  fold s in Hs, Hd. destruct (IH E2) as [IH1 IH2].
  rewrite last_dumped_app, IH1. split; [apply last_dumped_none, Hd|].
  rewrite Hs in IH2 |- *. exact IH2.
Qed.

(** The last state handed to the state file is the state the loop ends in,
    as soon as an event was recorded. *)
Lemma iterations_last_dumped cl state items :
  iterations O L cl state items ->
  existsb recorded items = true ->
  last_dumped (concat (map it_calls items)) = Some (state_after state items).
Proof.
  induction 1 as [|state w e items s Hi IH]; simpl; [discriminate|].
  intros Hrec. rewrite last_dumped_app. unfold recorded at 1 in Hrec.
  simpl in Hrec.
  destruct (existsb recorded items) eqn:E.
  - rewrite (IH eq_refl). reflexivity.
  - rewrite orb_false_r in Hrec.
    pose proof (iterations_unrecorded _ _ _ Hi E) as Hnone.
    destruct Hnone as [-> Hst]. change (fold_left (fun _ it => it_after it)
      items (sp_state s)) with (state_after (sp_state s) items).
    rewrite Hst.
    apply last_dumped_only.
    + apply (process_event_timestamp cl state w e). exact Hrec.
    + eapply Forall_impl;
        [|apply (process_event_in_loop cl state
                   (last_synced_timestamp state) w e)].
      intros c [_ H]. exact H.
Qed.

Lemma iterations_final_ge cl state items it :
  iterations O L cl state items -> In it items ->
  (last_synced_timestamp (it_after it)
   <= last_synced_timestamp (state_after state items))%Z.
Proof.
  intros Hi Hin. apply in_split in Hin. destruct Hin as (pre & post & ->).
  apply iterations_app in Hi. destruct Hi as [_ Hi].
  apply iterations_head in Hi. destruct Hi as [_ Hi].
  apply iterations_monotone in Hi.
  unfold state_after in *. rewrite fold_left_app. simpl. exact Hi.
Qed.

(** C5.  When, in one run, the tweet of an event failed and an event with a
    later timestamp was posted and recorded, then the state saved for the
    later event, the state the run ends in and the last state handed to the
    state file (the same state) all have a timestamp at or above the later
    event's; and every fetch of a run started from that state asks for
    [since = last_synced_timestamp + 1], which does not admit the event whose
    tweet failed. *)
Theorem later_success_shadows_failure cfg state w it1 it2 :
  let r := run O L cfg state w in
  In it1 (run_items r) -> In it2 (run_items r) ->
  existsb tweet_failed (it_calls it1) = true ->
  recorded it2 = true ->
  (created_at (it_event it1) < created_at (it_event it2))%Z ->
  In (dump_state (it_after it2)) (it_calls it2)
  /\ (created_at (it_event it2) <= last_synced_timestamp (it_after it2))%Z
  /\ (created_at (it_event it2) <= last_synced_timestamp (run_state r))%Z
  /\ last_dumped (trace r) = Some (run_state r)
  /\ forall cfg' w' authors since res,
       In (fetch_events authors since res)
          (trace (run O L cfg' (run_state r) w')) ->
       since = (last_synced_timestamp (run_state r) + 1)%Z
       /\ since_admits since (created_at (it_event it1)) = false.
Proof.
  intros r Hin1 Hin2 Hfail Hrec Hlt.
  destruct (run_iterations cfg state w) as [Hi Hs]. fold r in Hi, Hs.
  destruct (iterations_In _ _ _ _ Hi Hin2) as [w2 [Hc2 Ha2]].
  pose proof Hrec as Hrec'. unfold recorded in Hrec'. rewrite Hc2 in Hrec'.
  apply (process_event_timestamp _ _ _ _) in Hrec'.
  destruct Hrec' as (Hge & _ & Hdump). rewrite <- Ha2 in Hge, Hdump.
  rewrite <- Hc2 in Hdump.
  pose proof (iterations_final_ge _ _ _ _ Hi Hin2) as Hfin.
  rewrite <- Hs in Hfin.
  split; [exact Hdump|]. split; [exact Hge|]. split; [lia|]. split.
  - unfold trace. rewrite last_dumped_app.
    rewrite (iterations_last_dumped _ _ _ Hi), Hs; [reflexivity|].
    apply existsb_exists. exists it2. auto.
  - intros cfg' w' authors since res Hf.
    apply run_fetch_since in Hf. split; [exact Hf|].
    unfold since_admits. apply Z.leb_gt. lia.
Qed.

(** ** Order of publication *)

Lemma insert_by_created_at_perm e l :
  Permutation (insert_by_created_at e l) (e :: l).
Proof.
  induction l as [|x l IH]; simpl; [reflexivity|].
  destruct (created_at e <=? created_at x)%Z; [reflexivity|].
  rewrite IH. apply perm_swap.
Qed.

Lemma sort_by_created_at_perm l : Permutation (sort_by_created_at l) l.
Proof.
  induction l as [|e l IH]; simpl; [reflexivity|].
  rewrite insert_by_created_at_perm. constructor. exact IH.
Qed.

Lemma insert_by_created_at_sorted e l :
  StronglySorted by_created_at l ->
  StronglySorted by_created_at (insert_by_created_at e l).
Proof.
  induction 1 as [|x l Hs IH Hx]; simpl.
  - constructor; constructor.
  - destruct (Z.leb_spec (created_at e) (created_at x)).
    + constructor; [constructor; assumption|].
      constructor; [exact H|].
      eapply Forall_impl; [|exact Hx].
      unfold by_created_at. intros; lia.
    + constructor; [exact IH|].
      eapply Permutation_Forall;
        [symmetry; apply insert_by_created_at_perm|].
      constructor; [unfold by_created_at; lia | exact Hx].
Qed.

Lemma sort_by_created_at_sorted l :
  StronglySorted by_created_at (sort_by_created_at l).
Proof.
  induction l as [|e l IH]; simpl;
    [constructor | apply insert_by_created_at_sorted, IH].
Qed.

(** The sort is stable: the events of one timestamp keep their order. *)
Lemma sort_by_created_at_stable k l :
  filter (fun e => created_at e =? k)%Z (sort_by_created_at l)
  = filter (fun e => created_at e =? k)%Z l.
Proof.
  assert (Hins : forall e l0,
             filter (fun x => created_at x =? k)%Z (insert_by_created_at e l0)
             = filter (fun x => created_at x =? k)%Z (e :: l0)).
  { intros e l0. induction l0 as [|x l0 IH]; [reflexivity|].
    simpl insert_by_created_at.
    destruct (Z.leb_spec (created_at e) (created_at x)); [reflexivity|].
    simpl in *. rewrite IH.
    destruct (Z.eqb_spec (created_at e) k); [|reflexivity].
    destruct (Z.eqb_spec (created_at x) k); [lia | reflexivity]. }
  induction l as [|e l IH]; [reflexivity|].
  simpl sort_by_created_at. rewrite Hins. simpl. rewrite IH. reflexivity.
Qed.

(** Two sorted arrangements of the same events coincide when no two of the
    events share a timestamp. *)
Lemma sorted_arrangement_unique l1 : forall l2,
  StronglySorted by_created_at l1 -> StronglySorted by_created_at l2 ->
  Permutation l1 l2 ->
  (forall a b, In a l1 -> In b l1 -> created_at a = created_at b -> a = b) ->
  l1 = l2.
Proof.
  induction l1 as [|a l1 IH]; intros l2 H1 H2 Hp Hinj.
  - apply Permutation_nil in Hp. subst. reflexivity.
  - destruct l2 as [|b l2];
      [apply Permutation_sym, Permutation_nil in Hp; discriminate|].
    inversion H1 as [|? ? Hs1 Ha]; subst. inversion H2 as [|? ? Hs2 Hb]; subst.
    assert (Hab : a = b).
    { assert (Hina : In a (b :: l2))
        by (eapply Permutation_in; [exact Hp | left; reflexivity]).
      assert (Hinb : In b (a :: l1))
        by (eapply Permutation_in;
            [symmetry; exact Hp | left; reflexivity]).
      destruct Hina as [->|Hina]; [reflexivity|].
      destruct Hinb as [->|Hinb]; [reflexivity|].
      rewrite Forall_forall in Ha, Hb.
      apply Hinj; [left; reflexivity | right; exact Hinb|].
      pose proof (Ha _ Hinb). pose proof (Hb _ Hina).
      unfold by_created_at in *. lia. }
    subst b. f_equal. apply IH; auto.
    + eapply Permutation_cons_inv. exact Hp.
    + intros x y Hx Hy. apply Hinj; right; assumption.
Qed.

Lemma sorted_filter (A : Type) (g : A -> Event) (f : A -> bool) l :
  StronglySorted by_created_at (map g l) ->
  StronglySorted by_created_at (map g (filter f l)).
Proof.
  induction l as [|x l IH]; simpl; intros H; [constructor|].
  inversion H as [|? ? Hs Hx]; subst.
  destruct (f x); simpl; [|apply IH, Hs].
  constructor; [apply IH, Hs|].
  rewrite Forall_forall in *. intros y Hy. apply Hx.
  apply in_map_iff in Hy. destruct Hy as [z [<- Hz]].
  apply in_map. apply filter_In in Hz. tauto.
Qed.

(** The loop takes the events in the order of the list, up to the event at
    which an exception ends it. *)
Lemma process_events_order cl evs : forall state nlt w,
  let l := process_events O L cl state nlt w evs in
  (exists rest, evs = map it_event (lp_items l) ++ rest)
  /\ (lp_raised l = false -> map it_event (lp_items l) = evs).
Proof.
  induction evs as [|e rest IH]; intros state nlt w; simpl.
  - split; [exists []; reflexivity | reflexivity].
  - destruct (sp_raised (process_event O L cl state nlt w e)); simpl.
    + split; [exists rest; reflexivity | discriminate].
    + destruct (IH (sp_state (process_event O L cl state nlt w e))
                   (sp_new_last_ts (process_event O L cl state nlt w e))
                   (sp_world (process_event O L cl state nlt w e)))
        as [[rest' Hr] Hall].
      split.
      * exists rest'. f_equal. exact Hr.
      * intros H. f_equal. exact (Hall H).
Qed.

Lemma sorted_prefix l1 l2 :
  StronglySorted by_created_at (l1 ++ l2) -> StronglySorted by_created_at l1.
Proof.
  induction l1 as [|x l1 IH]; simpl; intros H; [constructor|].
  inversion H as [|? ? Hs Hx]; subst. constructor; [apply IH, Hs|].
  apply Forall_app in Hx. tauto.
Qed.

(** What a run does with the events its fetch returned. *)
Lemma run_after_fetch cfg state w authors since fetched :
  In (fetch_events authors since (Some fetched))
     (run_calls (run O L cfg state w)) ->
  let r := run O L cfg state w in
  (exists rest, sort_by_created_at fetched = map it_event (run_items r) ++ rest)
  /\ (run_raised r = false ->
      map it_event (run_items r) = sort_by_created_at fetched).
Proof.
  intros Hin.
  destruct (run_calls_cases cfg state w) as [E|[Hn E]]; rewrite E in Hin;
    [destruct Hin|].
  apply connect_and_fetch_fetch in Hin. destruct Hin as (_ & _ & Hf).
  unfold run. destruct (MONITORED_NPUBS cfg); [congruence|].
  rewrite <- Hf. simpl.
  destruct (sort_by_created_at fetched) as [|e rest] eqn:Es; simpl.
  - split; [exists []; reflexivity | reflexivity].
  - apply (process_events_order (setup_twitter cfg) (e :: rest)).
Qed.

Lemma run_items_sorted cfg state w :
  StronglySorted by_created_at (map it_event (run_items (run O L cfg state w))).
Proof.
  unfold run. destruct (MONITORED_NPUBS cfg); simpl; [constructor|].
  destruct (fe_events (connect_and_fetch O L cfg state w)) as [events|];
    simpl; [|constructor].
  pose proof (sort_by_created_at_sorted events) as Hs.
  destruct (sort_by_created_at events) as [|e rest] eqn:Es; simpl;
    [constructor|].
  destruct (process_events_order (setup_twitter cfg) (e :: rest) state
              (last_synced_timestamp state)
              (fe_world (connect_and_fetch O L cfg state w)))
    as [[rest' Hr] _].
  simpl in Hr. rewrite Hr in Hs. apply sorted_prefix in Hs. exact Hs.
Qed.

(** C3.  In every run the loop takes the events, and so makes its publish
    calls, in ascending order of [created_at]: the events of the log, and
    among them those for which a publish call was made, are sorted; they are
    an initial part of the fetched events sorted by [created_at], all of them
    when no exception ended the run.  In particular, three fetched events
    with timestamps T1 < T2 < T3 are taken in the order T1, T2, T3 whatever
    the order in which they arrived. *)
Theorem publish_order_ascending cfg state w :
  let r := run O L cfg state w in
  StronglySorted by_created_at (map it_event (run_items r))
  /\ StronglySorted by_created_at (publish_attempts (run_items r))
  /\ forall authors since fetched,
       In (fetch_events authors since (Some fetched)) (run_calls r) ->
       (exists rest,
           sort_by_created_at fetched = map it_event (run_items r) ++ rest)
       /\ (run_raised r = false ->
           map it_event (run_items r) = sort_by_created_at fetched)
       /\ forall e1 e2 e3,
            Permutation fetched [e1; e2; e3] ->
            (created_at e1 < created_at e2)%Z ->
            (created_at e2 < created_at e3)%Z ->
            sort_by_created_at fetched = [e1; e2; e3].
Proof.
  intros r. split; [apply run_items_sorted|].
  split; [apply sorted_filter, run_items_sorted|].
  intros authors since fetched Hin.
  destruct (run_after_fetch cfg state w authors since fetched Hin)
    as [Hpre Hall].
  split; [exact Hpre|]. split; [exact Hall|].
  intros e1 e2 e3 Hp H12 H23.
  symmetry. apply sorted_arrangement_unique.
  - repeat constructor; unfold by_created_at; lia.
  - apply sort_by_created_at_sorted.
  - rewrite sort_by_created_at_perm. symmetry. exact Hp.
  - simpl. intros a b Ha Hb Hab.
    repeat match goal with H : _ \/ _ |- _ => destruct H end;
      subst; try reflexivity; try lia; try contradiction.
Qed.

(** ** Duplicates within a batch *)

Lemma last_n_le a b l : (a <= b)%nat -> last_n a (last_n b l) = last_n a l.
Proof.
  intros H. unfold last_n. rewrite skipn_skipn, length_skipn. f_equal. lia.
Qed.

Lemma last_n_snoc m l x : last_n (S m) (l ++ [x]) = last_n m l ++ [x].
Proof.
  unfold last_n. rewrite length_app, skipn_app. simpl.
  replace (length l + 1 - S m)%nat with (length l - m)%nat by lia.
  replace (length l - m - length l)%nat with 0%nat by lia. reflexivity.
Qed.

Lemma last_n_In m l x : In x (last_n m l) -> In x l.
Proof.
  unfold last_n. intros H.
  rewrite <- (firstn_skipn (length l - m) l). apply in_or_app. auto.
Qed.

(** An id among the last [m] of the list is among the last [m + 1] after one
    more recording, as long as [m < 1000]. *)
Lemma record_published_keeps m state nlt e id :
  In id (last_n m (synced_event_ids state)) -> (m < 1000)%nat ->
  In id (last_n (S m) (synced_event_ids (fst (record_published state nlt e)))).
Proof.
  intros Hin Hm.
  assert (Hs : synced_event_ids (fst (record_published state nlt e))
               = last_n 1000 (synced_event_ids state ++ [event_id e])).
  { unfold record_published. destruct (created_at e >? nlt)%Z; reflexivity. }
  rewrite Hs, last_n_le, last_n_snoc by lia.
  apply in_or_app. auto.
Qed.

(** The id just recorded is the last of the list. *)
Lemma record_published_recent state nlt e :
  In (event_id e)
     (last_n 1 (synced_event_ids (fst (record_published state nlt e)))).
Proof.
  assert (Hs : synced_event_ids (fst (record_published state nlt e))
               = last_n 1000 (synced_event_ids state ++ [event_id e])).
  { unfold record_published. destruct (created_at e >? nlt)%Z; reflexivity. }
  rewrite Hs, last_n_le, last_n_snoc by lia.
  apply in_or_app. right. left. reflexivity.
Qed.

Lemma iterations_keep_recent cl state items id :
  iterations O L cl state items ->
  forall m,
    In id (last_n m (synced_event_ids state)) ->
    (m + length (filter recorded items) <= 1000)%nat ->
    In id (synced_event_ids (state_after state items)).
Proof.
  induction 1 as [|state w e items s Hi IH]; intros m Hin Hm.
  - simpl. eapply last_n_In, Hin.
  - simpl in Hm. unfold recorded at 1 in Hm. simpl in Hm.
    change (state_after state (mkItem e state (sp_calls s) (sp_state s) :: items))
      with (state_after (sp_state s) items).
    destruct (existsb tweet_ok (sp_calls s)) eqn:E.
    + simpl in Hm. apply (IH (S m)); [|lia].
      destruct (process_event_timestamp cl state w e) as [_ H].
      destruct (H E) as (_ & Hs & _). fold s in Hs. rewrite Hs.
      apply record_published_keeps; [exact Hin | lia].
    + destruct (process_event_unrecorded cl state
                  (last_synced_timestamp state) w e E) as (Hs & _).
      fold s in Hs. apply (IH m); [rewrite Hs; exact Hin | lia].
Qed.

(** An entry with calls is an entry of an event that is neither a known
    duplicate nor a reply, and whose timestamp converts. *)
Lemma process_event_not_skipped cl state nlt w e :
  sp_calls (process_event O L cl state nlt w e) <> [] ->
  mem (event_id e) (synced_event_ids state) = false
  /\ is_reply e = false /\ fromtimestamp_ok L (created_at e) = true.
Proof.
  intros H.
  destruct (mem (event_id e) (synced_event_ids state)) eqn:Hd;
    [destruct H; apply process_event_skipped; auto|].
  destruct (is_reply e) eqn:Hr;
    [destruct H; apply process_event_skipped; auto|].
  destruct (fromtimestamp_ok L (created_at e)) eqn:Hf;
    [auto | destruct H; apply process_event_skipped; auto].
Qed.

(** C10, as amended.  Let an id occur twice in the log of a run.  When the
    first occurrence was posted and recorded and fewer than 1000 events were
    recorded between the two, the later occurrence is skipped: no call, state
    untouched.  In a dry run, or when the tweet of the first occurrence
    failed, the id is not recorded by that iteration; and if nothing is
    recorded up to the later occurrence of the same event, the later
    occurrence finds the state the first one found and is processed again
    whenever the first one was. *)
Theorem duplicate_in_batch cfg state w pre it1 between it2 post :
  run_items (run O L cfg state w) = pre ++ it1 :: between ++ it2 :: post ->
  event_id (it_event it2) = event_id (it_event it1) ->
  (recorded it1 = true ->
   (length (filter recorded between) < 1000)%nat ->
   it_calls it2 = [] /\ it_after it2 = it_before it2)
  /\ (twitter_v2 (setup_twitter cfg) = false
      \/ existsb tweet_failed (it_calls it1) = true ->
      recorded it1 = false
      /\ it_after it1 = it_before it1
      /\ (existsb recorded between = false ->
          it_event it2 = it_event it1 ->
          it_calls it1 <> [] ->
          it_before it2 = it_before it1 /\ In sleep (it_calls it2))).
Proof.
  intros Hitems Hid.
  destruct (run_iterations cfg state w) as [Hi _]. rewrite Hitems in Hi.
  apply iterations_app in Hi. destruct Hi as [_ Hi].
  pose proof Hi as Hi1.
  change (it1 :: between ++ it2 :: post)
    with ([it1] ++ between ++ it2 :: post) in Hi1.
  apply iterations_app in Hi1. destruct Hi1 as [Hone Hi1].
  change (state_after (state_after state pre) [it1]) with (it_after it1) in Hi1.
  apply iterations_app in Hi1. destruct Hi1 as [Hbet Hi2].
  apply iterations_head in Hi2. destruct Hi2 as [Hb2 _].
  assert (Hin1 : In it1 [it1]) by (left; reflexivity).
  destruct (iterations_In _ _ _ _ Hone Hin1) as [w1 [Hc1 Ha1]].
  assert (Hin2 : In it2 (run_items (run O L cfg state w)))
    by (rewrite Hitems; apply in_or_app; right; right;
        apply in_or_app; right; left; reflexivity).
  destruct (run_iterations cfg state w) as [Hall _].
  destruct (iterations_In _ _ _ _ Hall Hin2) as [w2 [Hc2 Ha2]].
  split.
  - intros Hrec Hfew.
    assert (Hmem : mem (event_id (it_event it2))
                       (synced_event_ids (it_before it2)) = true).
    { apply mem_In. rewrite Hb2, Hid.
      apply (iterations_keep_recent _ _ _ _ Hbet 1); [|lia].
      unfold recorded in Hrec. rewrite Hc1 in Hrec.
      apply (process_event_timestamp _ _ _ _) in Hrec.
      destruct Hrec as (_ & Hs & _). rewrite Ha1, Hs.
      apply record_published_recent. }
    destruct (process_event_skipped (setup_twitter cfg) (it_before it2)
                (last_synced_timestamp (it_before it2)) w2 (it_event it2)
                (or_introl Hmem)) as (Hc & Hs & _).
    rewrite Hc2, Ha2, Hc, Hs. auto.
  - intros Hdry.
    assert (Hnot : recorded it1 = false /\ it_after it1 = it_before it1).
    { unfold recorded. rewrite Hc1, Ha1.
      destruct (process_event_outcome (setup_twitter cfg) (it_before it1)
                  (last_synced_timestamp (it_before it1)) w1 (it_event it1))
        as [(Hc & Hs & _)|[(_ & _ & Hs & _ & Hf & _)
                          |(_ & _ & Hv & _ & _ & _ & Hf & _)]].
      - rewrite Hc, Hs. auto.
      - rewrite Hs. split; [|reflexivity].
        apply existsb_false_Forall. eapply Forall_impl; [|exact Hf].
        intros ? [? ?]; assumption.
      - destruct Hdry as [Hdry|Hdry]; [congruence|].
        rewrite Hc1 in Hdry. apply existsb_false_Forall in Hf. congruence. }
    destruct Hnot as [Hnrec Hsame]. repeat split; auto.
    + destruct (iterations_unrecorded _ _ _ Hbet H) as [_ Hst].
      rewrite Hb2, Hst. exact Hsame.
    + destruct (iterations_unrecorded _ _ _ Hbet H) as [_ Hst].
      assert (Hbefore : it_before it2 = it_before it1)
        by (rewrite Hb2, Hst; exact Hsame).
      rewrite Hc1 in H1. apply process_event_not_skipped in H1.
      destruct H1 as (Hd & Hr & Hf).
      rewrite Hc2, Hbefore, H0.
      rewrite (process_event_processed _ _ _ w2 _ Hd Hr Hf). simpl.
      apply in_or_app; right. apply in_or_app; right.
      apply in_or_app; right. left. reflexivity.
Qed.

(** ** Configuration errors *)


End SyncFacts.

(* ================================================================== *)
(** * Concrete texts and runs *)
(* ================================================================== *)


(** C10, refuted as stated: in a batch that holds event 0, a thousand other
    events and event 0 again, all accepted, the first occurrence is posted
    and recorded, its id is evicted by the thousand recordings that follow,
    and the second occurrence is posted too. *)
Lemma eviction_lets_duplicate_through :
  let first := nth 0 (run_items flood_run) no_item in
  let later := nth 1001 (run_items flood_run) no_item in
  event_id (it_event later) = event_id (it_event first)
  /\ recorded first = true
  /\ existsb is_create_tweet (it_calls later) = true
  /\ it_calls later <> [].
Proof.
  intros first later.
  assert (H : str_eqb (event_id (it_event later)) (event_id (it_event first))
              && recorded first
              && existsb is_create_tweet (it_calls later) = true)
    by (vm_compute; reflexivity).
  apply andb_true_iff in H. destruct H as [H H3].
  apply andb_true_iff in H. destruct H as [H1 H2].
  apply str_eqb_eq in H1.
  split; [exact H1|]. split; [exact H2|]. split; [exact H3|].
  intros E. rewrite E in H3. discriminate H3.
Qed.

(** C9, refuted as stated: the path of this URL ends in [.jpg], a query string
    follows, and the URL is not classified as media: it stays in the text and
    the media list is empty. *)
Lemma query_string_defeats_media_test :
  let url := py "https://x.org/a.jpg?w=1" in
  spec_is_media url = true
  /\ is_media url = false
  /\ extract_media_urls (py "see https://x.org/a.jpg?w=1")
     = (py "see https://x.org/a.jpg?w=1", []).
Proof. vm_compute. auto. Qed.

Lemma media_test_is_on_whole_token_witness :
  let url := py "http://a.b/c.PNG" in
  let query := py "?w=12" in
  (url_path url = url /\ (5 <= length query)%nat)
  /\ is_media url = spec_is_media url
  /\ is_media (url ++ query) = is_media query.
Proof.
  intros url query.
  assert (Hq : (5 <= length query)%nat) by (simpl; lia).
  split; [split; [reflexivity | exact Hq]|].
  destruct (media_test_is_on_whole_token url) as (_ & H2 & H3 & _).
  split; [exact (H2 eq_refl) | exact (H3 query Hq)].
Defined.

(** The two texts that follow hold a media URL inside another URL token. *)
Lemma nested_media_urls :
  not_nested
    (findall_urls (py "http://a.jpg http://c.jpg http://http://c.jpga.jpg"))
  = false
  /\ not_nested (findall_urls (py "http://a.jpg http://a.jpg/index.html"))
     = false.
Proof. split; reflexivity. Qed.

(** C8, refuted as stated.  In the first text the token [http://a.jpg] is
    deleted, and comes back when the deletion of [http://c.jpg] joins what
    stood on either side of an occurrence of it.  In the second text the
    deletion of [http://a.jpg] takes the head of the [.html] URL away. *)
Lemma deleted_url_reappears :
  let text1 := py "http://a.jpg http://c.jpg http://http://c.jpga.jpg" in
  let text2 := py "http://a.jpg http://a.jpg/index.html" in
  let jpg := py "http://a.jpg" in
  let html := py "http://a.jpg/index.html" in
  (In jpg (findall_urls text1)
   /\ endswith jpg (py ".jpg") = true
   /\ contains (fst (extract_media_urls text1)) jpg = true)
  /\ (In html (findall_urls text2)
      /\ endswith html (py ".html") = true
      /\ contains (fst (extract_media_urls text2)) html = false).
Proof.
  vm_compute. repeat split; auto.
Qed.

Lemma media_extraction_witness :
  let content := py "look http://a.b/pic.jpg now" in
  let u := py "http://a.b/pic.jpg" in
  let mixed := py "a http://x.y/p.jpg b https://y.z/q.html" in
  let jpg := py "http://x.y/p.jpg" in
  let html := py "https://y.z/q.html" in
  let plain := py "read https://y.z/q.html" in
  let album := py " a http://x.y/1.jpg b https://y.z/q.html http://x.y/2.png" in
  let one := py "http://x.y/1.jpg" in
  let two := py "http://x.y/2.png" in
  (findall_urls content = [u] /\ is_media u = true
   /\ In jpg (findall_urls mixed) /\ endswith jpg (py ".jpg") = true
   /\ endswith html (py ".html") = true
   /\ Forall (fun x => is_media x = false) (findall_urls plain)
   /\ not_nested (findall_urls album) = true
   /\ findall_urls album = [one; html; two]
   /\ snd (extract_media_urls album) = [one; two]
   /\ is_media html = false)
  /\ snd (extract_media_urls content) = [u]
  /\ contains (fst (extract_media_urls content)) u = false
  /\ In jpg (snd (extract_media_urls mixed))
  /\ ~ In html (snd (extract_media_urls mixed))
  /\ extract_media_urls plain = (plain, [])
  /\ findall_urls (fst (extract_media_urls album)) = [html]
  /\ contains (fst (extract_media_urls album)) one = false
  /\ contains (fst (extract_media_urls album)) two = false
  /\ contains (fst (extract_media_urls album)) html = true.
Proof.
  intros content u mixed jpg html plain album one two.
  assert (Hj : In jpg (findall_urls mixed)) by (left; reflexivity).
  assert (Hp : Forall (fun x => is_media x = false) (findall_urls plain))
    by (repeat constructor).
  assert (Hnn : not_nested (findall_urls album) = true) by reflexivity.
  assert (Ha : snd (extract_media_urls album) = [one; two]) by reflexivity.
  split; [repeat split; try reflexivity; assumption|].
  destruct (proj1 (proj2 (proj2 (proj2 (media_extraction content)))) u
              eq_refl eq_refl) as (H1 & H2 & _).
  destruct (media_extraction mixed) as (H3 & H4 & _).
  destruct (media_extraction plain) as (_ & _ & H5 & _).
  destruct (proj2 (proj2 (proj2 (proj2 (media_extraction album)))) Hnn)
    as (H6 & H7 & H8 & _).
  split; [exact H1|]. split; [exact H2|].
  split; [exact (H3 jpg Hj eq_refl)|].
  split; [exact (H4 html eq_refl)|]. split; [exact (H5 Hp)|].
  split; [etransitivity; [exact H6 | reflexivity]|].
  split; [apply H7; rewrite Ha; left; reflexivity|].
  split; [apply H7; rewrite Ha; right; left; reflexivity|].
  apply H8; [right; left; reflexivity | reflexivity].
Defined.

Lemma dry_run_checkpoint_untouched_witness :
  TWITTER_API_KEY (without_credentials alice []) = None
  /\ existsb is_network (trace dry) = true
  /\ Forall (fun c => is_publish c = false /\ is_dump_state c = false)
            (trace dry)
  /\ synced_event_ids (run_state dry) = synced_event_ids state0.
Proof.
  split; [reflexivity|]. split; [reflexivity|].
  destruct (dry_run_checkpoint_untouched unit
              (picky [post "a1" 2000 "look http://a.b/pic.jpg"]) lib_ok
              (without_credentials alice []) state0 tt
              (or_introl eq_refl)) as (H1 & _ & H3 & _).
  split; [exact H1 | exact H3].
Defined.

Lemma duplicate_never_published_witness :
  let it := nth 0 (run_items known_post) no_item in
  (In it (run_items known_post)
   /\ mem (event_id (it_event it)) (synced_event_ids (it_before it)) = true)
  /\ it_calls it = [].
Proof.
  intros it.
  assert (Hin : In it (run_items known_post)) by (left; reflexivity).
  split; [split; [exact Hin | reflexivity]|].
  exact (proj1 (duplicate_never_published unit
                  (picky [post "a1" 2000 "good"]) lib_ok
                  (with_credentials alice [])
                  {| last_synced_timestamp := 1000;
                     synced_event_ids := [py "a1"] |} tt it Hin eq_refl)).
Defined.

Lemma failed_post_not_recorded_witness :
  let it := nth 0 (run_items refused_then_accepted) no_item in
  let O := picky [post "a1" 2000 "bad"; post "b2" 3000 "good"] in
  let cl := mkClients true true in
  let e1 := post "a1" 2000 "bad" in
  let e2 := post "b2" 3000 "good" in
  let s := process_event O lib_ok cl state0 1000 tt e1 in
  (In it (run_items refused_then_accepted)
   /\ existsb tweet_failed (it_calls it) = true
   /\ existsb tweet_failed (sp_calls s) = true)
  /\ synced_event_ids (it_after it) = synced_event_ids (it_before it)
  /\ existsb is_dump_state (it_calls it) = false
  /\ lp_items (process_events O lib_ok cl state0 1000 tt [e1; e2])
     = mkItem e1 state0 (sp_calls s) state0
         :: lp_items (process_events O lib_ok cl state0 1000 tt [e2]).
Proof.
  intros it O cl e1 e2 s.
  assert (Hin : In it (run_items refused_then_accepted))
    by (left; reflexivity).
  split; [split; [exact Hin | split; reflexivity]|].
  destruct (failed_post_not_recorded unit O lib_ok) as [Hrun Hloop].
  destruct (Hrun (with_credentials alice []) state0 tt it Hin eq_refl)
    as (H1 & _ & H3).
  split; [exact H1|]. split; [exact H3|].
  rewrite (Hloop cl state0 1000%Z tt e1 [e2] eq_refl). reflexivity.
Defined.

Lemma publish_order_ascending_witness :
  let e1 := post "a1" 2000 "one" in
  let e2 := post "b2" 3000 "two" in
  let e3 := post "c3" 4000 "three" in
  (In (fetch_events alice 1001 (Some [e3; e1; e2])) (run_calls out_of_order)
   /\ Permutation [e3; e1; e2] [e1; e2; e3])
  /\ sort_by_created_at [e3; e1; e2] = [e1; e2; e3]
  /\ map it_event (run_items out_of_order) = [e1; e2; e3]
  /\ publish_attempts (run_items out_of_order) = [e1; e2; e3].
Proof.
  intros e1 e2 e3.
  assert (Hin : In (fetch_events alice 1001 (Some [e3; e1; e2]))
                   (run_calls out_of_order)) by (right; left; reflexivity).
  assert (Hp : Permutation [e3; e1; e2] [e1; e2; e3])
    by (apply (Permutation_cons_append [e1; e2] e3)).
  split; [split; [exact Hin | exact Hp]|].
  destruct (publish_order_ascending unit (picky [e3; e1; e2]) lib_ok
              (with_credentials alice []) state0 tt) as (_ & _ & H).
  destruct (H alice 1001%Z [e3; e1; e2] Hin) as (_ & _ & H3).
  split; [apply (H3 e1 e2 e3 Hp); reflexivity|].
  split; reflexivity.
Defined.

Lemma recording_keeps_last_1000_witness :
  let first := note 0 2000 in
  let rest := map (fun n => note n 2000) (seq 1 1000) in
  let it := nth 1 (run_items refused_then_accepted) no_item in
  (length (first :: rest) = 1001%nat
   /\ NoDup (map event_id (first :: rest))
   /\ In it (run_items refused_then_accepted) /\ recorded it = true)
  /\ length (synced_event_ids (fst (record_all state0 (first :: rest))))
     = 1000%nat
  /\ ~ In (event_id first)
          (synced_event_ids (fst (record_all state0 (first :: rest))))
  /\ In (dump_state (it_after it)) (it_calls it).
Proof.
  intros first rest it.
  assert (Hl : length (first :: rest) = 1001%nat) by (vm_compute; reflexivity).
  assert (Hd : NoDup (map event_id (first :: rest)))
    by (apply distinct_NoDup; vm_compute; reflexivity).
  assert (Hin : In it (run_items refused_then_accepted))
    by (right; left; reflexivity).
  split; [split; [exact Hl | split; [exact Hd | split;
                                     [exact Hin | reflexivity]]]|].
  destruct (recording_keeps_last_1000 unit
              (picky [post "a1" 2000 "bad"; post "b2" 3000 "good"]) lib_ok)
    as (_ & Hall & Hrun & _).
  destruct (Hall state0 first rest Hl Hd) as (_ & H2 & H3).
  split; [exact H2|]. split; [exact H3|].
  exact (proj2 (Hrun (with_credentials alice []) state0 tt it Hin eq_refl)).
Defined.

Lemma later_success_shadows_failure_witness :
  let it1 := nth 0 (run_items refused_then_accepted) no_item in
  let it2 := nth 1 (run_items refused_then_accepted) no_item in
  (existsb tweet_failed (it_calls it1) = true /\ recorded it2 = true
   /\ (created_at (it_event it1) < created_at (it_event it2))%Z)
  /\ (created_at (it_event it2)
      <= last_synced_timestamp (run_state refused_then_accepted))%Z
  /\ last_dumped (trace refused_then_accepted)
     = Some (run_state refused_then_accepted)
  /\ since_admits (last_synced_timestamp (run_state refused_then_accepted) + 1)
                  (created_at (it_event it1)) = false.
Proof.
  intros it1 it2.
  assert (H1 : In it1 (run_items refused_then_accepted))
    by (left; reflexivity).
  assert (H2 : In it2 (run_items refused_then_accepted))
    by (right; left; reflexivity).
  assert (Hlt : (created_at (it_event it1) < created_at (it_event it2))%Z)
    by reflexivity.
  split; [split; [reflexivity | split; [reflexivity | exact Hlt]]|].
  destruct (later_success_shadows_failure unit
              (picky [post "a1" 2000 "bad"; post "b2" 3000 "good"]) lib_ok
              (with_credentials alice []) state0 tt it1 it2
              H1 H2 eq_refl eq_refl Hlt) as (_ & _ & H3 & H4 & _).
  split; [exact H3|]. split; [exact H4 | reflexivity].
Defined.

Lemma duplicate_in_batch_witness :
  let a1 := nth 0 (run_items twice_accepted) no_item in
  let a2 := nth 1 (run_items twice_accepted) no_item in
  let r1 := nth 0 (run_items twice_refused) no_item in
  let r2 := nth 1 (run_items twice_refused) no_item in
  (run_items twice_accepted = [] ++ a1 :: [] ++ a2 :: []
   /\ recorded a1 = true
   /\ run_items twice_refused = [] ++ r1 :: [] ++ r2 :: []
   /\ existsb tweet_failed (it_calls r1) = true)
  /\ it_calls a2 = []
  /\ In sleep (it_calls r2).
Proof.
  intros a1 a2 r1 r2.
  assert (Ha : run_items twice_accepted = [] ++ a1 :: [] ++ a2 :: [])
    by reflexivity.
  assert (Hr : run_items twice_refused = [] ++ r1 :: [] ++ r2 :: [])
    by reflexivity.
  split; [split; [exact Ha | split; [reflexivity | split;
                                     [exact Hr | reflexivity]]]|].
  split.
  - destruct (duplicate_in_batch unit
                (picky [post "a1" 2000 "good"; post "a1" 2000 "good"])
                lib_ok (with_credentials alice []) state0 tt
                [] a1 [] a2 [] Ha eq_refl) as [H _].
    apply H; [reflexivity | simpl; lia].
  - destruct (duplicate_in_batch unit
                (picky [post "a1" 2000 "bad"; post "a1" 2000 "bad"])
                lib_ok (with_credentials alice []) state0 tt
                [] r1 [] r2 [] Hr eq_refl) as [_ H].
    destruct (H (or_intror eq_refl)) as (_ & _ & H3).
    apply H3; [reflexivity | reflexivity | discriminate].
Defined.

(* ================================================================== *)
(** * More on strings and on the configuration *)
(* ================================================================== *)

Lemma dropwhile_fixed f (s : str) :
  dropwhile f (dropwhile f s) = dropwhile f s.
Proof.
  pose proof (dropwhile_head f s) as H.
  destruct (dropwhile f s) as [|c r]; [reflexivity|].
  simpl. rewrite H. reflexivity.
Qed.

Lemma dropwhile_all f (s : str) :
  forallb f s = true -> dropwhile f s = [].
Proof.
  induction s as [|c s IH]; simpl; [reflexivity|].
  intros H. apply andb_true_iff in H. destruct H as [-> H]. exact (IH H).
Qed.

Lemma dropwhile_length f (s : str) :
  (length (dropwhile f s) <= length s)%nat.
Proof.
  induction s as [|c s IH]; simpl; [lia|]. destruct (f c); simpl; lia.
Qed.

(** A string that does not begin with a character of [f] is left alone. *)
Lemma dropwhile_nothing f (s : str) :
  match s with [] => True | c :: _ => f c = false end -> dropwhile f s = s.
Proof.
  destruct s as [|c s]; [reflexivity|]. simpl. intros ->. reflexivity.
Qed.

Lemma strip_strip (s : str) : strip (strip s) = strip s.
Proof.
  unfold strip.
  set (a := dropwhile isspace s).
  set (b := dropwhile isspace (rev a)).
  assert (Hb : dropwhile isspace (rev b) = rev b).
  { apply dropwhile_nothing.
    pose proof (takewhile_dropwhile isspace (rev a)) as E. fold b in E.
    apply (f_equal (@rev ascii)) in E.
    rewrite rev_app_distr, rev_involutive in E.
    pose proof (dropwhile_head isspace s) as Ha. fold a in Ha.
    destruct (rev b) as [|c r]; [exact I|].
    rewrite <- E in Ha. exact Ha. }
  rewrite Hb, rev_involutive. unfold b. rewrite dropwhile_fixed.
  reflexivity.
Qed.

Lemma strip_blank (s : str) : forallb isspace s = true -> strip s = [].
Proof.
  intros H. unfold strip. rewrite (dropwhile_all isspace s H). reflexivity.
Qed.

Lemma strip_length (s : str) : (length (strip s) <= length s)%nat.
Proof.
  unfold strip. rewrite length_rev.
  pose proof (dropwhile_length isspace (rev (dropwhile isspace s))).
  pose proof (dropwhile_length isspace s).
  rewrite length_rev in *. lia.
Qed.

Lemma split_comma_head (s : str) :
  exists w ws b,
    split_comma s = w :: ws /\ s = w ++ b
    /\ ~ In ","%char w
    /\ match b with [] => ws = [] | c :: _ => c = ","%char end.
Proof.
  induction s as [|c s (w & ws & b & E & Es & Hw & Hb)]; simpl.
  - exists [], [], []. repeat split; auto.
  - destruct (Ascii.eqb_spec c ","%char) as [->|Hc].
    + exists [], (split_comma s), (","%char :: s). repeat split; auto.
    + rewrite E. exists (c :: w), ws, b. repeat split; auto.
      * simpl. f_equal. exact Es.
      * intros [H|H]; [congruence | exact (Hw H)].
Qed.

(** Every piece of a split lies in the string and holds no comma. *)
Lemma split_comma_pieces (s : str) : forall x,
  In x (split_comma s) ->
  ~ In ","%char x /\ exists a b, s = a ++ x ++ b.
Proof.
  induction s as [|c s IH]; intros x Hx; simpl in Hx.
  - destruct Hx as [<-|[]]. split; [auto | exists [], []; reflexivity].
  - destruct (Ascii.eqb_spec c ","%char) as [->|Hc].
    + destruct Hx as [<-|Hx].
      * split; [auto | exists [], (","%char :: s); reflexivity].
      * destruct (IH x Hx) as (Hn & a & b & ->).
        split; [exact Hn | exists (","%char :: a), b; reflexivity].
    + destruct (split_comma_head s) as (w & ws & b & E & Es & Hw & _).
      rewrite E in Hx, IH. destruct Hx as [<-|Hx].
      * split.
        -- intros [H|H]; [congruence | exact (Hw H)].
        -- exists [], b. simpl. f_equal. exact Es.
      * destruct (IH x (or_intror Hx)) as (Hn & a & b' & ->).
        split; [exact Hn | exists (c :: a), b'; reflexivity].
Qed.

(** X1.  The list read from a comma-separated environment variable (the
    monitored identities, the relays) holds no empty entry, no entry with
    whitespace at either end and no entry with a comma; every entry occurs in
    the variable's value. *)
Theorem comma_separated_entries (s x : str) :
  In x (comma_separated s) ->
  x <> [] /\ strip x = x /\ ~ In ","%char x /\ contains s x = true.
Proof.
  unfold comma_separated. intros H. apply in_map_iff in H.
  destruct H as (y & <- & Hy). apply filter_In in Hy.
  destruct Hy as [Hy Ht].
  destruct (split_comma_pieces s y Hy) as (Hn & a & b & ->).
  destruct (strip_inside y) as (a' & b' & Ey).
  split; [intros E; rewrite E in Ht; discriminate|].
  split; [apply strip_strip|]. split.
  - intros Hc. apply Hn. rewrite Ey. apply in_or_app. right.
    apply in_or_app. left. exact Hc.
  - apply contains_spec. exists (a ++ a'), (b' ++ b).
    rewrite Ey at 1. rewrite <- !app_assoc. reflexivity.
Qed.

Lemma filter_nil_all (A : Type) (f : A -> bool) (l : list A) :
  (forall x, In x l -> f x = false) -> filter f l = [].
Proof.
  induction l as [|x l IH]; intros H; simpl; [reflexivity|].
  rewrite (H x (or_introl eq_refl)). apply IH. intros y Hy. apply H.
  right. exact Hy.
Qed.

Lemma comma_separated_blank (s : str) :
  forallb (fun c => isspace c || Ascii.eqb c ","%char) s = true ->
  comma_separated s = [].
Proof.
  intros H. unfold comma_separated.
  assert (Hf : filter (fun x => truthy (strip x)) (split_comma s) = []).
  { apply filter_nil_all. intros y Hy.
    destruct (split_comma_pieces s y Hy) as (Hn & a & b & E).
    rewrite strip_blank; [reflexivity|].
    apply forallb_forall. intros c Hc.
    assert (Hs : In c s)
      by (rewrite E; apply in_or_app; right; apply in_or_app; left; exact Hc).
    rewrite forallb_forall in H. specialize (H c Hs).
    apply orb_true_iff in H. destruct H as [H|H]; [exact H|].
    apply Ascii.eqb_eq in H. subst c. contradiction. }
  rewrite Hf. reflexivity.
Qed.

(** X2.  The relay list is the built-in default when the relay variable is
    unset or empty; a value that is not empty is split and
    stripped, and when it holds nothing but commas and whitespace the relay
    list is empty: the defaults do not come back. *)
Theorem relays_default_only_when_empty (env : Environ) :
  (env_NOSTR_RELAYS env = None \/ env_NOSTR_RELAYS env = Some [] ->
   NOSTR_RELAYS (configuration env) = DEFAULT_RELAYS)
  /\ (forall s, env_NOSTR_RELAYS env = Some s -> s <> [] ->
                NOSTR_RELAYS (configuration env) = comma_separated s
                /\ (forallb (fun c => isspace c || Ascii.eqb c ","%char) s
                    = true ->
                    NOSTR_RELAYS (configuration env) = [])).
Proof.
  unfold configuration. simpl. split.
  - intros [-> | ->]; reflexivity.
  - intros s -> Hs. simpl. destruct s as [|c s]; [congruence|]. simpl truthy.
    split; [reflexivity|]. apply comma_separated_blank.
Qed.

(** ** The URL tokens of a text *)

(** Every token [re.findall] returns matches the pattern at its head, holds
    no whitespace and lies in the text scanned ([tok] is a match in progress,
    begun at a position where the pattern matches). *)
Lemma findall_scan_tokens (u : str) : forall s tok,
  In u (findall_scan s tok) ->
  match tok with
  | Some t => url_here (rev t ++ s) = true /\ forallb nonspace (rev t) = true
  | None => True
  end ->
  url_here u = true /\ forallb nonspace u = true
  /\ exists pre post,
       match tok with Some t => rev t ++ s | None => s end = pre ++ u ++ post.
Proof.
  induction s as [|c s IH]; intros tok Hin Htok.
  - destruct tok as [t|]; [|destruct Hin]. destruct Hin as [<-|[]].
    destruct Htok as [Hu Hn]. rewrite app_nil_r in *.
    split; [exact Hu|]. split; [exact Hn|].
    exists [], []. rewrite app_nil_r. reflexivity.
  - destruct tok as [t|]; simpl in Hin.
    + destruct Htok as [Hu Hn]. destruct (isspace c) eqn:Ec.
      * destruct Hin as [<-|Hin].
        -- split; [|split; [exact Hn|]].
           ++ apply url_here_takewhile in Hu.
              rewrite takewhile_app in Hu by exact Hn. simpl in Hu.
              unfold nonspace at 1 in Hu. rewrite Ec in Hu. simpl in Hu.
              rewrite app_nil_r in Hu. exact Hu.
           ++ exists [], (c :: s). reflexivity.
        -- destruct (IH None Hin I) as (H1 & H2 & pre & post & E).
           split; [exact H1|]. split; [exact H2|].
           exists (rev t ++ c :: pre), post. rewrite E, <- app_assoc.
           reflexivity.
      * assert (E : rev (c :: t) ++ s = rev t ++ c :: s)
          by (simpl; rewrite <- app_assoc; reflexivity).
        destruct (IH (Some (c :: t)) Hin) as (H1 & H2 & pre & post & E').
        { rewrite E. split; [exact Hu|]. simpl. rewrite forallb_app, Hn.
          simpl. unfold nonspace. rewrite Ec. reflexivity. }
        split; [exact H1|]. split; [exact H2|].
        exists pre, post. rewrite <- E. exact E'.
    + destruct (url_here (c :: s)) eqn:U.
      * destruct (IH (Some [c]) Hin) as (H1 & H2 & pre & post & E).
        { simpl. split; [exact U|]. apply url_here_head in U.
          unfold nonspace. rewrite U. reflexivity. }
        split; [exact H1|]. split; [exact H2|]. exists pre, post. exact E.
      * destruct (IH None Hin I) as (H1 & H2 & pre & post & E).
        split; [exact H1|]. split; [exact H2|].
        exists (c :: pre), post. rewrite E. reflexivity.
Qed.

(** X3.  Every URL in the media list [extract_media_urls] returns passes the
    media test, begins with [http://] or [https://] followed by at least one
    more character, holds no whitespace, and occurs in the text as it was
    given. *)
Theorem media_urls_well_formed (content u : str) :
  In u (snd (extract_media_urls content)) ->
  is_media u = true
  /\ (startswith u (py "http://") = true
      \/ startswith u (py "https://") = true)
  /\ (8 <= length u)%nat
  /\ forallb nonspace u = true
  /\ contains content u = true.
Proof.
  rewrite extract_media_urls_list. intros H. apply filter_In in H.
  destruct H as [Hin Hm].
  destruct (findall_scan_tokens u content None Hin I)
    as (Hu & Hn & pre & post & E).
  split; [exact Hm|].
  apply url_here_spec in Hu. destruct Hu as (scheme & c & r & Hs & -> & _).
  split; [|split; [|split; [exact Hn|]]].
  - destruct Hs as [->| ->]; [right | left]; apply startswith_spec; eauto.
  - rewrite length_app. destruct Hs as [->| ->]; simpl; lia.
  - apply contains_spec. exists pre, post. exact E.
Qed.

(** ** The text [extract_media_urls] returns *)

Lemma delete_from_length (old : str) : forall s k,
  (length (delete_from old s k) <= length s)%nat.
Proof.
  induction s as [|c s IH]; intros k; simpl; [lia|].
  destruct k as [|k].
  - destruct (startswith (c :: s) old); simpl;
      [specialize (IH (length old - 1)%nat) | specialize (IH 0%nat)]; lia.
  - specialize (IH k). lia.
Qed.

Lemma replace_with_empty_length (s old : str) :
  (length (replace_with_empty s old) <= length s)%nat.
Proof.
  unfold replace_with_empty. destruct old; [lia | apply delete_from_length].
Qed.

(** X4.  The text [extract_media_urls] returns is never longer than the text
    it was given, and as soon as one media URL was found it carries no
    whitespace at either end. *)
Theorem clean_text_shape (content : str) :
  (length (fst (extract_media_urls content)) <= length content)%nat
  /\ (snd (extract_media_urls content) <> [] ->
      strip (fst (extract_media_urls content))
      = fst (extract_media_urls content)).
Proof.
  unfold extract_media_urls.
  assert (H : forall tokens clean urls,
             (length clean <= length content)%nat ->
             (urls <> [] -> strip clean = clean) ->
             let out := fold_left extract_step tokens (clean, urls) in
             (length (fst out) <= length content)%nat
             /\ (snd out <> [] -> strip (fst out) = fst out)).
  { induction tokens as [|url tokens IH]; intros clean urls Hl Hs; simpl;
      [auto|].
    destruct (is_media url); apply IH; auto.
    - pose proof (strip_length (replace_with_empty clean url)).
      pose proof (replace_with_empty_length clean url). lia.
    - intros _. apply strip_strip. }
  apply H; [lia | congruence].
Qed.

(** ** Truncation *)

Lemma truncate_text_cases (clean_text : str) :
  ((length clean_text <= 280)%nat /\ truncate_text clean_text = clean_text)
  \/ ((280 < length clean_text)%nat
      /\ truncate_text clean_text = firstn 277 clean_text ++ py "..."
      /\ length (truncate_text clean_text) = 280%nat).
Proof.
  unfold truncate_text.
  destruct (Nat.ltb_spec 280 (length clean_text)); [right | left; auto].
  split; [exact H|]. split; [reflexivity|].
  rewrite length_app, length_firstn.
  change (length (py "...")) with 3%nat. lia.
Qed.

(* ================================================================== *)
(** * More on the loop *)
(* ================================================================== *)

Section LoopFacts.

Variable W : Type.
Variable O : Oracle W.
Variable L : Lib.

(** ** The shape of an iteration *)

(** What the media block logs: one download for each URL, in order; one
    upload for each file downloaded when the client is set, none otherwise;
    the files and media ids it hands on are those the calls returned. *)
Lemma fetch_media_readers (client : bool) (urls : list str) : forall w,
  let m := fetch_media O client w urls in
  download_urls (md_calls m) = urls
  /\ downloaded (md_calls m) = md_temp_files m
  /\ upload_paths (md_calls m) = (if client then md_temp_files m else [])
  /\ obtained_media_ids (md_calls m) = md_media_ids m
  /\ removed (md_calls m) = []
  /\ Forall (fun c => is_cleanup c = false) (md_calls m).
Proof.
  induction urls as [|url rest IH]; intros w; simpl.
  - repeat split; try reflexivity; try (destruct client; reflexivity).
    constructor.
  - destruct (snd (on_download_media O w url)) as [path|] eqn:D.
    + destruct client.
      * destruct (IH (fst (on_media_upload O (fst (on_download_media O w url))
                                            path)))
          as (H1 & H2 & H3 & H4 & H5 & H6).
        simpl. rewrite H1, H2, H3, H5.
        repeat split; try reflexivity.
        -- destruct (snd (on_media_upload O _ path)); simpl; rewrite H4;
             reflexivity.
        -- constructor; [reflexivity|]. constructor; [reflexivity | exact H6].
      * destruct (IH (fst (on_download_media O w url)))
          as (H1 & H2 & H3 & H4 & H5 & H6).
        simpl. rewrite H1, H2, H3, H4, H5.
        repeat split; try reflexivity. constructor; [reflexivity | exact H6].
    + destruct (IH (fst (on_download_media O w url)))
        as (H1 & H2 & H3 & H4 & H5 & H6).
      simpl. rewrite H1, H2, H3, H4, H5.
      repeat split; try reflexivity. constructor; [reflexivity | exact H6].
Qed.

(** An iteration either logs nothing (duplicate, reply, exception) or logs,
    in this order: the media block, the posting block, the removal of the
    temporary files, the sleep. *)
Lemma process_event_shape cl state nlt w e :
  let s := process_event O L cl state nlt w e in
  let cm := extract_media_urls (content e) in
  let m := fetch_media O (twitter_client cl) w (snd cm) in
  let p := post_to_twitter O cl state nlt (md_world m) e (fst cm)
                           (md_media_ids m) in
  (sp_calls s = [] /\ sp_state s = state
   /\ (mem (event_id e) (synced_event_ids state) = true
       \/ is_reply e = true
       \/ fromtimestamp_ok L (created_at e) = false))
  \/ (sp_calls s = md_calls m ++ sp_calls p
                     ++ map os_remove (md_temp_files m) ++ [sleep]
      /\ sp_state s = sp_state p /\ sp_raised s = false
      /\ mem (event_id e) (synced_event_ids state) = false
      /\ is_reply e = false
      /\ fromtimestamp_ok L (created_at e) = true).
Proof.
  cbv zeta.
  destruct (mem (event_id e) (synced_event_ids state)) eqn:Hd;
    [left; destruct (process_event_skipped W O L cl state nlt w e
                       (or_introl Hd)) as (? & ? & _); auto|].
  destruct (is_reply e) eqn:Hr;
    [left; destruct (process_event_skipped W O L cl state nlt w e
                       (or_intror (or_introl Hr))) as (? & ? & _); auto|].
  destruct (fromtimestamp_ok L (created_at e)) eqn:Hf;
    [|left; destruct (process_event_skipped W O L cl state nlt w e
                        (or_intror (or_intror Hf))) as (? & ? & _); auto].
  right. rewrite (process_event_processed W O L cl state nlt w e Hd Hr Hf).
  simpl. repeat split; auto.
Qed.

(** The posting block logs a tweet, and after an accepted tweet the dump of
    the state it returns; nothing else. *)
Lemma post_to_twitter_log cl state nlt w e text mids :
  let p := post_to_twitter O cl state nlt w e text mids in
  (twitter_v2 cl = false /\ sp_calls p = [] /\ sp_state p = state)
  \/ (twitter_v2 cl = true
      /\ sp_calls p = [create_tweet (truncate_text text) mids false]
      /\ sp_state p = state)
  \/ (twitter_v2 cl = true
      /\ sp_calls p = [create_tweet (truncate_text text) mids true;
                       dump_state (sp_state p)]).
Proof.
  destruct (post_to_twitter_cases W O cl state nlt w e text mids)
    as [[Hv ->]|[(Hv & _ & Hs & _ & Hc)|(Hv & _ & Hs & _ & Hc)]].
  - left. auto.
  - right; left. auto.
  - right; right. split; [exact Hv|]. rewrite Hc, Hs. reflexivity.
Qed.

(** The log of an event in a run: empty, or made of the four blocks. *)
Lemma item_log cfg state w it :
  In it (run_items (run O L cfg state w)) ->
  let cl := setup_twitter cfg in
  let e := it_event it in
  let cm := extract_media_urls (content e) in
  (it_calls it = [] /\ it_after it = it_before it
   /\ (mem (event_id e) (synced_event_ids (it_before it)) = true
       \/ is_reply e = true
       \/ fromtimestamp_ok L (created_at e) = false))
  \/ (exists media post files mids,
         it_calls it = media ++ post ++ map os_remove files ++ [sleep]
         /\ download_urls media = snd cm
         /\ downloaded media = files
         /\ upload_paths media = (if twitter_client cl then files else [])
         /\ obtained_media_ids media = mids
         /\ removed media = []
         /\ Forall (fun c => is_cleanup c = false) media
         /\ Forall (fun c => is_create_tweet c = false
                             /\ is_dump_state c = false) media
         /\ ((post = [] /\ twitter_v2 cl = false
              /\ it_after it = it_before it)
             \/ (post = [create_tweet (truncate_text (fst cm)) mids false]
                 /\ twitter_v2 cl = true /\ it_after it = it_before it)
             \/ (post = [create_tweet (truncate_text (fst cm)) mids true;
                         dump_state (it_after it)]
                 /\ twitter_v2 cl = true))
         /\ mem (event_id e) (synced_event_ids (it_before it)) = false
         /\ is_reply e = false
         /\ fromtimestamp_ok L (created_at e) = true).
Proof.
  intros Hin cl e cm.
  destruct (run_iterations W O L cfg state w) as [Hi _].
  destruct (iterations_In W O L _ _ _ _ Hi Hin) as [w' [Hc Ha]].
  fold cl e in Hc, Ha.
  destruct (process_event_shape cl (it_before it)
              (last_synced_timestamp (it_before it)) w' e)
    as [(Hs & Hst & Hwhy)|(Hs & Hst & _ & Hd & Hr & Hf)].
  - left. rewrite Hc, Ha, Hs, Hst. auto.
  - right. fold cm in Hs, Hst.
    set (m := fetch_media O (twitter_client cl) w' (snd cm)) in *.
    destruct (fetch_media_readers (twitter_client cl) (snd cm) w')
      as (H1 & H2 & H3 & H4 & H5 & H6). fold m in H1, H2, H3, H4, H5, H6.
    pose proof (fetch_media_calls W O (twitter_client cl) (snd cm) w') as H7.
    fold m in H7.
    exists (md_calls m),
      (sp_calls (post_to_twitter O cl (it_before it)
                   (last_synced_timestamp (it_before it)) (md_world m) e
                   (fst cm) (md_media_ids m))),
      (md_temp_files m), (md_media_ids m).
    rewrite Hc, Ha, Hs, Hst.
    split; [reflexivity|]. repeat (split; [assumption|]).
    split; [eapply Forall_impl; [|exact H7]; intros c (? & ? & _); auto|].
    split; [|auto].
    destruct (post_to_twitter_log cl (it_before it)
                (last_synced_timestamp (it_before it)) (md_world m) e
                (fst cm) (md_media_ids m))
      as [(Hv & Hp & Hq)|[(Hv & Hp & Hq)|(Hv & Hp)]].
    + left. auto.
    + right; left. auto.
    + right; right. auto.
Qed.

(** ** The readers on the blocks *)

Lemma removed_os_remove (files : list str) :
  removed (map os_remove files ++ [sleep]) = files
  /\ downloaded (map os_remove files ++ [sleep]) = []
  /\ download_urls (map os_remove files ++ [sleep]) = []
  /\ upload_paths (map os_remove files ++ [sleep]) = []
  /\ obtained_media_ids (map os_remove files ++ [sleep]) = []
  /\ forallb is_cleanup (map os_remove files ++ [sleep]) = true
  /\ filter is_create_tweet (map os_remove files ++ [sleep]) = [].
Proof.
  induction files as [|f files (H1 & H2 & H3 & H4 & H5 & H6 & H7)]; simpl;
    [repeat split; reflexivity|].
  rewrite H1, H2, H3, H4, H5, H6, H7. repeat split; reflexivity.
Qed.

(** A call found in a list whose first block cannot hold it lies in the
    rest. *)
Lemma split_after_block (P : Call -> bool) (block : list Call) :
  Forall (fun c => P c = false) block ->
  forall rest pre x post,
    P x = true -> block ++ rest = pre ++ x :: post ->
    exists mid, pre = block ++ mid /\ rest = mid ++ x :: post.
Proof.
  induction 1 as [|b block Hb Hall IH]; intros rest pre x post Hx E.
  - exists pre. auto.
  - destruct pre as [|c pre]; simpl in E; inversion E; subst;
      [congruence|].
    destruct (IH rest pre x post Hx H1) as (mid & -> & ->).
    exists mid. auto.
Qed.

Lemma cleanup_block_only (files : list str) mid x post :
  map os_remove files ++ [sleep] = mid ++ x :: post ->
  is_cleanup x = true /\ forallb is_cleanup post = true.
Proof.
  intros E.
  destruct (removed_os_remove files) as (_ & _ & _ & _ & _ & H & _).
  rewrite E, forallb_app in H. simpl in H.
  apply andb_true_iff in H. destruct H as [_ H].
  apply andb_true_iff in H. exact H.
Qed.

(** ** What is sent *)

(** X5.  Every tweet a run creates carries the text [extract_media_urls]
    returned for the event, cut to its first 277 characters and three dots
    when it is longer than 280 characters, so never more than 280
    characters; and it carries the media ids of the uploads of that event
    that succeeded, in the order of the uploads. *)
Theorem tweet_text_and_media cfg state w it text mids ok :
  In it (run_items (run O L cfg state w)) ->
  In (create_tweet text mids ok) (it_calls it) ->
  let clean := fst (extract_media_urls (content (it_event it))) in
  text = truncate_text clean
  /\ (length text <= 280)%nat
  /\ ((280 < length clean)%nat -> text = firstn 277 clean ++ py "...")
  /\ ((length clean <= 280)%nat -> text = clean)
  /\ mids = obtained_media_ids (it_calls it).
Proof.
  intros Hin Hc clean.
  destruct (item_log cfg state w it Hin)
    as [(E & _)|(media & post & files & ids & E & _ & _ & _ & Hids & _ & _
                 & Hm & Hpost & _)]; [rewrite E in Hc; destruct Hc|].
  fold clean in Hpost.
  assert (Hp : In (create_tweet text mids ok) post).
  { rewrite E in Hc. apply in_app_or in Hc. destruct Hc as [Hc|Hc].
    - rewrite Forall_forall in Hm. destruct (Hm _ Hc). discriminate.
    - apply in_app_or in Hc. destruct Hc as [Hc|Hc]; [exact Hc|].
      apply in_app_or in Hc. destruct Hc as [Hc|[Hc|[]]]; [|discriminate].
      apply in_map_iff in Hc. destruct Hc as (? & ? & _). discriminate. }
  assert (Ho : obtained_media_ids (it_calls it) = ids).
  { rewrite E. unfold obtained_media_ids. rewrite !flat_map_app.
    fold (obtained_media_ids media). rewrite Hids.
    destruct (removed_os_remove files) as (_ & _ & _ & _ & H5 & _).
    unfold obtained_media_ids in H5. rewrite flat_map_app in H5. rewrite H5.
    destruct Hpost as [(-> & _)|[(-> & _)|(-> & _)]]; simpl;
      rewrite app_nil_r; reflexivity. }
  assert (Ht : text = truncate_text clean /\ mids = ids).
  { destruct Hpost as [(-> & _)|[(-> & _)|(-> & _)]]; simpl in Hp.
    - destruct Hp.
    - destruct Hp as [Hp|[]]. inversion Hp. auto.
    - destruct Hp as [Hp|[Hp|[]]]; [|discriminate]. inversion Hp. auto. }
  destruct Ht as [-> ->]. rewrite Ho.
  split; [reflexivity|].
  destruct (truncate_text_cases clean) as [[Hl Ht]|(Hl & Ht & Hn)].
  - split; [rewrite Ht; exact Hl|]. split; [intros; lia|].
    split; [intros _; exact Ht | reflexivity].
  - split; [lia|]. split; [intros _; exact Ht|].
    split; [intros; lia | reflexivity].
Qed.

(** X6.  An event is a reply when one of its tags begins with [e] or with
    [reply]; no other tag makes it one.  A reply is skipped in every run: no
    call is made for it and the state is left alone. *)
Theorem replies_are_skipped :
  (forall e,
      is_reply e = true
      <-> exists tag rest,
          In tag (event_tags e)
          /\ (tag = py "e" :: rest \/ tag = py "reply" :: rest))
  /\ (forall cfg state w it,
         In it (run_items (run O L cfg state w)) ->
         is_reply (it_event it) = true ->
         it_calls it = [] /\ it_after it = it_before it).
Proof.
  split.
  - intros e. unfold is_reply. rewrite existsb_exists. split.
    + intros (tag & Hin & Ht). destruct tag as [|t0 rest]; [discriminate|].
      exists (t0 :: rest), rest. split; [exact Hin|].
      apply mem_In in Ht. destruct Ht as [<-|[<-|[]]]; auto.
    + intros (tag & rest & Hin & [->| ->]); eexists; (split; [exact Hin|]);
        reflexivity.
  - intros cfg state w it Hin Hr.
    destruct (item_log cfg state w it Hin)
      as [(E & Ea & _)|(? & ? & ? & ? & _ & _ & _ & _ & _ & _ & _ & _ & _
                        & _ & Hn & _)]; [auto | congruence].
Qed.

(** ** Temporary files *)

(** X7.  In every iteration of every run, whether the tweet was created,
    failed or was not attempted, the files [os.remove] is called on are
    exactly the files [download_media] returned, in the same order; once the
    removal has begun nothing follows but removals and the sleep; and an
    iteration that made any call ends with the sleep, its only one. *)
Theorem temp_files_removed cfg state w it :
  In it (run_items (run O L cfg state w)) ->
  removed (it_calls it) = downloaded (it_calls it)
  /\ (forall pre path post,
         it_calls it = pre ++ os_remove path :: post ->
         forallb is_cleanup post = true)
  /\ (it_calls it <> [] ->
      exists body,
        it_calls it = body ++ [sleep] /\ ~ In sleep body).
Proof.
  intros Hin.
  destruct (item_log cfg state w it Hin)
    as [(E & _)|(media & post & files & ids & E & _ & Hd & _ & _ & Hr & Hm
                 & _ & Hpost & _)].
  - rewrite E. split; [reflexivity|]. split; [|congruence].
    intros [|? ?] ? ? H; discriminate H.
  - assert (Hp : removed post = [] /\ downloaded post = []
                 /\ Forall (fun c => is_cleanup c = false) post).
    { destruct Hpost as [(-> & _)|[(-> & _)|(-> & _)]]; simpl;
        repeat split; repeat constructor. }
    destruct Hp as (Hp1 & Hp2 & Hp3).
    destruct (removed_os_remove files) as (R1 & R2 & _).
    split; [|split].
    + rewrite E. unfold removed, downloaded. rewrite !flat_map_app.
      fold (removed media) (removed post) (downloaded media)
           (downloaded post)
           (removed (map os_remove files)) (downloaded (map os_remove files)).
      unfold removed, downloaded in R1, R2. rewrite flat_map_app in R1, R2.
      fold (removed (map os_remove files))
           (downloaded (map os_remove files)) in R1, R2.
      rewrite Hr, Hd, Hp1, Hp2. simpl in *. rewrite R1, R2, app_nil_r.
      reflexivity.
    + intros pre path post0 E'. rewrite E in E'.
      destruct (split_after_block is_cleanup media Hm _ pre (os_remove path)
                  post0 eq_refl E') as (mid & _ & E2).
      destruct (split_after_block is_cleanup post Hp3 _ mid (os_remove path)
                  post0 eq_refl E2) as (mid' & _ & E3).
      exact (proj2 (cleanup_block_only files mid' _ post0 E3)).
    + intros _. exists (media ++ post ++ map os_remove files).
      split; [rewrite E, <- !app_assoc; reflexivity|].
      intros Hs. apply in_app_or in Hs. destruct Hs as [Hs|Hs].
      * rewrite Forall_forall in Hm. specialize (Hm _ Hs). discriminate.
      * apply in_app_or in Hs. destruct Hs as [Hs|Hs].
        -- rewrite Forall_forall in Hp3. specialize (Hp3 _ Hs). discriminate.
        -- apply in_map_iff in Hs. destruct Hs as (? & ? & _). discriminate.
Qed.

(** X8.  An iteration that processes its event calls [download_media] once
    for each URL of the event's media list, in the order of the list, with
    or without credentials; with the upload client set every file downloaded
    is handed to [media_upload], once and in order, and without it no file
    is. *)
Theorem media_downloaded_then_uploaded cfg state w it :
  In it (run_items (run O L cfg state w)) ->
  it_calls it <> [] ->
  download_urls (it_calls it)
  = snd (extract_media_urls (content (it_event it)))
  /\ upload_paths (it_calls it)
     = (if twitter_client (setup_twitter cfg)
        then downloaded (it_calls it) else []).
Proof.
  intros Hin Hne.
  destruct (item_log cfg state w it Hin)
    as [(E & _)|(media & post & files & ids & E & Hu & Hd & Hup & _ & _ & _
                 & _ & Hpost & _)]; [congruence|].
  destruct (removed_os_remove files) as (_ & R2 & R3 & R4 & _).
  assert (Hp : download_urls post = [] /\ upload_paths post = []
               /\ downloaded post = []).
  { destruct Hpost as [(-> & _)|[(-> & _)|(-> & _)]]; simpl; auto. }
  destruct Hp as (Hp1 & Hp2 & Hp3).
  rewrite E. unfold download_urls, upload_paths, downloaded in *.
  rewrite !flat_map_app. rewrite flat_map_app in R2, R3, R4.
  rewrite Hu, Hup, Hd, Hp1, Hp2, Hp3, R2, R3, R4. simpl.
  rewrite !app_nil_r. split; [reflexivity|].
  destruct (twitter_client (setup_twitter cfg)); reflexivity.
Qed.

(** X9.  With credentials, an iteration that processes its event creates
    exactly one tweet, whatever became of the downloads and uploads; no
    iteration creates more than one; and the state is handed to the state
    file only right after an accepted tweet, and is then the state the
    iteration leaves. *)
Theorem one_tweet_then_save cfg state w it :
  In it (run_items (run O L cfg state w)) ->
  (length (filter is_create_tweet (it_calls it)) <= 1)%nat
  /\ (it_calls it <> [] -> twitter_v2 (setup_twitter cfg) = true ->
      length (filter is_create_tweet (it_calls it)) = 1%nat)
  /\ (forall pre st post,
         it_calls it = pre ++ dump_state st :: post ->
         st = it_after it
         /\ exists pre' text mids,
              pre = pre' ++ [create_tweet text mids true]).
Proof.
  intros Hin.
  destruct (item_log cfg state w it Hin)
    as [(E & _)|(media & post & files & ids & E & _ & _ & _ & _ & _ & _
                 & Hm & Hpost & _)].
  - rewrite E. simpl. split; [lia|]. split; [congruence|].
    intros [|? ?] ? ? H; discriminate H.
  - destruct (removed_os_remove files) as (_ & _ & _ & _ & _ & _ & R7).
    assert (Hf : filter is_create_tweet media = []).
    { apply filter_nil_all. intros c Hc. rewrite Forall_forall in Hm.
      exact (proj1 (Hm c Hc)). }
    assert (Hcount : filter is_create_tweet (it_calls it)
                     = filter is_create_tweet post).
    { rewrite E, !filter_app. rewrite filter_app in R7.
      rewrite Hf, R7, app_nil_r. reflexivity. }
    rewrite Hcount. split; [|split].
    + destruct Hpost as [(-> & _)|[(-> & _)|(-> & _)]]; simpl; lia.
    + intros _ Hv.
      destruct Hpost as [(-> & Hv' & _)|[(-> & _)|(-> & _)]]; simpl;
        [congruence | reflexivity | reflexivity].
    + intros pre st post0 E'. rewrite E in E'.
      assert (Hmd : Forall (fun c => is_dump_state c = false) media)
        by (eapply Forall_impl; [|exact Hm]; intros c [_ H]; exact H).
      destruct (split_after_block is_dump_state media Hmd _ pre
                  (dump_state st) post0 eq_refl E') as (mid & -> & E2).
      destruct Hpost as [(-> & _)|[(-> & _)|(-> & _)]].
      * destruct (cleanup_block_only files mid _ post0 E2) as [F _].
        discriminate F.
      * destruct mid as [|c mid]; simpl in E2; inversion E2; subst.
        destruct (cleanup_block_only files mid _ post0 H1) as [F _].
        discriminate F.
      * destruct mid as [|c mid]; simpl in E2; inversion E2; subst.
        destruct mid as [|c mid]; simpl in H1; inversion H1; subst.
        -- split; [reflexivity|].
           exists media, (truncate_text
                            (fst (extract_media_urls (content (it_event it))))),
             ids. reflexivity.
        -- destruct (cleanup_block_only files mid _ post0 H2) as [F _].
           discriminate F.
Qed.

(** ** The state a run leaves *)

Lemma record_published_state state e :
  synced_event_ids
    (fst (record_published state (last_synced_timestamp state) e))
  = last_n 1000 (synced_event_ids state ++ [event_id e])
  /\ last_synced_timestamp
       (fst (record_published state (last_synced_timestamp state) e))
     = Z.max (last_synced_timestamp state) (created_at e).
Proof. rewrite record_published_max. split; reflexivity. Qed.

(** The state after a chain of iterations, read off its log. *)
Lemma iterations_state cl state items :
  iterations O L cl state items ->
  synced_event_ids (state_after state items)
  = match recorded_ids items with
    | [] => synced_event_ids state
    | _ :: _ => last_n 1000 (synced_event_ids state ++ recorded_ids items)
    end
  /\ last_synced_timestamp (state_after state items)
     = newest (last_synced_timestamp state) items.
Proof.
  induction 1 as [|state w e items s Hi [IH1 IH2]]; [split; reflexivity|].
  change (state_after state (mkItem e state (sp_calls s) (sp_state s) :: items))
    with (state_after (sp_state s) items).
  unfold recorded_ids, newest in *. simpl filter.
  assert (Hr : recorded (mkItem e state (sp_calls s) (sp_state s))
               = existsb tweet_ok (sp_calls s)) by reflexivity.
  rewrite Hr. clear Hr.
  destruct (existsb tweet_ok (sp_calls s)) eqn:E.
  - destruct (process_event_timestamp W O L cl state w e) as [_ H].
    destruct (H E) as (_ & Hs & _). fold s in Hs.
    destruct (record_published_state state e) as [R1 R2].
    rewrite <- Hs in R1, R2. simpl. rewrite IH1, IH2, R1, R2. split.
    + destruct (map (fun it => event_id (it_event it))
                    (filter recorded items)) as [|x l]; [reflexivity|].
      rewrite last_n_app_last_n, <- app_assoc. reflexivity.
    + reflexivity.
  - destruct (process_event_unrecorded W O L cl state
                (last_synced_timestamp state) w e E) as (Hs & _).
    fold s in Hs. rewrite Hs in IH1, IH2 |- *. split; assumption.
Qed.

(** X10.  The state a run ends in, read off its log: when no event was
    recorded the id list is the one the run started with; otherwise it is
    the last 1000 entries of that list followed by the ids of the recorded
    events in the order of recording.  The timestamp is the largest of the
    initial timestamp and the timestamps of the recorded events.  A list of
    at most 1000 ids stays within 1000. *)
Theorem run_state_from_log cfg state w :
  let r := run O L cfg state w in
  synced_event_ids (run_state r)
  = match recorded_ids (run_items r) with
    | [] => synced_event_ids state
    | _ :: _ =>
      last_n 1000 (synced_event_ids state ++ recorded_ids (run_items r))
    end
  /\ last_synced_timestamp (run_state r)
     = newest (last_synced_timestamp state) (run_items r)
  /\ ((length (synced_event_ids state) <= 1000)%nat ->
      (length (synced_event_ids (run_state r)) <= 1000)%nat).
Proof.
  intros r. destruct (run_iterations W O L cfg state w) as [Hi Hs].
  fold r in Hi, Hs. destruct (iterations_state _ _ _ Hi) as [H1 H2].
  rewrite Hs. split; [exact H1|]. split; [exact H2|].
  intros Hl. rewrite H1. destruct (recorded_ids (run_items r)); [exact Hl|].
  rewrite last_n_length. lia.
Qed.

(** An id among the last [m] entries is among the last [m + k] after [k]
    more recordings, as long as that is within 1000. *)
Lemma iterations_keep_recent_n cl state items id :
  iterations O L cl state items ->
  forall m,
    In id (last_n m (synced_event_ids state)) ->
    (m + length (filter recorded items) <= 1000)%nat ->
    In id (last_n (m + length (filter recorded items))
                  (synced_event_ids (state_after state items))).
Proof.
  induction 1 as [|state w e items s Hi IH]; intros m Hin Hm.
  - simpl. rewrite Nat.add_0_r. exact Hin.
  - simpl in Hm |- *. unfold recorded at 1 in Hm. unfold recorded at 1.
    simpl in Hm |- *.
    change (fold_left (fun _ it => it_after it) items (sp_state s))
      with (state_after (sp_state s) items).
    destruct (existsb tweet_ok (sp_calls s)) eqn:E.
    + simpl in Hm |- *.
      replace (m + S (length (filter recorded items)))%nat
        with (S m + length (filter recorded items))%nat by lia.
      apply IH; [|lia].
      destruct (process_event_timestamp W O L cl state w e) as [_ H].
      destruct (H E) as (_ & Hs & _). fold s in Hs. rewrite Hs.
      apply record_published_keeps; [exact Hin | lia].
    + destruct (process_event_unrecorded W O L cl state
                  (last_synced_timestamp state) w e E) as (Hs & _).
      fold s in Hs. apply IH; [rewrite Hs; exact Hin | lia].
Qed.

(** X11.  An event recorded in one run is skipped by the next run, started
    from the state the first one left, when it is fetched again: no call is
    made for it.  This holds as long as fewer than 1000 events were recorded
    between the two, counting the rest of the first run and the beginning of
    the second. *)
Theorem recorded_event_skipped_next_run
    cfg1 cfg2 state w1 w2 pre1 it1 post1 pre2 it2 post2 :
  let r1 := run O L cfg1 state w1 in
  let r2 := run O L cfg2 (run_state r1) w2 in
  run_items r1 = pre1 ++ it1 :: post1 ->
  recorded it1 = true ->
  run_items r2 = pre2 ++ it2 :: post2 ->
  event_id (it_event it2) = event_id (it_event it1) ->
  (length (filter recorded post1) + length (filter recorded pre2) < 1000)%nat ->
  it_calls it2 = [] /\ it_after it2 = it_before it2.
Proof.
  intros r1 r2 E1 Hrec E2 Hid Hfew.
  destruct (run_iterations W O L cfg1 state w1) as [Hi1 Hs1].
  fold r1 in Hi1, Hs1. rewrite E1 in Hi1, Hs1.
  apply iterations_app in Hi1. destruct Hi1 as [_ Hi1].
  pose proof Hi1 as Hone.
  change (it1 :: post1) with ([it1] ++ post1) in Hone.
  apply iterations_app in Hone. destruct Hone as [Hone Hpost].
  change (state_after (state_after state pre1) [it1]) with (it_after it1)
    in Hpost.
  destruct (iterations_In W O L _ _ _ it1 Hone (or_introl eq_refl))
    as [w' [Hc Ha]].
  assert (Hlast : In (event_id (it_event it1))
                     (last_n 1 (synced_event_ids (it_after it1)))).
  { unfold recorded in Hrec. rewrite Hc in Hrec.
    apply (process_event_timestamp W O L _ _ _ _) in Hrec.
    destruct Hrec as (_ & Hs & _). rewrite Ha, Hs.
    apply record_published_recent. }
  pose proof (iterations_keep_recent_n _ _ _ _ Hpost 1 Hlast) as Hend.
  assert (Hfin : run_state r1 = state_after (it_after it1) post1).
  { rewrite Hs1. unfold state_after. rewrite fold_left_app. reflexivity. }
  rewrite <- Hfin in Hend. specialize (Hend ltac:(lia)).
  destruct (run_iterations W O L cfg2 (run_state r1) w2) as [Hi2 _].
  fold r2 in Hi2. rewrite E2 in Hi2.
  apply iterations_app in Hi2. destruct Hi2 as [Hpre2 Hi2].
  apply iterations_head in Hi2. destruct Hi2 as [Hb2 _].
  assert (Hmem : mem (event_id (it_event it2))
                     (synced_event_ids (it_before it2)) = true).
  { apply mem_In. rewrite Hb2, Hid.
    apply (iterations_keep_recent W O L _ _ _ _ Hpre2
             (1 + length (filter recorded post1))); [exact Hend | lia]. }
  assert (Hin2 : In it2 (run_items r2))
    by (rewrite E2; apply in_or_app; right; left; reflexivity).
  destruct (item_log cfg2 (run_state r1) w2 it2 Hin2)
    as [(E & Ea & _)|(? & ? & ? & ? & _ & _ & _ & _ & _ & _ & _ & _ & _
                      & Hn & _)]; [auto | congruence].
Qed.

(** X12.  A run in which no event is recorded (nothing fetched, every event
    skipped, every tweet refused, no credentials, an exception on the way)
    ends in the state it started from and never hands a state to the state
    file; and a fetch that returns no event ends the run at once, without
    exception. *)
Theorem unrecorded_run_changes_nothing cfg state w :
  let r := run O L cfg state w in
  (existsb recorded (run_items r) = false ->
   run_state r = state
   /\ Forall (fun c => is_dump_state c = false) (trace r))
  /\ (forall authors since,
         In (fetch_events authors since (Some [])) (run_calls r) ->
         run_items r = [] /\ run_raised r = false /\ run_state r = state).
Proof.
  intros r. split.
  - intros Hrec. destruct (run_iterations W O L cfg state w) as [Hi Hs].
    fold r in Hi, Hs.
    destruct (iterations_unrecorded W O L _ _ _ Hi Hrec) as [_ Hst].
    split; [rewrite Hs; exact Hst|].
    unfold trace. apply Forall_app. split.
    + destruct (run_calls_cases W O L cfg state w) as [E|[_ E]]; fold r in E;
        rewrite E; [constructor|].
      eapply Forall_impl; [|apply connect_and_fetch_calls].
      intros c [_ H]. exact H.
    + clear Hs Hst. revert Hrec.
      induction Hi as [|state w' e items s Hi IH]; simpl; [constructor|].
      unfold recorded at 1. simpl. intros Hrec.
      apply orb_false_iff in Hrec. destruct Hrec as [R1 R2].
      apply Forall_app. split; [|exact (IH R2)].
      apply (process_event_unrecorded W O L _ state
               (last_synced_timestamp state) w' e R1).
  - intros authors since Hin.
    destruct (run_after_fetch W O L cfg state w authors since [] Hin)
      as [[rest Hpre] _]. fold r in Hpre. simpl in Hpre.
    assert (Hnil : run_items r = []).
    { destruct (run_items r); [reflexivity | discriminate Hpre]. }
    destruct (run_iterations W O L cfg state w) as [_ Hs]. fold r in Hs.
    rewrite Hnil in Hs. split; [exact Hnil|]. split; [|exact Hs].
    destruct (run_calls_cases W O L cfg state w) as [E|[Hn E]]; fold r in E;
      rewrite E in Hin; [destruct Hin|].
    apply connect_and_fetch_fetch in Hin. destruct Hin as (_ & _ & Hf).
    unfold r, run. destruct (MONITORED_NPUBS cfg); [congruence|].
    rewrite <- Hf. reflexivity.
Qed.

(** ** Exceptions *)

Lemma process_event_raised cl state nlt w e :
  sp_raised (process_event O L cl state nlt w e) = true ->
  mem (event_id e) (synced_event_ids state) = false
  /\ is_reply e = false
  /\ fromtimestamp_ok L (created_at e) = false.
Proof.
  unfold process_event.
  destruct (mem (event_id e) (synced_event_ids state)); [discriminate|].
  destruct (is_reply e); [discriminate|].
  destruct (fromtimestamp_ok L (created_at e)); [discriminate | auto].
Qed.

Lemma process_events_raised cl evs : forall state nlt w,
  let l := process_events O L cl state nlt w evs in
  lp_raised l = true ->
  exists items it,
    lp_items l = items ++ [it]
    /\ it_calls it = [] /\ it_after it = it_before it
    /\ lp_state l = it_before it
    /\ mem (event_id (it_event it)) (synced_event_ids (it_before it)) = false
    /\ is_reply (it_event it) = false
    /\ fromtimestamp_ok L (created_at (it_event it)) = false.
Proof.
  induction evs as [|e rest IH]; intros state nlt w; simpl; [discriminate|].
  destruct (sp_raised (process_event O L cl state nlt w e)) eqn:R; simpl.
  - intros _. destruct (process_event_raised cl state nlt w e R)
      as (Hd & Hr & Hf).
    destruct (process_event_skipped W O L cl state nlt w e
                (or_intror (or_intror Hf))) as (Hc & Hs & _).
    eexists [], _. split; [reflexivity|]. simpl. rewrite Hc, Hs. auto 7.
  - intros Hl.
    destruct (IH _ _ _ Hl) as (items & it & E & H).
    eexists (_ :: items), it. rewrite E. split; [reflexivity | exact H].
Qed.

(** X13.  When an exception ends a run inside the loop, the last entry of
    the log is an event that is neither a known duplicate nor a reply and
    whose timestamp [datetime.fromtimestamp] could not convert; no call was
    made for it, the run ends in the state that entry found, and the events
    sorted after it are not examined. *)
Theorem exception_in_loop cfg state w :
  let r := run O L cfg state w in
  run_raised r = true -> run_items r <> [] ->
  exists items it,
    run_items r = items ++ [it]
    /\ it_calls it = [] /\ run_state r = it_before it
    /\ mem (event_id (it_event it)) (synced_event_ids (it_before it)) = false
    /\ is_reply (it_event it) = false
    /\ fromtimestamp_ok L (created_at (it_event it)) = false
    /\ forall authors since fetched,
         In (fetch_events authors since (Some fetched)) (run_calls r) ->
         exists unexamined,
           sort_by_created_at fetched
           = map it_event items ++ it_event it :: unexamined.
Proof.
  intros r Hr Hne.
  assert (H : exists items it,
             run_items r = items ++ [it]
             /\ it_calls it = [] /\ it_after it = it_before it
             /\ run_state r = it_before it
             /\ mem (event_id (it_event it))
                    (synced_event_ids (it_before it)) = false
             /\ is_reply (it_event it) = false
             /\ fromtimestamp_ok L (created_at (it_event it)) = false).
  { revert Hr Hne. unfold r, run.
    destruct (MONITORED_NPUBS cfg); simpl; [congruence|].
    destruct (fe_events (connect_and_fetch O L cfg state w)) as [events|];
      simpl; [|congruence].
    destruct (sort_by_created_at events) as [|e rest]; simpl; [congruence|].
    intros Hr _.
    exact (process_events_raised (setup_twitter cfg) (e :: rest) _ _ _ Hr). }
  destruct H as (items & it & E & Hc & _ & Hs & Hd & Hrep & Hf).
  exists items, it. repeat (split; [assumption|]).
  intros authors since fetched Hin.
  destruct (run_after_fetch W O L cfg state w authors since fetched Hin)
    as [[rest Hpre] _]. fold r in Hpre.
  exists rest. rewrite Hpre, E, map_app, <- app_assoc. reflexivity.
Qed.

(** ** Connecting *)

Lemma add_relays_log relays : forall w,
  let p := add_relays O w relays in
  (pg_ok p = true
   /\ pg_calls p = map (fun relay => add_relay relay true) relays)
  \/ (pg_ok p = false
      /\ exists done relay rest,
           relays = done ++ relay :: rest
           /\ pg_calls p = map (fun r => add_relay r true) done
                             ++ [add_relay relay false]).
Proof.
  induction relays as [|relay rest IH]; intros w; simpl; [left; auto|].
  destruct (snd (on_add_relay O w relay)); simpl.
  - destruct (IH (fst (on_add_relay O w relay)))
      as [[Hok Hc]|(Hok & done & r & rest' & -> & Hc)].
    + left. rewrite Hc. auto.
    + right. split; [exact Hok|].
      exists (relay :: done), r, rest'. rewrite Hc. auto.
  - right. split; [reflexivity|]. exists [], relay, rest. auto.
Qed.

(** X14.  [setup_nostr] adds the relays in the order of the list and then
    connects, once; when adding a relay raises, the relays after it are not
    added and [connect] is not called.  A run whose [setup_nostr] raised
    makes no further call (no fetch), examines no event and ends, with the
    exception, in the state it started from. *)
Theorem setup_nostr_log relays w :
  let p := setup_nostr O w relays in
  ((exists ok,
       pg_ok p = ok
       /\ pg_calls p = map (fun relay => add_relay relay true) relays
                         ++ [connect ok])
   \/ (pg_ok p = false
       /\ exists done relay rest,
            relays = done ++ relay :: rest
            /\ pg_calls p = map (fun r => add_relay r true) done
                              ++ [add_relay relay false]))
  /\ forall cfg state,
       NOSTR_RELAYS cfg = relays -> MONITORED_NPUBS cfg <> [] ->
       pg_ok p = false ->
       let r := run O L cfg state w in
       run_calls r = pg_calls p /\ run_items r = []
       /\ run_raised r = true /\ run_state r = state.
Proof.
  intros p. split.
  - unfold p, setup_nostr.
    destruct (add_relays_log relays w) as [[Hok Hc]|[Hok H]]; rewrite Hok.
    + left. eexists. simpl. rewrite Hc. auto.
    + right. auto.
  - intros cfg state Hrel Hn Hp r. unfold r, run.
    destruct (MONITORED_NPUBS cfg); [congruence|].
    unfold connect_and_fetch. rewrite Hrel. fold p. rewrite Hp. simpl. auto.
Qed.

(** ** The program *)

Lemma run_fetch_authors cfg state w authors since res :
  In (fetch_events authors since res) (trace (run O L cfg state w)) ->
  authors = MONITORED_NPUBS cfg.
Proof.
  unfold trace. intros Hin. apply in_app_or in Hin. destruct Hin as [Hin|Hin].
  - destruct (run_calls_cases W O L cfg state w) as [E|[_ E]];
      rewrite E in Hin; [destruct Hin|].
    apply connect_and_fetch_fetch in Hin. tauto.
  - destruct (run_iterations W O L cfg state w) as [Hi _].
    apply iterations_in_loop in Hi. rewrite Forall_forall in Hi.
    specialize (Hi _ Hin). discriminate.
Qed.

(** X15.  The program as a whole.  With the identity variable unset, empty
    or made of commas and whitespace only, it makes no call at all and keeps
    the state it loaded.  Otherwise every fetch asks for the identities of
    the variable, split and stripped, and for the events from the second
    after the timestamp of the state file on, or, when there is no usable
    state file, from 86399 seconds before now on. *)
Theorem program_fetch_window env file now w :
  let r := main O L env file now w in
  (forallb (fun c => isspace c || Ascii.eqb c ","%char)
           (getenv_or_empty (env_NOSTR_NPUBS env)) = true ->
   trace r = [] /\ run_state r = load_state file now)
  /\ (forall authors since res,
         In (fetch_events authors since res) (trace r) ->
         authors = comma_separated (getenv_or_empty (env_NOSTR_NPUBS env))
         /\ since = match file with
                    | Some st => (last_synced_timestamp st + 1)%Z
                    | None => (now - 86399)%Z
                    end).
Proof.
  intros r. split.
  - intros Hb. unfold r, main, run. simpl.
    rewrite (comma_separated_blank _ Hb). auto.
  - intros authors since res Hin. unfold r, main in Hin. split.
    + apply run_fetch_authors in Hin. exact Hin.
    + apply run_fetch_since in Hin. rewrite Hin.
      destruct file; simpl; lia.
Qed.

(** ** Credentials *)

Lemma run_without_clients cfg state w :
  setup_twitter cfg = mkClients false false ->
  let r := run O L cfg state w in
  run_state r = state
  /\ Forall (fun c => is_publish c = false /\ is_dump_state c = false)
            (trace r).
Proof.
  intros Hcl r.
  destruct (run_iterations W O L cfg state w) as [Hi Hs]. fold r in Hi, Hs.
  rewrite Hcl in Hi. apply iterations_dry_run in Hi. split.
  - rewrite Hs. clear Hs.
    induction (run_items r) as [|it items IH] using rev_ind; [reflexivity|].
    unfold state_after. rewrite fold_left_app. simpl.
    apply Forall_app in Hi. destruct Hi as [_ Hi]. inversion Hi; subst.
    tauto.
  - unfold trace. apply Forall_app. split.
    + destruct (run_calls_cases W O L cfg state w) as [E|[_ E]]; fold r in E;
        rewrite E; [constructor | apply connect_and_fetch_calls].
    + apply Forall_concat. apply Forall_map.
      eapply Forall_impl; [|exact Hi]. intros it (_ & _ & H). exact H.
Qed.

(** X16.  The two Twitter clients are set together or not at all, and they
    are set exactly when each of the four credentials is a string that is
    not empty.  A credential set to the empty string gives a dry run like a
    missing one: no media upload, no tweet creation, no state saved, and
    the run ends in the state it started from. *)
Theorem empty_credential_is_dry_run cfg state w :
  twitter_client (setup_twitter cfg) = twitter_v2 (setup_twitter cfg)
  /\ (twitter_v2 (setup_twitter cfg) = true
      <-> (exists k s t a,
              TWITTER_API_KEY cfg = Some k /\ TWITTER_API_SECRET cfg = Some s
              /\ TWITTER_ACCESS_TOKEN cfg = Some t
              /\ TWITTER_ACCESS_SECRET cfg = Some a
              /\ k <> [] /\ s <> [] /\ t <> [] /\ a <> []))
  /\ (TWITTER_API_KEY cfg = Some [] \/ TWITTER_API_SECRET cfg = Some []
      \/ TWITTER_ACCESS_TOKEN cfg = Some []
      \/ TWITTER_ACCESS_SECRET cfg = Some [] ->
      run_state (run O L cfg state w) = state
      /\ Forall (fun c => is_publish c = false /\ is_dump_state c = false)
                (trace (run O L cfg state w))).
Proof.
  assert (Hc : forall c, cred_set c = true <-> exists s, c = Some s /\ s <> []).
  { intros c. destruct c as [[|x y]|]; simpl.
    - split; [discriminate | intros (z & E & Hz); inversion E; congruence].
    - split; [|reflexivity].
      intros _. eexists. split; [reflexivity | discriminate].
    - split; [discriminate | intros (z & E & _); discriminate E]. }
  split; [|split].
  - unfold setup_twitter.
    destruct (cred_set (TWITTER_API_KEY cfg) && cred_set (TWITTER_API_SECRET cfg)
              && cred_set (TWITTER_ACCESS_TOKEN cfg)
              && cred_set (TWITTER_ACCESS_SECRET cfg)); reflexivity.
  - unfold setup_twitter.
    destruct (cred_set (TWITTER_API_KEY cfg)) eqn:K;
      destruct (cred_set (TWITTER_API_SECRET cfg)) eqn:S;
      destruct (cred_set (TWITTER_ACCESS_TOKEN cfg)) eqn:T;
      destruct (cred_set (TWITTER_ACCESS_SECRET cfg)) eqn:A; simpl;
      split; try discriminate;
      try (intros (k & s & t & a & Ek & Es & Et & Ea & Hk & Hs & Ht & Ha);
           rewrite Ek in K; rewrite Es in S; rewrite Et in T;
           rewrite Ea in A;
           destruct k, s, t, a; simpl in *; congruence).
    intros _. apply Hc in K, S, T, A.
    destruct K as (k & -> & Hk), S as (s & -> & Hs),
             T as (t & -> & Ht), A as (a & -> & Ha).
    exists k, s, t, a. auto 9.
  - intros H. apply run_without_clients. unfold setup_twitter.
    destruct H as [H|[H|[H|H]]]; rewrite H; simpl;
      rewrite ?andb_false_r; reflexivity.
Qed.

(** X19.  When [Timestamp.from_secs], [PublicKey.parse] or the conversion
    of the state's timestamp raises, the run has already called
    [setup_nostr], and it ends there: no fetch, no event examined, the state
    untouched.  When the fetch itself raises the run ends in the same way
    right after it. *)
Theorem exception_before_loop cfg state w :
  let r := run O L cfg state w in
  (MONITORED_NPUBS cfg <> [] ->
   Timestamp_from_secs_ok L (last_synced_timestamp state + 1) = false
   \/ forallb (PublicKey_parse_ok L) (MONITORED_NPUBS cfg) = false
   \/ fromtimestamp_ok L (last_synced_timestamp state) = false ->
   run_calls r = pg_calls (setup_nostr O w (NOSTR_RELAYS cfg))
   /\ run_items r = [] /\ run_raised r = true /\ run_state r = state)
  /\ (forall authors since,
         In (fetch_events authors since None) (run_calls r) ->
         run_items r = [] /\ run_raised r = true /\ run_state r = state).
Proof.
  intros r. split.
  - intros Hn Hbad. unfold r, run.
    destruct (MONITORED_NPUBS cfg) as [|npub npubs] eqn:En; [congruence|].
    assert (Hf : fe_events (connect_and_fetch O L cfg state w) = None
                 /\ fe_calls (connect_and_fetch O L cfg state w)
                    = pg_calls (setup_nostr O w (NOSTR_RELAYS cfg))).
    { unfold connect_and_fetch. rewrite En.
      remember (Timestamp_from_secs_ok L (last_synced_timestamp state + 1))
        as b1.
      remember (forallb (PublicKey_parse_ok L) (npub :: npubs)) as b2.
      remember (fromtimestamp_ok L (last_synced_timestamp state)) as b3.
      destruct (pg_ok (setup_nostr O w (NOSTR_RELAYS cfg)));
        [|split; reflexivity].
      destruct b1; [|split; reflexivity].
      destruct b2; [|split; reflexivity].
      destruct b3; [|split; reflexivity].
      destruct Hbad as [H|[H|H]]; discriminate H. }
    destruct Hf as [Hf1 Hf2]. rewrite Hf1. simpl. auto.
  - intros authors since Hin.
    destruct (run_calls_cases W O L cfg state w) as [E|[Hn E]]; fold r in E;
      rewrite E in Hin; [destruct Hin|].
    apply connect_and_fetch_fetch in Hin. destruct Hin as (_ & _ & Hf).
    unfold r, run. destruct (MONITORED_NPUBS cfg); [congruence|].
    rewrite <- Hf. simpl. auto.
Qed.

End LoopFacts.

(* ================================================================== *)
(** * More on saving and on sorting *)
(* ================================================================== *)

Lemma last_n_suffix n (l : list str) : exists old, l = old ++ last_n n l.
Proof.
  exists (firstn (length l - n) l). unfold last_n.
  symmetry. apply firstn_skipn.
Qed.

Lemma last_n_short n (l : list str) :
  (length l <= n)%nat -> last_n n l = l.
Proof.
  intros H. unfold last_n.
  replace (length l - n)%nat with 0%nat by lia. reflexivity.
Qed.

(** X17.  [save_state] only ever drops the oldest ids: the list it leaves is
    the end of the list it found, at most 1000 entries long; a list of at
    most 1000 entries and the timestamp are left as they are; saving twice
    is saving once. *)
Theorem save_state_drops_oldest_only (state : State) :
  (exists old,
      synced_event_ids state = old ++ synced_event_ids (save_state state))
  /\ (length (synced_event_ids (save_state state)) <= 1000)%nat
  /\ last_synced_timestamp (save_state state) = last_synced_timestamp state
  /\ ((length (synced_event_ids state) <= 1000)%nat ->
      save_state state = state)
  /\ save_state (save_state state) = save_state state.
Proof.
  destruct state as [t l]. unfold save_state. simpl.
  split; [apply last_n_suffix|].
  split; [rewrite last_n_length; lia|]. split; [reflexivity|].
  split.
  - intros H. rewrite last_n_short by exact H. reflexivity.
  - rewrite last_n_short; [reflexivity|]. rewrite last_n_length. lia.
Qed.

Lemma insert_by_created_at_least e l :
  Forall (by_created_at e) l -> insert_by_created_at e l = e :: l.
Proof.
  intros H. destruct l as [|x l]; [reflexivity|]. simpl.
  inversion H as [|? ? Hx _]; subst. unfold by_created_at in Hx.
  destruct (Z.leb_spec (created_at e) (created_at x)); [reflexivity | lia].
Qed.

(** X18.  The sort of the fetched events loses and invents no event, keeps
    the events of one and the same second in the order in which they
    arrived, and returns a batch that already is in ascending order as it
    is. *)
Theorem sort_keeps_events_and_arrival_order (l : list Event) :
  Permutation (sort_by_created_at l) l
  /\ (forall t,
         filter (fun e => created_at e =? t)%Z (sort_by_created_at l)
         = filter (fun e => created_at e =? t)%Z l)
  /\ (StronglySorted by_created_at l -> sort_by_created_at l = l).
Proof.
  split; [apply sort_by_created_at_perm|].
  split; [intros t; apply sort_by_created_at_stable|].
  induction 1 as [|e l Hs IH He]; [reflexivity|].
  simpl. rewrite IH. apply insert_by_created_at_least, He.
Qed.

(* ================================================================== *)
(** * More concrete texts and runs *)
(* ================================================================== *)

Lemma comma_separated_entries_witness :
  let s := py " npub1alice , npub1bob," in
  In (py "npub1bob") (comma_separated s)
  /\ strip (py "npub1bob") = py "npub1bob"
  /\ contains s (py "npub1bob") = true.
Proof.
  intros s.
  assert (Hin : In (py "npub1bob") (comma_separated s))
    by (right; left; reflexivity).
  split; [exact Hin|].
  destruct (comma_separated_entries s (py "npub1bob") Hin)
    as (_ & H2 & _ & H4).
  split; [exact H2 | exact H4].
Defined.

Lemma relays_default_only_when_empty_witness :
  (env_NOSTR_RELAYS env_unset = None
   /\ env_NOSTR_RELAYS env_comma_relays = Some (py ",") /\ py "," <> [])
  /\ NOSTR_RELAYS (configuration env_unset) = DEFAULT_RELAYS
  /\ NOSTR_RELAYS (configuration env_comma_relays) = [].
Proof.
  assert (Hne : py "," <> []) by discriminate.
  split; [split; [reflexivity | split; [reflexivity | exact Hne]]|].
  split.
  - exact (proj1 (relays_default_only_when_empty env_unset)
                 (or_introl eq_refl)).
  - exact (proj2 (proj2 (relays_default_only_when_empty env_comma_relays)
                        (py ",") eq_refl Hne) eq_refl).
Defined.

Lemma media_urls_well_formed_witness :
  let content := py "look http://a.b/pic.jpg now" in
  let u := py "http://a.b/pic.jpg" in
  In u (snd (extract_media_urls content))
  /\ forallb nonspace u = true
  /\ contains content u = true.
Proof.
  intros content u.
  assert (Hin : In u (snd (extract_media_urls content)))
    by (left; reflexivity).
  split; [exact Hin|].
  destruct (media_urls_well_formed content u Hin) as (_ & _ & _ & H4 & H5).
  split; [exact H4 | exact H5].
Defined.

Lemma clean_text_shape_witness :
  let content := py "  look http://a.b/pic.jpg  " in
  snd (extract_media_urls content) <> []
  /\ strip (fst (extract_media_urls content))
     = fst (extract_media_urls content)
  /\ fst (extract_media_urls content) = py "look".
Proof.
  intros content.
  assert (Hne : snd (extract_media_urls content) <> []) by discriminate.
  split; [exact Hne|].
  split; [exact (proj2 (clean_text_shape content) Hne) | reflexivity].
Defined.

Lemma tweet_text_and_media_witness :
  let it := nth 0 (run_items media_run) no_item in
  let text := repeat "x"%char 277 ++ py "..." in
  (In it (run_items media_run)
   /\ In (create_tweet text [7%Z] true) (it_calls it)
   /\ (280 < length (fst (extract_media_urls (content (it_event it)))))%nat)
  /\ (length text <= 280)%nat
  /\ text = firstn 277 (fst (extract_media_urls (content (it_event it))))
             ++ py "..."
  /\ [7%Z] = obtained_media_ids (it_calls it).
Proof.
  intros it text.
  assert (Hin : In it (run_items media_run)) by (left; reflexivity).
  assert (Hc : In (create_tweet text [7%Z] true) (it_calls it))
    by (vm_compute; do 4 right; left; reflexivity).
  assert (Hl : (280 < length
                        (fst (extract_media_urls (content (it_event it)))))%nat)
    by (vm_compute; lia).
  split; [split; [exact Hin | split; [exact Hc | exact Hl]]|].
  destruct (tweet_text_and_media unit media_world lib_ok
              (with_credentials alice []) state0 tt it text [7%Z] true
              Hin Hc) as (_ & H2 & H3 & _ & H5).
  split; [exact H2|]. split; [exact (H3 Hl) | exact H5].
Defined.

Lemma replies_are_skipped_witness :
  let it := nth 0 (run_items reply_run) no_item in
  (In it (run_items reply_run) /\ is_reply (it_event it) = true)
  /\ it_calls it = []
  /\ exists tag rest,
       In tag (event_tags reply_post)
       /\ (tag = py "e" :: rest \/ tag = py "reply" :: rest).
Proof.
  intros it.
  assert (Hin : In it (run_items reply_run)) by (left; reflexivity).
  split; [split; [exact Hin | reflexivity]|].
  destruct (replies_are_skipped unit (picky [reply_post]) lib_ok)
    as [Hiff Hrun].
  split.
  - exact (proj1 (Hrun (with_credentials alice []) state0 tt it Hin eq_refl)).
  - exact (proj1 (Hiff reply_post) eq_refl).
Defined.

Lemma temp_files_removed_witness :
  let it := nth 0 (run_items media_run) no_item in
  In it (run_items media_run)
  /\ removed (it_calls it) = downloaded (it_calls it)
  /\ downloaded (it_calls it) = [py "/tmp/one.jpg"; py "/tmp/two.png"]
  /\ exists body, it_calls it = body ++ [sleep] /\ ~ In sleep body.
Proof.
  intros it.
  assert (Hin : In it (run_items media_run)) by (left; reflexivity).
  split; [exact Hin|].
  destruct (temp_files_removed unit media_world lib_ok
              (with_credentials alice []) state0 tt it Hin) as (H1 & _ & H3).
  split; [exact H1|]. split; [reflexivity|].
  apply H3. discriminate.
Defined.

Lemma media_downloaded_then_uploaded_witness :
  let it := nth 0 (run_items media_run) no_item in
  (In it (run_items media_run) /\ it_calls it <> [])
  /\ download_urls (it_calls it)
     = [py "http://a.b/one.jpg"; py "http://a.b/two.png"]
  /\ upload_paths (it_calls it) = downloaded (it_calls it).
Proof.
  intros it.
  assert (Hin : In it (run_items media_run)) by (left; reflexivity).
  assert (Hne : it_calls it <> []) by discriminate.
  split; [split; [exact Hin | exact Hne]|].
  destruct (media_downloaded_then_uploaded unit media_world lib_ok
              (with_credentials alice []) state0 tt it Hin Hne) as [H1 H2].
  split; [etransitivity; [exact H1 | reflexivity] | exact H2].
Defined.

Lemma one_tweet_then_save_witness :
  let it := nth 0 (run_items media_run) no_item in
  (In it (run_items media_run) /\ it_calls it <> []
   /\ twitter_v2 (setup_twitter (with_credentials alice [])) = true)
  /\ length (filter is_create_tweet (it_calls it)) = 1%nat.
Proof.
  intros it.
  assert (Hin : In it (run_items media_run)) by (left; reflexivity).
  assert (Hne : it_calls it <> []) by discriminate.
  split; [split; [exact Hin | split; [exact Hne | reflexivity]]|].
  exact (proj1 (proj2 (one_tweet_then_save unit media_world lib_ok
                         (with_credentials alice []) state0 tt it Hin))
               Hne eq_refl).
Defined.

Lemma run_state_from_log_witness :
  (length (synced_event_ids state0) <= 1000)%nat
  /\ synced_event_ids (run_state refused_then_accepted) = [py "b2"]
  /\ last_synced_timestamp (run_state refused_then_accepted) = 3000%Z
  /\ (length (synced_event_ids (run_state refused_then_accepted))
      <= 1000)%nat.
Proof.
  assert (Hl : (length (synced_event_ids state0) <= 1000)%nat)
    by (simpl; lia).
  split; [exact Hl|].
  destruct (run_state_from_log unit
              (picky [post "a1" 2000 "bad"; post "b2" 3000 "good"]) lib_ok
              (with_credentials alice []) state0 tt) as (H1 & H2 & H3).
  split; [etransitivity; [exact H1 | reflexivity]|].
  split; [etransitivity; [exact H2 | reflexivity] | exact (H3 Hl)].
Defined.

Lemma recorded_event_skipped_next_run_witness :
  let a := nth 0 (run_items refused_then_accepted) no_item in
  let b := nth 1 (run_items refused_then_accepted) no_item in
  let a' := nth 0 (run_items second_run) no_item in
  let b' := nth 1 (run_items second_run) no_item in
  (run_items refused_then_accepted = [a] ++ b :: []
   /\ recorded b = true
   /\ run_items second_run = [a'] ++ b' :: []
   /\ event_id (it_event b') = event_id (it_event b))
  /\ it_calls b' = []
  /\ it_calls a' <> [].
Proof.
  intros a b a' b'.
  assert (E1 : run_items refused_then_accepted = [a] ++ b :: [])
    by reflexivity.
  assert (E2 : run_items second_run = [a'] ++ b' :: []) by reflexivity.
  split; [split; [exact E1 | split; [reflexivity | split;
                                     [exact E2 | reflexivity]]]|].
  split; [|discriminate].
  apply (recorded_event_skipped_next_run unit
           (picky [post "a1" 2000 "bad"; post "b2" 3000 "good"]) lib_ok
           (with_credentials alice []) (with_credentials alice [])
           state0 tt tt [a] b [] [a'] b' [] E1 eq_refl E2 eq_refl).
  simpl. lia.
Defined.

Lemma unrecorded_run_changes_nothing_witness :
  (existsb recorded (run_items twice_refused) = false
   /\ In (fetch_events alice 1001 (Some []))
         (run_calls (run (picky []) lib_ok (with_credentials alice [])
                         state0 tt)))
  /\ run_state twice_refused = state0
  /\ run_items (run (picky []) lib_ok (with_credentials alice []) state0 tt)
     = [].
Proof.
  assert (Hf : In (fetch_events alice 1001 (Some []))
                  (run_calls (run (picky []) lib_ok
                                  (with_credentials alice []) state0 tt)))
    by (right; left; reflexivity).
  split; [split; [reflexivity | exact Hf]|].
  split.
  - exact (proj1 (proj1 (unrecorded_run_changes_nothing unit
                           (picky [post "a1" 2000 "bad";
                                   post "a1" 2000 "bad"]) lib_ok
                           (with_credentials alice []) state0 tt) eq_refl)).
  - exact (proj1 (proj2 (unrecorded_run_changes_nothing unit (picky []) lib_ok
                           (with_credentials alice []) state0 tt)
                        alice 1001%Z Hf)).
Defined.

Lemma exception_in_loop_witness :
  (run_raised far_future = true /\ run_items far_future <> [])
  /\ exists items it,
       run_items far_future = items ++ [it]
       /\ it_calls it = []
       /\ fromtimestamp_ok lib_strict (created_at (it_event it)) = false
       /\ length items = 1%nat.
Proof.
  assert (Hne : run_items far_future <> []) by discriminate.
  split; [split; [reflexivity | exact Hne]|].
  destruct (exception_in_loop unit
              (picky [post "z9" 300000000000 "late"; post "a1" 2000 "good";
                      post "zz" 300000000001 "later"])
              lib_strict (with_credentials [py "npub1alice"] []) state0 tt
              eq_refl Hne) as (items & it & E & Hc & _ & _ & _ & Hf & _).
  exists items, it. split; [exact E|]. split; [exact Hc|].
  split; [exact Hf|].
  apply (f_equal (@length Item)) in E. rewrite length_app in E.
  simpl in E. lia.
Defined.

Lemma setup_nostr_log_witness :
  let O := staged [] (fun _ => true)
                  (fun relay => startswith relay (py "wss://"))
                  (fun _ => None) (fun _ => None) in
  let relays := [py "wss://a"; py "http://b"; py "wss://c"] in
  let cfg := with_credentials alice relays in
  (NOSTR_RELAYS cfg = relays /\ MONITORED_NPUBS cfg <> []
   /\ pg_ok (setup_nostr O tt relays) = false)
  /\ run_calls (run O lib_ok cfg state0 tt)
     = [add_relay (py "wss://a") true; add_relay (py "http://b") false]
  /\ run_raised (run O lib_ok cfg state0 tt) = true.
Proof.
  intros O relays cfg.
  assert (Hn : MONITORED_NPUBS cfg <> []) by discriminate.
  split; [split; [reflexivity | split; [exact Hn | reflexivity]]|].
  destruct (proj2 (setup_nostr_log unit O lib_ok relays tt) cfg state0
                  eq_refl Hn eq_refl) as (H1 & _ & H3 & _).
  split; [etransitivity; [exact H1 | reflexivity] | exact H3].
Defined.

Lemma program_fetch_window_witness :
  let r := main (picky []) lib_ok env_two_npubs None 100000 tt in
  let idle := main (picky []) lib_ok env_unset None 100000 tt in
  (forallb (fun c => isspace c || Ascii.eqb c ","%char)
           (getenv_or_empty (env_NOSTR_NPUBS env_unset)) = true
   /\ In (fetch_events [py "npub1alice"; py "npub1bob"] 13601 (Some []))
         (trace r))
  /\ trace idle = []
  /\ (13601 = 100000 - 86399)%Z.
Proof.
  intros r idle.
  assert (Hf : In (fetch_events [py "npub1alice"; py "npub1bob"] 13601
                                (Some [])) (trace r))
    by (vm_compute; do 5 right; left; reflexivity).
  split; [split; [reflexivity | exact Hf]|].
  split.
  - exact (proj1 (proj1 (program_fetch_window unit (picky []) lib_ok
                           env_unset None 100000%Z tt) eq_refl)).
  - exact (proj2 (proj2 (program_fetch_window unit (picky []) lib_ok
                           env_two_npubs None 100000%Z tt) _ _ _ Hf)).
Defined.

Lemma empty_credential_is_dry_run_witness :
  let cfg := empty_key alice [] in
  let r := run (picky [post "a1" 2000 "good"]) lib_ok cfg state0 tt in
  TWITTER_API_KEY cfg = Some []
  /\ run_state r = state0
  /\ length (run_items r) = 1%nat
  /\ Forall (fun c => is_publish c = false /\ is_dump_state c = false)
            (trace r).
Proof.
  intros cfg r. split; [reflexivity|].
  destruct (proj2 (proj2 (empty_credential_is_dry_run unit
                            (picky [post "a1" 2000 "good"]) lib_ok cfg
                            state0 tt)) (or_introl eq_refl)) as [H1 H2].
  split; [exact H1|]. split; [reflexivity | exact H2].
Defined.

Lemma save_state_drops_oldest_only_witness :
  let state := {| last_synced_timestamp := 5;
                  synced_event_ids := [py "a1"; py "b2"] |} in
  (length (synced_event_ids state) <= 1000)%nat
  /\ save_state state = state.
Proof.
  intros state.
  assert (Hl : (length (synced_event_ids state) <= 1000)%nat)
    by (simpl; lia).
  split; [exact Hl|].
  destruct (save_state_drops_oldest_only state) as (_ & _ & _ & H & _).
  exact (H Hl).
Defined.

Lemma sort_keeps_events_and_arrival_order_witness :
  let l := [post "a1" 2000 "one"; post "b2" 2000 "two"; post "c3" 3000 "x"] in
  StronglySorted by_created_at l /\ sort_by_created_at l = l.
Proof.
  intros l.
  assert (Hs : StronglySorted by_created_at l)
    by (repeat constructor; unfold by_created_at; simpl; lia).
  split; [exact Hs|].
  exact (proj2 (proj2 (sort_keeps_events_and_arrival_order l)) Hs).
Defined.

Lemma exception_before_loop_witness :
  let cfg := with_credentials [py "alice"] [py "wss://a"] in
  let r := run (picky [post "a1" 2000 "good"]) lib_strict cfg state0 tt in
  (MONITORED_NPUBS cfg <> []
   /\ forallb (PublicKey_parse_ok lib_strict) (MONITORED_NPUBS cfg) = false)
  /\ run_calls r = [add_relay (py "wss://a") true; connect true]
  /\ run_raised r = true /\ run_state r = state0.
Proof.
  intros cfg r.
  assert (Hn : MONITORED_NPUBS cfg <> []) by discriminate.
  split; [split; [exact Hn | reflexivity]|].
  destruct (proj1 (exception_before_loop unit
                     (picky [post "a1" 2000 "good"]) lib_strict cfg state0 tt)
                  Hn (or_intror (or_introl eq_refl)))
    as (H1 & _ & H3 & H4).
  split; [etransitivity; [exact H1 | reflexivity]|]. split; [exact H3 | exact H4].
Defined.
